(** * unbrowserify: a shallow embedding of the unbundling engine

    The development follows [src/unbrowserify.js] (kernel matcher, module
    name resolver, module assembler) and the normalizer [decompress]
    (the tree rewriting pass driven by [transformBefore]).

    Conventions of the embedding.
    - Property keys of JavaScript objects are strings; a numeric module id
      is represented by its decimal spelling, which is what indexing an
      object with it produces.  The name table is the object [moduleNames],
      a finite map from ids to names; ids and names are taken not to
      collide with the members every object inherits from
      [Object.prototype].
    - Strings are byte strings; [toLowerCase] folds the letters A-Z.
    - [path] is Node's POSIX path module.
    - The syntax tree is the one the source dispatches on: one type of
      nodes, with the class tests ([instanceof]) written as boolean
      functions.  A comma expression has the two fields the source reads,
      [car] and [cdr].
    - In-place updates of a tree are returned as the updated tree; the
      symbol definitions, which several nodes share, live in a store. *)

From Stdlib Require Import Ascii String ZArith Lia List Bool Arith.
From stdpp Require Import base option list gmap strings pretty.

Local Open Scope string_scope.
Local Open Scope list_scope.
#[local] Set Warnings "-clear-no-such-hyp".

(* ===================================================================== *)
(** * JavaScript strings *)
(* ===================================================================== *)

Module js.

Definition lower_char (c : ascii) : ascii :=
  let n := nat_of_ascii c in
  if (65 <=? n)%nat && (n <=? 90)%nat then ascii_of_nat (n + 32) else c.

(** [s.toLowerCase()] *)
Fixpoint toLowerCase (s : string) : string :=
  match s with
  | EmptyString => EmptyString
  | String c s' => String (lower_char c) (toLowerCase s')
  end.

(** [s.startsWith(p)] *)
Definition startsWith (p s : string) : bool := String.prefix p s.

(** [s.split('/')] *)
Fixpoint split_slash (s : string) : list string :=
  match s with
  | EmptyString => [EmptyString]
  | String c s' =>
      if Ascii.eqb c "/"
      then EmptyString :: split_slash s'
      else match split_slash s' with
           | seg :: rest => String c seg :: rest
           | [] => [String c EmptyString]
           end
  end.

(** [s.slice(from, to)] for [0 <= from], [0 <= to] *)
Definition slice (from to : nat) (s : string) : string :=
  String.substring from (to - from) s.

(** Truthiness of a value that is either undefined or a string. *)
Definition truthy (v : option string) : bool :=
  match v with
  | Some s => negb (String.eqb s "")
  | None => false
  end.

End js.

(* ===================================================================== *)
(** * Node's [path] module (POSIX) *)
(* ===================================================================== *)

Module path.

(** One path segment pushed on the (reversed) result of
    [normalizeString]: empty segments and "." are dropped, ".." removes
    the previous segment unless there is none or it is ".." itself. *)
Definition normalize_segment (allowAboveRoot : bool)
    (res : list string) (seg : string) : list string :=
  if String.eqb seg "" || String.eqb seg "." then res
  else if String.eqb seg ".." then
    match res with
    | last :: rest =>
        if String.eqb last ".."
        then (if allowAboveRoot then ".." :: res else res)
        else rest
    | [] => if allowAboveRoot then [".."] else []
    end
  else seg :: res.

Definition normalizeString (p : string) (allowAboveRoot : bool) : string :=
  String.concat "/"
    (rev (fold_left (normalize_segment allowAboveRoot) (js.split_slash p) [])).

Definition last_char (s : string) : option ascii :=
  String.get (String.length s - 1) s.

Definition is_slash (c : option ascii) : bool :=
  match c with Some c => Ascii.eqb c "/" | None => false end.

Definition normalize (p : string) : string :=
  if String.eqb p "" then "."
  else
    let isAbsolute := is_slash (String.get 0 p) in
    let trailingSeparator := is_slash (last_char p) in
    let p1 := normalizeString p (negb isAbsolute) in
    let p2 := if String.eqb p1 "" && negb isAbsolute then "." else p1 in
    let p3 := if negb (String.eqb p2 "") && trailingSeparator
              then p2 +:+ "/" else p2 in
    if isAbsolute then "/" +:+ p3 else p3.

(** [path.join(...args)]: the non-empty arguments, joined by "/" and
    normalized. *)
Definition join (args : list string) : string :=
  match filter (fun a => negb (String.eqb a "")) args with
  | [] => "."
  | joined => normalize (String.concat "/" joined)
  end.

(** The scan of [dirname]: [rev_tl] holds the characters at the indices
    [length - 1] down to [1]; the result is the index [end]. *)
Fixpoint dirname_end (rev_tl : list ascii) (matchedSlash : bool)
  : option nat :=
  match rev_tl with
  | [] => None
  | c :: rest =>
      if Ascii.eqb c "/" then
        if matchedSlash then dirname_end rest true
        else Some (S (length rest))
      else dirname_end rest false
  end.

Definition dirname (p : string) : string :=
  match p with
  | EmptyString => "."
  | String c0 tl =>
      let hasRoot := Ascii.eqb c0 "/" in
      match dirname_end (rev (list_ascii_of_string tl)) true with
      | None => if hasRoot then "/" else "."
      | Some e =>
          if hasRoot && (e =? 1)%nat then "//" else js.slice 0 e p
      end
  end.

(** State of the scanning loops of [basename]; [-1] is the source's
    "not set" value. *)
Record bscan := BScan {
  b_start : Z;
  b_end : Z;
  b_matchedSlash : bool;
  b_firstNonSlashEnd : Z;
  b_extIdx : Z
}.

(** The loop of [basename(path)] without extension, [n = i + 1]. *)
Fixpoint basename_scan (p : string) (n : nat) (st : bscan) : bscan :=
  match n with
  | O => st
  | S i =>
      if is_slash (String.get i p) then
        if negb (b_matchedSlash st)
        then BScan (Z.of_nat i + 1) (b_end st) (b_matchedSlash st)
                   (b_firstNonSlashEnd st) (b_extIdx st)
        else basename_scan p i st
      else if (b_end st =? -1)%Z then
        basename_scan p i
          (BScan (b_start st) (Z.of_nat i + 1) false
                 (b_firstNonSlashEnd st) (b_extIdx st))
      else basename_scan p i st
  end.

(** The loop of [basename(path, ext)], [n = i + 1]. *)
Fixpoint basename_ext_scan (p ext : string) (n : nat) (st : bscan)
  : bscan :=
  match n with
  | O => st
  | S i =>
      let code := String.get i p in
      if is_slash code then
        if negb (b_matchedSlash st)
        then BScan (Z.of_nat i + 1) (b_end st) (b_matchedSlash st)
                   (b_firstNonSlashEnd st) (b_extIdx st)
        else basename_ext_scan p ext i st
      else
        let st1 :=
          if (b_firstNonSlashEnd st =? -1)%Z
          then BScan (b_start st) (b_end st) false (Z.of_nat i + 1)
                     (b_extIdx st)
          else st in
        let st2 :=
          if (0 <=? b_extIdx st1)%Z then
            if decide (code = String.get (Z.to_nat (b_extIdx st1)) ext) then
              let extIdx := (b_extIdx st1 - 1)%Z in
              BScan (b_start st1)
                    (if (extIdx =? -1)%Z then Z.of_nat i else b_end st1)
                    (b_matchedSlash st1) (b_firstNonSlashEnd st1) extIdx
            else
              BScan (b_start st1) (b_firstNonSlashEnd st1)
                    (b_matchedSlash st1) (b_firstNonSlashEnd st1) (-1)
          else st1 in
        basename_ext_scan p ext i st2
  end.

(** [path.basename(p, ext)] *)
Definition basename (p ext : string) : string :=
  let len := String.length p in
  let elen := String.length ext in
  if (0 <? elen)%nat && (elen <=? len)%nat then
    if String.eqb ext p then ""
    else
      let st := basename_ext_scan p ext len
                  (BScan 0 (-1) true (-1) (Z.of_nat elen - 1)) in
      let e := if (b_start st =? b_end st)%Z then b_firstNonSlashEnd st
               else if (b_end st =? -1)%Z then Z.of_nat len
               else b_end st in
      js.slice (Z.to_nat (b_start st)) (Z.to_nat e) p
  else
    let st := basename_scan p len (BScan 0 (-1) true (-1) (-1)) in
    if (b_end st =? -1)%Z then ""
    else js.slice (Z.to_nat (b_start st)) (Z.to_nat (b_end st)) p.

End path.

(* ===================================================================== *)
(** * The syntax tree *)
(* ===================================================================== *)

(** A symbol node: its [name] and the definition [thedef] it was resolved
    to by [figure_out_scope], a reference into the store of definitions
    ([None] when the parser attached none). *)
Record symbol := Symbol { sym_name : string; thedef : option nat }.

(** A definition object; the assembler only ever touches
    [mangled_name]. *)
Record SymbolDef := Def { def_name : string; mangled_name : option string }.

(** The node kinds of the embedding.  [AST_Assign] is a subclass of
    [AST_Binary], and function nodes are scopes, hence blocks, hence
    statements, as in the library's class hierarchy. *)
#[local] Unset Elimination Schemes.
Inductive node : Type :=
  (* blocks *)
  | AST_Toplevel (body : list node)
  | AST_BlockStatement (body : list node)
  | AST_Defun (name : symbol) (argnames : list symbol) (body : list node)
  | AST_Function (name : option symbol) (argnames : list symbol)
                 (body : list node)
  | AST_Switch (expression : node) (body : list node)
  | AST_Case (expression : node) (body : list node)
  | AST_Default (body : list node)
  (* statements with a body *)
  | AST_If (condition : node) (body : node) (alternative : option node)
  | AST_For (init : option node) (condition : option node)
            (step : option node) (body : node)
  | AST_With (expression : node) (body : node)
  (* other statements *)
  | AST_SimpleStatement (body : node)
  | AST_Return (value : option node)
  | AST_Var (definitions : list (symbol * option node))
  (* expressions *)
  | AST_Call (expression : node) (args : list node)
  | AST_Sequence (car : node) (cdr : node)
  | AST_Dot (expression : node) (property : string)
  | AST_UnaryPrefix (operator : string) (expression : node)
  | AST_Binary (operator : string) (left : node) (right : node)
  | AST_Assign (operator : string) (left : node) (right : node)
  | AST_Conditional (condition : node) (consequent : node)
                    (alternative : node)
  | AST_Array (elements : list node)
  | AST_Object (properties : list (string * node))
  | AST_SymbolRef (s : symbol)
  | AST_String (value : string)
  | AST_Number (value : Z)
  | AST_NaN
  | AST_Infinity
  | AST_Undefined
  | AST_True
  | AST_False.
#[local] Set Elimination Schemes.

(** ** Class tests *)

Definition is_Block (n : node) : bool :=
  match n with
  | AST_Toplevel _ | AST_BlockStatement _ | AST_Defun _ _ _
  | AST_Function _ _ _ | AST_Switch _ _ | AST_Case _ _ | AST_Default _ => true
  | _ => false
  end.

Definition is_StatementWithBody (n : node) : bool :=
  match n with
  | AST_If _ _ _ | AST_For _ _ _ _ | AST_With _ _ => true
  | _ => false
  end.

Definition is_Statement (n : node) : bool :=
  is_Block n || is_StatementWithBody n ||
  match n with
  | AST_SimpleStatement _ | AST_Return _ | AST_Var _ => true
  | _ => false
  end.

Definition is_Sequence (n : node) : bool :=
  match n with AST_Sequence _ _ => true | _ => false end.

Definition is_Call (n : node) : bool :=
  match n with AST_Call _ _ => true | _ => false end.

(** The fields of a binary node, for [AST_Binary] and its subclass. *)
Definition as_Binary (n : node) : option (string * node * node) :=
  match n with
  | AST_Binary op l r | AST_Assign op l r => Some (op, l, r)
  | _ => None
  end.

(** ** The fields [replaceInBlock] reads and writes *)

Inductive field := Body | Alternative.

(** The value of [node[field]]: an array of nodes, a node, or
    null/undefined. *)
Inductive field_value :=
  | FArray (l : list node)
  | FNode (n : node)
  | FNull.

Definition get_field (n : node) (f : field) : field_value :=
  match f, n with
  | Body, AST_Toplevel b | Body, AST_BlockStatement b
  | Body, AST_Defun _ _ b | Body, AST_Function _ _ b
  | Body, AST_Switch _ b | Body, AST_Case _ b | Body, AST_Default b =>
      FArray b
  | Body, AST_If _ b _ | Body, AST_For _ _ _ b | Body, AST_With _ b
  | Body, AST_SimpleStatement b => FNode b
  | Alternative, AST_If _ _ (Some a) => FNode a
  | Alternative, AST_Conditional _ _ a => FNode a
  | _, _ => FNull
  end.

(** [node[field] = v] for a node; [body] is the array that was spliced in
    place when the field holds an array. *)
Definition set_field_node (n : node) (f : field) (v : node) : node :=
  match f, n with
  | Body, AST_If c _ a => AST_If c v a
  | Body, AST_For i c s _ => AST_For i c s v
  | Body, AST_With e _ => AST_With e v
  | Body, AST_SimpleStatement _ => AST_SimpleStatement v
  | Alternative, AST_If c b _ => AST_If c b (Some v)
  | Alternative, AST_Conditional c x _ => AST_Conditional c x v
  | _, _ => n
  end.

Definition set_field_array (n : node) (f : field) (v : list node) : node :=
  match f, n with
  | Body, AST_Toplevel _ => AST_Toplevel v
  | Body, AST_BlockStatement _ => AST_BlockStatement v
  | Body, AST_Defun nm a _ => AST_Defun nm a v
  | Body, AST_Function nm a _ => AST_Function nm a v
  | Body, AST_Switch e _ => AST_Switch e v
  | Body, AST_Case e _ => AST_Case e v
  | Body, AST_Default _ => AST_Default v
  | _, _ => n
  end.

(* ===================================================================== *)
(** * Results of effectful code *)
(* ===================================================================== *)

Inductive error :=
  | AssertionError (message : string)
  | TypeError.

Inductive result (A : Type) :=
  | Ok (a : A)
  | Throw (e : error).
Arguments Ok {A} a.
Arguments Throw {A} e.

#[global] Instance result_bind : MBind result := λ A B k r,
  match r with
  | Ok a => k a
  | Throw e => Throw e
  end.
#[global] Instance result_ret : MRet result := @Ok.

(* ===================================================================== *)
(** * Module name resolver: [extractModuleNames] *)
(* ===================================================================== *)

(** The module function of a module-map entry. *)
Record ModuleFunction := MkFunction {
  fn_name : option symbol;
  fn_argnames : list symbol;
  fn_body : list node
}.

(** One property of the module map: [key] is the module id,
    [value.elements[0]] the module function and [value.elements[1]] the
    require map, whose properties are the pairs ([prop.key],
    [prop.value.value]). *)
Record ObjectProperty := MkProperty {
  key : string;
  moduleFunction : ModuleFunction;
  requireMapping : list (string * string)
}.

(** The state of the resolver: the name table and the lines written by
    [console.warn]. *)
Record resolver_state := MkResolver {
  moduleNames : gmap string string;
  warnings : list string
}.

(** The name a require-map property proposes for its target, computed in
    the module named [moduleName]. *)
Definition candidate (moduleName name : string) : string :=
  if js.startsWith "." name
  then path.join [path.dirname moduleName; name]
  else path.join ["node_modules"; name; "index"].

(** The three lines written on a conflict. *)
Definition conflict_warning (id existing name : string) : list string :=
  ["More than one name found for module " +:+ id +:+ ":";
   "    " +:+ existing;
   "    " +:+ name].

(** The callback of [requireMapping.properties.forEach]: [moduleId] is the
    id of the module being processed; [moduleName], its name, is a
    variable of the enclosing loop body that the callback may update. *)
Definition visit_require (moduleId : string)
    (acc : resolver_state * string) (prop : string * string)
  : resolver_state * string :=
  let '(st, moduleName) := acc in
  let id := snd prop in
  let name := candidate moduleName (fst prop) in
  if negb (js.truthy (moduleNames st !! id)) then
    (MkResolver (<[id := name]> (moduleNames st)) (warnings st), moduleName)
  else
    let existing := default "" (moduleNames st !! id) in
    if negb (String.eqb (js.toLowerCase existing) (js.toLowerCase name)) then
      if (String.length existing <=? String.length name)%nat then
        (MkResolver (moduleNames st)
           (warnings st ++ conflict_warning id existing name),
         moduleName)
      else
        let moduleName' := moduleName +:+ "/index" in
        (MkResolver (<[moduleId := moduleName']> (moduleNames st))
           (warnings st), moduleName')
    else acc.

(** One iteration of [while (properties.length)]: [None] when the loop
    condition fails. *)
Definition step (s : list ObjectProperty * resolver_state)
  : option (list ObjectProperty * resolver_state) :=
  let '(properties, st) := s in
  match properties with
  | [] => None
  | objectProperty :: properties' =>
      let moduleId := key objectProperty in
      if negb (js.truthy (moduleNames st !! moduleId)) then
        Some (properties' ++ [objectProperty], st)
      else
        let moduleName := default "" (moduleNames st !! moduleId) in
        Some (properties',
              fst (fold_left (visit_require moduleId)
                     (requireMapping objectProperty) (st, moduleName)))
  end.

(** The loop, run for at most [fuel] iterations; [None] when the loop is
    still running after them. *)
Fixpoint loop (fuel : nat) (s : list ObjectProperty * resolver_state)
  : option resolver_state :=
  match step s with
  | None => Some (snd s)
  | Some s' =>
      match fuel with
      | O => None
      | S fuel' => loop fuel' s'
      end
  end.

(** The seeding of the name table from the entry ids. *)
Definition seed (main : list string) : gmap string string :=
  fold_left (fun names element => <[element := "browser"]> names) main ∅.

Definition extractModuleNames (fuel : nat)
    (moduleObject : list ObjectProperty) (main : list string)
  : option resolver_state :=
  loop fuel (moduleObject, MkResolver (seed main) []).


(* ===================================================================== *)
(** * Tree walkers *)
(* ===================================================================== *)

Section TreeWalker.
Context {S : Type}.

(** The walker over the fields that hold several nodes or none. *)
Definition walk_all (w : node → S → result S)
  : list node → S → result S :=
  fix go (l : list node) (s : S) : result S :=
    match l with
    | [] => Ok s
    | x :: l' => s' ← w x s; go l' s'
    end.

Definition walk_opt (w : node → S → result S) (o : option node) (s : S)
  : result S :=
  match o with
  | Some x => w x s
  | None => Ok s
  end.

Definition walk_definitions (w : node → S → result S)
  : list (symbol * option node) → S → result S :=
  fix go (l : list (symbol * option node)) (s : S) : result S :=
    match l with
    | [] => Ok s
    | sv :: l' => s' ← walk_opt w (snd sv) s; go l' s'
    end.

Definition walk_properties (w : node → S → result S)
  : list (string * node) → S → result S :=
  fix go (l : list (string * node)) (s : S) : result S :=
    match l with
    | [] => Ok s
    | kv :: l' => s' ← w (snd kv) s; go l' s'
    end.

(** The visitor: it may throw, update the state it closes over, and
    return [true] to keep the walker out of the node's children. *)
Variable visit : node → S → result (bool * S).

(** [node.walk(new TreeWalker(visit))]: the visitor runs on the node,
    then the walker descends into the children, in the order of each
    class's [_walk]. *)
Fixpoint walk (n : node) (s : S) {struct n} : result S :=
  '(stop, s) ← visit n s;
  if (stop : bool) then Ok s
  else
    match n with
    | AST_Toplevel b | AST_BlockStatement b | AST_Defun _ _ b
    | AST_Function _ _ b | AST_Default b => walk_all walk b s
    | AST_Switch e b | AST_Case e b => s ← walk e s; walk_all walk b s
    | AST_If c b a => s ← walk c s; s ← walk b s; walk_opt walk a s
    | AST_For i c st b =>
        s ← walk_opt walk i s; s ← walk_opt walk c s;
        s ← walk_opt walk st s; walk b s
    | AST_With e b => s ← walk e s; walk b s
    | AST_SimpleStatement b => walk b s
    | AST_Return v => walk_opt walk v s
    | AST_Var ds => walk_definitions walk ds s
    | AST_Call e a => s ← walk_all walk a s; walk e s
    | AST_Sequence x y => s ← walk x s; walk y s
    | AST_Dot e _ | AST_UnaryPrefix _ e => walk e s
    | AST_Binary _ l r | AST_Assign _ l r => s ← walk l s; walk r s
    | AST_Conditional c x y => s ← walk c s; s ← walk x s; walk y s
    | AST_Array l => walk_all walk l s
    | AST_Object ps => walk_properties walk ps s
    | AST_SymbolRef _ | AST_String _ | AST_Number _ | AST_NaN
    | AST_Infinity | AST_Undefined | AST_True | AST_False => Ok s
    end.
End TreeWalker.

(* ===================================================================== *)
(** * Kernel matcher: [findMainFunction] *)
(* ===================================================================== *)

(** The visitor of [findMainFunction]; the state is the variable
    [mainFunctionCall]. *)
Definition main_visitor (n : node) (mainFunctionCall : option node)
  : result (bool * option node) :=
  if is_Call n then
    match mainFunctionCall with
    | None => Ok (true, Some n)
    | Some _ => Throw (AssertionError "More than one top-level function found.")
    end
  else Ok (false, mainFunctionCall).

Definition findMainFunction (ast : node) : result (option node) :=
  walk main_visitor ast None.

(* ===================================================================== *)
(** * Module assembler: [extractModules] *)
(* ===================================================================== *)

(** The definition objects: [next_def] is the next unused reference and
    [mangled] holds the [mangled_name] of the definitions that have
    one. *)
Record defs := MkDefs {
  next_def : nat;
  mangled : gmap nat string
}.

Definition argNames : list string :=
  ["require"; "module"; "exports"; "moduleSource"; "loadedModules"; "mainIds"].

(** The callback of [moduleFunction.argnames.forEach], at index [i]. *)
Definition rename_argument (i : nat) (d : defs) (arg : symbol)
  : defs * symbol :=
  if decide (Some (sym_name arg) = argNames !! i) then (d, arg)
  else
    let '(d1, ref) :=
      match thedef arg with
      | Some r => (d, r)
      | None => (MkDefs (S (next_def d)) (mangled d), next_def d)
      end in
    (MkDefs (next_def d1)
            (match argNames !! i with
             | Some canonical => <[ref := canonical]> (mangled d1)
             | None => delete ref (mangled d1)
             end),
     Symbol (sym_name arg) (Some ref)).

Fixpoint rename_arguments_from (i : nat) (d : defs) (args : list symbol)
  : defs * list symbol :=
  match args with
  | [] => (d, [])
  | arg :: rest =>
      let '(d1, arg') := rename_argument i d arg in
      let '(d2, rest') := rename_arguments_from (S i) d1 rest in
      (d2, arg' :: rest')
  end.

Definition renameArguments (d : defs) (f : ModuleFunction)
  : defs * ModuleFunction :=
  let '(d', args) := rename_arguments_from 0 d (fn_argnames f) in
  (d', MkFunction (fn_name f) args (fn_body f)).

(** ** Indexing the array [mapping] with a string *)

(** The members of [Array.prototype] (ES2017), inherited ones
    included. *)
Definition Array_prototype_methods : list string :=
  ["concat"; "copyWithin"; "entries"; "every"; "fill"; "filter"; "find";
   "findIndex"; "forEach"; "includes"; "indexOf"; "join"; "keys";
   "lastIndexOf"; "map"; "pop"; "push"; "reduce"; "reduceRight"; "reverse";
   "shift"; "slice"; "some"; "sort"; "splice"; "toLocaleString"; "toString";
   "unshift"; "values"; "hasOwnProperty"; "isPrototypeOf";
   "propertyIsEnumerable"; "valueOf"; "__defineGetter__"; "__defineSetter__";
   "__lookupGetter__"; "__lookupSetter__"].

(** What [mapping[name]] evaluates to. *)
Inductive array_member :=
  | Undefined
  | Element (rKey : string) (name : option string)
  | Length (n : nat)
  | Method (name : string)
  | Constructor
  | Proto.

Definition array_get (mapping : list (string * option string))
    (name : string) : array_member :=
  match list_find (λ i, String.eqb (pretty i) name = true)
                  (seq 0 (length mapping)) with
  | Some (_, i) =>
      match mapping !! i with
      | Some (rKey, v) => Element rKey v
      | None => Undefined
      end
  | None =>
      if String.eqb name "length" then Length (length mapping)
      else if String.eqb name "constructor" then Constructor
      else if String.eqb name "__proto__" then Proto
      else if existsb (String.eqb name) Array_prototype_methods
      then Method name
      else Undefined
  end.

Definition member_truthy (v : array_member) : bool :=
  match v with
  | Undefined => false
  | Length n => negb (n =? 0)%nat
  | _ => true
  end.

(** The string a member contributes to a concatenation. *)
Definition member_to_string (v : array_member) : string :=
  match v with
  | Undefined => "undefined"
  | Element rKey v => rKey +:+ "," +:+ default "" v
  | Length n => pretty n
  | Method name => "function " +:+ name +:+ "() { [native code] }"
  | Constructor => "function Array() { [native code] }"
  | Proto => ""
  end.

(** ** [updateRequires] *)

(** The test on the callee of a call. *)
Definition is_require (d : defs) (expression : node) : bool :=
  match expression with
  | AST_SymbolRef s =>
      String.eqb (sym_name s) "require" ||
      match thedef s with
      | Some r =>
          match mangled d !! r with
          | Some m => String.eqb m "require"
          | None => false
          end
      | None => false
      end
  | _ => false
  end.

(** The new value of a matched call's argument. *)
Definition require_argument (mapping : list (string * option string))
    (value : string) : string :=
  let name := path.basename value ".js" in
  if member_truthy (array_get mapping name)
  then "./" +:+ member_to_string (array_get mapping name) +:+ ".js"
  else value.

(** The walk of [updateRequires]: at a matched call the visitor rewrites
    the value of the only argument; the walker then descends into the
    children, where a symbol reference and a string have none. *)
Fixpoint update_requires_walk (d : defs)
    (mapping : list (string * option string)) (n : node) {struct n}
  : node :=
  let go := update_requires_walk d mapping in
  let go_opt := fun (o : option node) => go <$> o in
  match n with
  | AST_Call e a =>
      match a with
      | [AST_String value] =>
          if is_require d e
          then AST_Call (go e) [AST_String (require_argument mapping value)]
          else AST_Call (go e) (map go a)
      | _ => AST_Call (go e) (map go a)
      end
  | AST_Toplevel b => AST_Toplevel (map go b)
  | AST_BlockStatement b => AST_BlockStatement (map go b)
  | AST_Defun nm a b => AST_Defun nm a (map go b)
  | AST_Function nm a b => AST_Function nm a (map go b)
  | AST_Switch e b => AST_Switch (go e) (map go b)
  | AST_Case e b => AST_Case (go e) (map go b)
  | AST_Default b => AST_Default (map go b)
  | AST_If c b a => AST_If (go c) (go b) (go_opt a)
  | AST_For i c st b => AST_For (go_opt i) (go_opt c) (go_opt st) (go b)
  | AST_With e b => AST_With (go e) (go b)
  | AST_SimpleStatement b => AST_SimpleStatement (go b)
  | AST_Return v => AST_Return (go_opt v)
  | AST_Var defs =>
      AST_Var (map (λ sv, (fst sv, go_opt (snd sv))) defs)
  | AST_Sequence x y => AST_Sequence (go x) (go y)
  | AST_Dot e p => AST_Dot (go e) p
  | AST_UnaryPrefix op e => AST_UnaryPrefix op (go e)
  | AST_Binary op l r => AST_Binary op (go l) (go r)
  | AST_Assign op l r => AST_Assign op (go l) (go r)
  | AST_Conditional c x y => AST_Conditional (go c) (go x) (go y)
  | AST_Array l => AST_Array (map go l)
  | AST_Object ps => AST_Object (map (λ kv, (fst kv, go (snd kv))) ps)
  | AST_SymbolRef _ | AST_String _ | AST_Number _ | AST_NaN
  | AST_Infinity | AST_Undefined | AST_True | AST_False => n
  end.

Definition updateRequires (d : defs) (f : ModuleFunction)
    (mapping : list (string * option string)) : ModuleFunction :=
  MkFunction (fn_name f) (fn_argnames f)
             (map (update_requires_walk d mapping) (fn_body f)).

(** ** [extractModules] *)

(** One element of [moduleProperties]. *)
Record ModuleProperty := MkModule {
  moduleName : option string;
  mp_moduleFunction : ModuleFunction;
  moduleMapping : list (string * option string)
}.

(** What the assembler updates: the object [modules], the definition
    objects and the global set [dependencies]. *)
Record assembly := MkAssembly {
  modules : gmap string node;
  definitions : defs;
  dependencies : gset string
}.

(** A value used as a property key. *)
Definition property_key (v : option string) : string := default "undefined" v.

(** [module.body] of a program tree. *)
Definition toplevel_body (n : node) : list node :=
  match n with
  | AST_Toplevel b => b
  | _ => []
  end.

(** [array.filter(f)] for a callback that may throw and updates a
    state. *)
Fixpoint filter_with {A S : Type} (f : S → A → result (bool * S))
    (s : S) (l : list A) : result (list A * S) :=
  match l with
  | [] => Ok ([], s)
  | x :: l' =>
      '(keep, s1) ← f s x;
      '(kept, s2) ← filter_with f s1 l';
      Ok (if (keep : bool) then x :: kept else kept, s2)
  end.

Section Assembler.
(** The predicate of the package [is-builtin-module]. *)
Variable isBuiltinModule : string → bool.

(** [isNotBuiltinModule], called with [this] bound to the name table. *)
Definition isNotBuiltinModule (this : gmap string string)
    (objectProperty : ObjectProperty) : result bool :=
  match this !! key objectProperty with
  | None => Throw TypeError
  | Some name =>
      let path := js.split_slash name in
      Ok (negb (bool_decide (path !! 0%nat = Some "node_modules") &&
                js.truthy (path !! 1%nat) &&
                isBuiltinModule (default "" (path !! 1%nat))))
  end.

(** [isNotPublishedDependency]; it records the package in
    [dependencies]. *)
Definition isNotPublishedDependency (this : gmap string string)
    (deps : gset string) (objectProperty : ObjectProperty)
  : result (bool * gset string) :=
  match this !! key objectProperty with
  | None => Throw TypeError
  | Some name =>
      let path := js.split_slash name in
      if bool_decide (path !! 0%nat = Some "node_modules") then
        match path !! 1%nat with
        | None => Throw TypeError
        | Some name1 =>
            let name2 :=
              if bool_decide (String.get 0 name1 = Some "@"%char) &&
                 js.truthy (path !! 2%nat)
              then name1 +:+ "/" +:+ default "" (path !! 2%nat)
              else name1 in
            if String.eqb name2 (js.toLowerCase name2)
            then Ok (false, {[name2]} ∪ deps)
            else Ok (true, deps)
        end
      else Ok (true, deps)
  end.

(** The callback of [.map(...)]. *)
Definition module_property (moduleNames : gmap string string)
    (objectProperty : ObjectProperty) : ModuleProperty :=
  MkModule (moduleNames !! key objectProperty)
           (moduleFunction objectProperty)
           (map (λ kv, (path.basename (fst kv) ".js", moduleNames !! snd kv))
                (requireMapping objectProperty)).

(** The callback of [resolvedModuleProperties.forEach]. *)
Definition assemble_module (a : assembly) (m : ModuleProperty) : assembly :=
  let name := property_key (moduleName m) in
  let module := default (AST_Toplevel []) (modules a !! name) in
  let '(d, f) := renameArguments (definitions a) (mp_moduleFunction m) in
  let f' := updateRequires d f (moduleMapping m) in
  MkAssembly
    (<[name := AST_Toplevel (toplevel_body module ++ fn_body f')]> (modules a))
    d (dependencies a).

Definition extractModules (d : defs) (deps : gset string)
    (moduleObject : list ObjectProperty) (moduleNames : gmap string string)
  : result assembly :=
  '(kept1, _) ← filter_with
      (λ (_ : unit) p, keep ← isNotBuiltinModule moduleNames p; Ok (keep, tt))
      tt moduleObject;
  '(kept2, deps') ← filter_with (isNotPublishedDependency moduleNames)
      deps kept1;
  let moduleProperties := map (module_property moduleNames) kept2 in
  Ok (fold_left assemble_module moduleProperties
        (MkAssembly {["browser" := AST_Toplevel []]} d deps')).
End Assembler.

(* ===================================================================== *)
(** * The normalizer: [decompress] *)
(* ===================================================================== *)

Record options := MkOptions {
  constants : bool;
  sequences : bool;
  conditionals : bool
}.

Definition defaultOptions : options := MkOptions true true true.

Definition asStatement (n : node) : node :=
  if is_Statement n then n else AST_SimpleStatement n.

(** The [while] loop of [replaceInBlock] from the index [i] on, [body]
    being the part of the array at and after [i]: the nodes [replace]
    returns take the place of [body[i]] and are looked at again. *)
Fixpoint replace_loop (fuel : nat) (replace : node → option (list node))
    (body : list node) : option (list node) :=
  match body with
  | [] => Some []
  | child :: rest =>
      match fuel with
      | O => None
      | S fuel' =>
          match replace child with
          | Some newNodes => replace_loop fuel' replace (newNodes ++ rest)
          | None => cons child <$> replace_loop fuel' replace rest
          end
      end
  end.

Definition replaceInBlock (fuel : nat) (n : node) (f : field)
    (replace : node → option (list node)) : option node :=
  match get_field n f with
  | FNull => Some n
  | FArray body =>
      body' ← replace_loop fuel replace body;
      Some (set_field_array n f body')
  | FNode single =>
      body' ← replace_loop fuel replace [single];
      Some (set_field_node n f
              match body' with
              | [b] => b
              | _ => AST_BlockStatement body'
              end)
  end.

(** The first definition whose value is a comma expression, with its
    value replaced by the [cdr]. *)
Fixpoint split_definition (ds : list (symbol * option node))
  : option (node * list (symbol * option node)) :=
  match ds with
  | [] => None
  | (s, Some (AST_Sequence car cdr)) :: rest =>
      Some (car, (s, Some cdr) :: rest)
  | d :: rest =>
      '(car, rest') ← split_definition rest;
      Some (car, d :: rest')
  end.

(** The callback [removeSequences] passes to [replaceInBlock]. *)
Definition remove_sequence (child : node) : option (list node) :=
  match child with
  | AST_Var ds =>
      '(car, ds') ← split_definition ds;
      Some [AST_SimpleStatement car; AST_Var ds']
  | AST_SimpleStatement (AST_Assign op l (AST_Sequence car cdr)) =>
      Some [AST_SimpleStatement car; AST_SimpleStatement (AST_Assign op l cdr)]
  | AST_Return (Some (AST_Sequence car cdr)) =>
      Some [AST_SimpleStatement car; AST_Return (Some cdr)]
  | AST_SimpleStatement (AST_Sequence car cdr) =>
      Some [AST_SimpleStatement car; AST_SimpleStatement cdr]
  | AST_If (AST_Sequence car cdr) b a =>
      Some [AST_SimpleStatement car; AST_If cdr b a]
  | AST_For (Some (AST_Sequence car cdr)) c s b =>
      Some [AST_SimpleStatement car; AST_For (Some cdr) c s b]
  | AST_With (AST_Sequence car cdr) b =>
      Some [AST_SimpleStatement car; AST_With cdr b]
  | AST_Switch (AST_Sequence car cdr) b =>
      Some [AST_SimpleStatement car; AST_Switch cdr b]
  | _ => None
  end.

Definition removeSequences (fuel : nat) (n : node) (f : field)
  : option node :=
  replaceInBlock fuel n f remove_sequence.

(** The callback of the rule [return void a(); => a(); return;]. *)
Definition void_return (child : node) : option (list node) :=
  match child with
  | AST_Return (Some (AST_UnaryPrefix op e)) =>
      if String.eqb op "void"
      then Some [AST_SimpleStatement e; AST_Return None]
      else None
  | _ => None
  end.

(** What [transformBefore] hands back to the transformer: a node that
    replaces the visited one, or [undefined], in which case the
    transformer descends into the visited node as the call left it. *)
Inductive before :=
  | Replace (n : node)
  | Descend (n : node).

(** The rules on literals. *)
Definition fold_constant (n : node) : option node :=
  match n with
  | AST_Binary op (AST_Number l) (AST_Number r)
  | AST_Assign op (AST_Number l) (AST_Number r) =>
      if String.eqb op "/" && (l =? 0)%Z && (r =? 0)%Z then Some AST_NaN
      else if String.eqb op "/" && (l =? 1)%Z && (r =? 0)%Z
      then Some AST_Infinity
      else None
  | AST_UnaryPrefix op (AST_Number v) =>
      if String.eqb op "!" then
        if (v =? 0)%Z then Some AST_True
        else if (v =? 1)%Z then Some AST_False
        else None
      else None
  | _ => None
  end.

(** The block [if (this.options.sequences)]. *)
Definition split_sequences (fuel : nat) (n : node) : option node :=
  if is_Block n then removeSequences fuel n Body
  else if is_StatementWithBody n then
    n1 ← removeSequences fuel n Body;
    match n1 with
    | AST_If _ _ _ => removeSequences fuel n1 Alternative
    | _ => Some n1
    end
  else Some n.

(** The block [if (this.options.conditionals)]; [tw] is [this], the
    transformer, and [tw n] is [n.transform(this)].  Every node handed to
    [tw] here is an [AST_If], for which [transformBefore] returns
    [undefined]: the transformer updates it in place, and the updated
    node is what the rule returns. *)
Definition to_conditional (tw : node → option node) (fuel : nat) (n : node)
  : option before :=
  let void_returns :=
    if is_Block n || is_StatementWithBody n
    then Descend <$> replaceInBlock fuel n Body void_return
    else Some (Descend n) in
  match n with
  | AST_SimpleStatement body =>
      match as_Binary body with
      | Some (op, l, r) =>
          if String.eqb op "&&" then
            Replace <$> tw (AST_If l (asStatement r) None)
          else if String.eqb op "||" then
            Replace <$> tw (AST_If (AST_UnaryPrefix "!" l) (asStatement r) None)
          else void_returns
      | None =>
          match body with
          | AST_Conditional c x y =>
              Replace <$> tw (AST_If c (asStatement x) (Some (asStatement y)))
          | _ => void_returns
          end
      end
  | AST_Return (Some (AST_Conditional c x y)) =>
      Replace <$> tw (AST_If c (AST_Return (Some x)) (Some (AST_Return (Some y))))
  | _ => void_returns
  end.

Definition transformBefore (this_options : options)
    (tw : node → option node) (fuel : nat) (n : node) : option before :=
  match (if constants this_options then fold_constant n else None) with
  | Some literal => Some (Replace literal)
  | None =>
      n1 ← (if sequences this_options then split_sequences fuel n else Some n);
      if conditionals this_options then to_conditional tw fuel n1
      else Some (Descend n1)
  end.

(** The transformer over the fields that hold a node or none, the
    definitions of a [var] and the properties of an object literal. *)
Definition transform_opt (tw : node → option node) (o : option node)
  : option (option node) :=
  match o with
  | Some x => Some <$> tw x
  | None => Some None
  end.

Definition transform_definitions (tw : node → option node)
    (ds : list (symbol * option node))
  : option (list (symbol * option node)) :=
  mapM (λ sv, pair (fst sv) <$> transform_opt tw (snd sv)) ds.

Definition transform_properties (tw : node → option node)
    (ps : list (string * node)) : option (list (string * node)) :=
  mapM (λ kv, pair (fst kv) <$> tw (snd kv)) ps.

(** The descent of the transformer: every child is replaced by its
    transform. *)
Definition descend (tw : node → option node) (n : node) : option node :=
  match n with
  | AST_Toplevel b => AST_Toplevel <$> mapM tw b
  | AST_BlockStatement b => AST_BlockStatement <$> mapM tw b
  | AST_Defun nm a b => AST_Defun nm a <$> mapM tw b
  | AST_Function nm a b => AST_Function nm a <$> mapM tw b
  | AST_Switch e b => e' ← tw e; AST_Switch e' <$> mapM tw b
  | AST_Case e b => e' ← tw e; AST_Case e' <$> mapM tw b
  | AST_Default b => AST_Default <$> mapM tw b
  | AST_If c b a =>
      c' ← tw c; b' ← tw b; AST_If c' b' <$> transform_opt tw a
  | AST_For i c s b =>
      i' ← transform_opt tw i; c' ← transform_opt tw c;
      s' ← transform_opt tw s; AST_For i' c' s' <$> tw b
  | AST_With e b => e' ← tw e; AST_With e' <$> tw b
  | AST_SimpleStatement b => AST_SimpleStatement <$> tw b
  | AST_Return v => AST_Return <$> transform_opt tw v
  | AST_Var ds => AST_Var <$> transform_definitions tw ds
  | AST_Call e a => e' ← tw e; AST_Call e' <$> mapM tw a
  | AST_Sequence x y => x' ← tw x; AST_Sequence x' <$> tw y
  | AST_Dot e p => e' ← tw e; Some (AST_Dot e' p)
  | AST_UnaryPrefix op e => AST_UnaryPrefix op <$> tw e
  | AST_Binary op l r => l' ← tw l; AST_Binary op l' <$> tw r
  | AST_Assign op l r => l' ← tw l; AST_Assign op l' <$> tw r
  | AST_Conditional c x y =>
      c' ← tw c; x' ← tw x; AST_Conditional c' x' <$> tw y
  | AST_Array l => AST_Array <$> mapM tw l
  | AST_Object ps => AST_Object <$> transform_properties tw ps
  | AST_SymbolRef _ | AST_String _ | AST_Number _ | AST_NaN
  | AST_Infinity | AST_Undefined | AST_True | AST_False => Some n
  end.

(** [node.transform(tw)] for the transformer built from
    [transformBefore]; [None] when [fuel] does not suffice. *)
Fixpoint transform (this_options : options) (fuel : nat) (n : node)
  : option node :=
  match fuel with
  | O => None
  | S fuel' =>
      let tw := transform this_options fuel' in
      x ← transformBefore this_options tw fuel' n;
      match x with
      | Replace x => Some x
      | Descend n' => descend tw n'
      end
  end.


(** ** Fuel for the transformer *)

(** A measure that every rule decreases and under which the children of a
    node are smaller than the node. *)
Fixpoint weight (n : node) : nat :=
  let weights := fun l => list_sum (map weight l) in
  let weight_opt := fun (o : option node) =>
    match o with
    | Some x => weight x
    | None => 0
    end in
  match n with
  | AST_Toplevel b | AST_BlockStatement b | AST_Defun _ _ b
  | AST_Function _ _ b | AST_Default b => 1 + weights b
  | AST_Switch e b | AST_Case e b => 1 + weight e + weights b
  | AST_If c b a => 1 + weight c + weight b + weight_opt a
  | AST_For i c s b =>
      1 + weight_opt i + weight_opt c + weight_opt s + weight b
  | AST_With e b => 1 + weight e + weight b
  | AST_SimpleStatement b => 1 + weight b
  | AST_Return v => 1 + weight_opt v
  | AST_Var ds => 1 + list_sum (map (λ sv, 1 + weight_opt (snd sv)) ds)
  | AST_Call e a => 1 + weight e + weights a
  | AST_Sequence x y => 3 + weight x + weight y
  | AST_Dot e _ => 1 + weight e
  | AST_UnaryPrefix _ e => 3 + weight e
  | AST_Binary _ l r | AST_Assign _ l r => 5 + weight l + weight r
  | AST_Conditional c x y => 3 + weight c + weight x + weight y
  | AST_Array l => 1 + weights l
  | AST_Object ps => 1 + list_sum (map (λ kv, weight (snd kv)) ps)
  | AST_SymbolRef _ | AST_String _ | AST_Number _ | AST_NaN
  | AST_Infinity | AST_Undefined | AST_True | AST_False => 1
  end.

(** The options object a caller may pass; a key it leaves out is
    [undefined]. *)
Record user_options := MkUserOptions {
  user_constants : option bool;
  user_sequences : option bool;
  user_conditionals : option bool
}.

(** [_.defaults({}, userOptions, defaultOptions)] *)
Definition defaults (userOptions : option user_options) : options :=
  match userOptions with
  | None => defaultOptions
  | Some u =>
      MkOptions (default (constants defaultOptions) (user_constants u))
                (default (sequences defaultOptions) (user_sequences u))
                (default (conditionals defaultOptions) (user_conditionals u))
  end.

(** [decompress(node, userOptions)]: the tree as the transformer leaves
    it.  The fuel is enough for every tree ([decompress_total]). *)
Definition decompress (n : node) (userOptions : option user_options)
  : option node :=
  transform (defaults userOptions) (S (weight n)) n.

(* ===================================================================== *)
(** * Printing: [outputCode] *)
(* ===================================================================== *)

(** The text [print_to_string] gives with the options of the source
    (beautified, braces on every body), for the statements and
    expressions below; [None] for a tree outside them, among others one
    that needs parentheses. *)

Definition newline : string := String (ascii_of_nat 10) EmptyString.

Fixpoint spaces (k : nat) : string :=
  match k with
  | O => EmptyString
  | S k' => String " " (spaces k')
  end.

(** The name a symbol is printed with: the mangled name of its
    definition when there is one. *)
Definition display (d : defs) (s : symbol) : string :=
  match thedef s with
  | Some r => default (sym_name s) (mangled d !! r)
  | None => sym_name s
  end.

(** [f <$> mapM ...] with the results joined by [sep]. *)
Definition join_with {A} (sep : string) (f : A → option string)
    (l : list A) : option string :=
  String.concat sep <$> mapM f l.

(** A string literal that needs no escape. *)
Definition plain_string (s : string) : bool :=
  forallb (λ c, let k := nat_of_ascii c in
                (32 <=? k)%nat && (k <? 127)%nat &&
                negb (k =? 34)%nat && negb (k =? 92)%nat)
          (list_ascii_of_string s).

(** An operand that is printed without parentheses wherever it stands. *)
Definition is_primary (n : node) : bool :=
  match n with
  | AST_SymbolRef _ | AST_Number _ | AST_String _ | AST_True | AST_False
  | AST_Call _ _ | AST_Dot _ _ => true
  | _ => false
  end.

Definition is_callee (n : node) : bool :=
  match n with
  | AST_SymbolRef _ | AST_Call _ _ | AST_Dot _ _ => true
  | _ => false
  end.

Definition is_alphabetic (op : string) : bool :=
  match op with
  | String c _ => let k := nat_of_ascii c in (97 <=? k)%nat && (k <=? 122)%nat
  | EmptyString => false
  end.

Fixpoint print_expression (d : defs) (n : node) : option string :=
  let guard := fun (b : bool) (r : option string) => if b then r else None in
  match n with
  | AST_SymbolRef s => Some (display d s)
  | AST_Number v => guard (0 <=? v)%Z (Some (pretty v))
  | AST_String v =>
      guard (plain_string v)
            (Some (String (ascii_of_nat 34) v +:+
                   String (ascii_of_nat 34) EmptyString))
  | AST_True => Some "true"
  | AST_False => Some "false"
  | AST_Call e a =>
      guard (is_callee e && forallb (λ x, negb (is_Sequence x)) a)
        (e' ← print_expression d e;
         a' ← join_with ", " (print_expression d) a;
         Some (e' +:+ "(" +:+ a' +:+ ")"))
  | AST_Dot e p =>
      guard (is_callee e)
        (e' ← print_expression d e; Some (e' +:+ "." +:+ p))
  | AST_UnaryPrefix op e =>
      guard (is_callee e)
        (e' ← print_expression d e;
         Some (op +:+ (if is_alphabetic op then " " else "") +:+ e'))
  | AST_Binary op l r =>
      guard (is_primary l && is_primary r)
        (l' ← print_expression d l; r' ← print_expression d r;
         Some (l' +:+ " " +:+ op +:+ " " +:+ r'))
  | AST_Assign op l r =>
      guard (is_callee l && negb (is_Sequence r))
        (l' ← print_expression d l; r' ← print_expression d r;
         Some (l' +:+ " " +:+ op +:+ " " +:+ r'))
  | AST_Conditional c x y =>
      guard ((is_primary c || match c with AST_Binary _ _ _ => true
                                         | _ => false end) &&
             negb (is_Sequence x) && negb (is_Sequence y))
        (c' ← print_expression d c; x' ← print_expression d x;
         y' ← print_expression d y;
         Some (c' +:+ " ? " +:+ x' +:+ " : " +:+ y'))
  | AST_Sequence x y =>
      x' ← print_expression d x; y' ← print_expression d y;
      Some (x' +:+ ", " +:+ y')
  | _ => None
  end.

(** One definition of a [var]. *)
Definition print_definition (d : defs) (sv : symbol * option node)
  : option string :=
  match snd sv with
  | None => Some (display d (fst sv))
  | Some v =>
      if is_Sequence v then None
      else v' ← print_expression d v; Some (display d (fst sv) +:+ " = " +:+ v')
  end.

(** The override of [AST_Definitions.prototype._do_print]: in the head of
    a [for] the definitions stay on one line; elsewhere every definition
    after the first goes on a line of its own, four columns in. *)
Definition print_definitions (d : defs) (kind : string) (inFor : bool)
    (indentation : nat) (ds : list (symbol * option node)) : option string :=
  if inFor then
    ds' ← join_with ", " (print_definition d) ds;
    Some (kind +:+ " " +:+ ds')
  else
    ds' ← join_with ("," +:+ newline +:+ spaces (indentation + 4))
                    (print_definition d) ds;
    Some (kind +:+ " " +:+ ds' +:+ ";").

(** A statement, printed at the column [indentation]. *)
Fixpoint print_statement (d : defs) (indentation : nat) (n : node)
  {struct n} : option string :=
  let print_block := fun (body : list node) =>
    match body with
    | [] => Some "{}"
    | _ =>
        lines ← mapM (λ s, line ← print_statement d (indentation + 4) s;
                           Some (spaces (indentation + 4) +:+ line +:+ newline))
                     body;
        Some ("{" +:+ newline +:+ String.concat "" lines +:+
              spaces indentation +:+ "}")
    end in
  let print_body := fun (b : node) =>
    match b with
    | AST_BlockStatement body => print_block body
    | _ =>
        line ← print_statement d (indentation + 4) b;
        Some ("{" +:+ newline +:+ spaces (indentation + 4) +:+ line +:+
              newline +:+ spaces indentation +:+ "}")
    end in
  let print_opt := fun (o : option node) =>
    match o with
    | Some e => print_expression d e
    | None => Some ""
    end in
  match n with
  | AST_SimpleStatement e => e' ← print_expression d e; Some (e' +:+ ";")
  | AST_Return None => Some "return;"
  | AST_Return (Some v) =>
      v' ← print_expression d v; Some ("return " +:+ v' +:+ ";")
  | AST_BlockStatement body => print_block body
  | AST_If c b a =>
      c' ← print_expression d c;
      b' ← print_body b;
      match a with
      | None => Some ("if (" +:+ c' +:+ ") " +:+ b')
      | Some (AST_If _ _ _ as e) =>
          e' ← print_statement d indentation e;
          Some ("if (" +:+ c' +:+ ") " +:+ b' +:+ " else " +:+ e')
      | Some e =>
          e' ← print_body e;
          Some ("if (" +:+ c' +:+ ") " +:+ b' +:+ " else " +:+ e')
      end
  | AST_Var ds => print_definitions d "var" false indentation ds
  | AST_For i c s b =>
      i' ← match i with
           | Some (AST_Var ds) =>
               ds' ← print_definitions d "var" true indentation ds;
               Some (ds' +:+ "; ")
           | Some e => e' ← print_expression d e; Some (e' +:+ "; ")
           | None => Some ";"
           end;
      c' ← match c with
           | Some e => e' ← print_expression d e; Some (e' +:+ "; ")
           | None => Some ";"
           end;
      s' ← print_opt s;
      b' ← print_body b;
      Some ("for (" +:+ i' +:+ c' +:+ s' +:+ ") " +:+ b')
  | AST_Defun name args body =>
      body' ← print_block body;
      Some ("function " +:+ display d name +:+ "(" +:+
            String.concat ", " (map (display d) args) +:+ ") " +:+ body')
  | _ => None
  end.

(** [ast.print_to_string(outputOptions)] for a program. *)
Definition print_to_string (d : defs) (ast : node) : option string :=
  match ast with
  | AST_Toplevel body =>
      join_with (newline +:+ newline) (print_statement d 0) body
  | _ => None
  end.

(* ===================================================================== *)
(** * Notions used by the statements *)
(* ===================================================================== *)

(** The children of a node, in the order of the descent. *)
Definition children (n : node) : list node :=
  match n with
  | AST_Toplevel b | AST_BlockStatement b | AST_Defun _ _ b
  | AST_Function _ _ b | AST_Default b => b
  | AST_Switch e b | AST_Case e b => e :: b
  | AST_If c b a => c :: b :: option_list a
  | AST_For i c s b => option_list i ++ option_list c ++ option_list s ++ [b]
  | AST_With e b => [e; b]
  | AST_SimpleStatement b => [b]
  | AST_Return v => option_list v
  | AST_Var ds => omap snd ds
  | AST_Call e a => e :: a
  | AST_Sequence x y => [x; y]
  | AST_Dot e _ | AST_UnaryPrefix _ e => [e]
  | AST_Binary _ l r | AST_Assign _ l r => [l; r]
  | AST_Conditional c x y => [c; x; y]
  | AST_Array l => l
  | AST_Object ps => map snd ps
  | AST_SymbolRef _ | AST_String _ | AST_Number _ | AST_NaN
  | AST_Infinity | AST_Undefined | AST_True | AST_False => []
  end.

(** A node without its children: what the descent leaves as it is. *)
Definition strip (n : node) : node :=
  let strip_opt := fun (o : option node) => (λ _, AST_Undefined) <$> o in
  match n with
  | AST_Toplevel _ => AST_Toplevel []
  | AST_BlockStatement _ => AST_BlockStatement []
  | AST_Defun nm a _ => AST_Defun nm a []
  | AST_Function nm a _ => AST_Function nm a []
  | AST_Switch _ _ => AST_Switch AST_Undefined []
  | AST_Case _ _ => AST_Case AST_Undefined []
  | AST_Default _ => AST_Default []
  | AST_If _ _ a => AST_If AST_Undefined AST_Undefined (strip_opt a)
  | AST_For i c s _ =>
      AST_For (strip_opt i) (strip_opt c) (strip_opt s) AST_Undefined
  | AST_With _ _ => AST_With AST_Undefined AST_Undefined
  | AST_SimpleStatement _ => AST_SimpleStatement AST_Undefined
  | AST_Return v => AST_Return (strip_opt v)
  | AST_Var ds => AST_Var (map (λ sv, (fst sv, strip_opt (snd sv))) ds)
  | AST_Call _ _ => AST_Call AST_Undefined []
  | AST_Sequence _ _ => AST_Sequence AST_Undefined AST_Undefined
  | AST_Dot _ p => AST_Dot AST_Undefined p
  | AST_UnaryPrefix op _ => AST_UnaryPrefix op AST_Undefined
  | AST_Binary op _ _ => AST_Binary op AST_Undefined AST_Undefined
  | AST_Assign op _ _ => AST_Assign op AST_Undefined AST_Undefined
  | AST_Conditional _ _ _ =>
      AST_Conditional AST_Undefined AST_Undefined AST_Undefined
  | AST_Array _ => AST_Array []
  | AST_Object ps => AST_Object (map (λ kv, (fst kv, AST_Undefined)) ps)
  | AST_SymbolRef _ | AST_String _ | AST_Number _ | AST_NaN
  | AST_Infinity | AST_Undefined | AST_True | AST_False => n
  end.

(** [P] holds at a node and at every node below it. *)
Fixpoint all_nodes (P : node → bool) (n : node) : bool :=
  let all_opt := fun (o : option node) =>
    match o with
    | Some x => all_nodes P x
    | None => true
    end in
  P n &&
  match n with
  | AST_Toplevel b | AST_BlockStatement b | AST_Defun _ _ b
  | AST_Function _ _ b | AST_Default b => forallb (all_nodes P) b
  | AST_Switch e b | AST_Case e b => all_nodes P e && forallb (all_nodes P) b
  | AST_If c b a => all_nodes P c && all_nodes P b && all_opt a
  | AST_For i c s b => all_opt i && all_opt c && all_opt s && all_nodes P b
  | AST_With e b => all_nodes P e && all_nodes P b
  | AST_SimpleStatement b => all_nodes P b
  | AST_Return v => all_opt v
  | AST_Var ds => forallb (λ sv, all_opt (snd sv)) ds
  | AST_Call e a => all_nodes P e && forallb (all_nodes P) a
  | AST_Sequence x y => all_nodes P x && all_nodes P y
  | AST_Dot e _ | AST_UnaryPrefix _ e => all_nodes P e
  | AST_Binary _ l r | AST_Assign _ l r => all_nodes P l && all_nodes P r
  | AST_Conditional c x y => all_nodes P c && all_nodes P x && all_nodes P y
  | AST_Array l => forallb (all_nodes P) l
  | AST_Object ps => forallb (λ kv, all_nodes P (snd kv)) ps
  | AST_SymbolRef _ | AST_String _ | AST_Number _ | AST_NaN
  | AST_Infinity | AST_Undefined | AST_True | AST_False => true
  end.

(** A tree without comma expressions. *)
Definition comma_free (n : node) : bool :=
  all_nodes (λ m, negb (is_Sequence m)) n.

(** The [if] a rule of [transformBefore] builds for a statement. *)
Definition conditional_of (n : node) : option node :=
  match n with
  | AST_SimpleStatement body =>
      match as_Binary body with
      | Some (op, l, r) =>
          if String.eqb op "&&" then Some (AST_If l (asStatement r) None)
          else if String.eqb op "||"
          then Some (AST_If (AST_UnaryPrefix "!" l) (asStatement r) None)
          else None
      | None =>
          match body with
          | AST_Conditional c x y =>
              Some (AST_If c (asStatement x) (Some (asStatement y)))
          | _ => None
          end
      end
  | AST_Return (Some (AST_Conditional c x y)) =>
      Some (AST_If c (AST_Return (Some x)) (Some (AST_Return (Some y))))
  | _ => None
  end.

(** No statement of the body of a block or of a statement with a body is
    a [return void ...]. *)
Definition quiet_body (n : node) : bool :=
  if is_Block n || is_StatementWithBody n then
    match get_field n Body with
    | FArray body => forallb (λ c, bool_decide (void_return c = None)) body
    | FNode b => bool_decide (void_return b = None)
    | FNull => true
    end
  else true.

(** No rule other than sequence splitting applies at the node. *)
Definition idle (n : node) : bool :=
  bool_decide (fold_constant n = None) &&
  bool_decide (conditional_of n = None) &&
  quiet_body n.

(** No such rule applies anywhere in the tree. *)
Definition settled (n : node) : bool := all_nodes idle n.

(** The call nodes a walk reaches without passing through another call,
    in the order of the walk. *)
Fixpoint outer_calls (n : node) : list node :=
  let calls_opt := fun (o : option node) =>
    match o with
    | Some x => outer_calls x
    | None => []
    end in
  match n with
  | AST_Call _ _ => [n]
  | AST_Toplevel b | AST_BlockStatement b | AST_Defun _ _ b
  | AST_Function _ _ b | AST_Default b => concat (map outer_calls b)
  | AST_Switch e b | AST_Case e b =>
      outer_calls e ++ concat (map outer_calls b)
  | AST_If c b a => outer_calls c ++ outer_calls b ++ calls_opt a
  | AST_For i c s b =>
      calls_opt i ++ calls_opt c ++ calls_opt s ++ outer_calls b
  | AST_With e b => outer_calls e ++ outer_calls b
  | AST_SimpleStatement b => outer_calls b
  | AST_Return v => calls_opt v
  | AST_Var ds => concat (map (λ sv, calls_opt (snd sv)) ds)
  | AST_Sequence x y => outer_calls x ++ outer_calls y
  | AST_Dot e _ | AST_UnaryPrefix _ e => outer_calls e
  | AST_Binary _ l r | AST_Assign _ l r => outer_calls l ++ outer_calls r
  | AST_Conditional c x y => outer_calls c ++ outer_calls x ++ outer_calls y
  | AST_Array l => concat (map outer_calls l)
  | AST_Object ps => concat (map (λ kv, outer_calls (snd kv)) ps)
  | AST_SymbolRef _ | AST_String _ | AST_Number _ | AST_NaN
  | AST_Infinity | AST_Undefined | AST_True | AST_False => []
  end.

(** The calls among them that are not inside a nested function: the same
    collection, stopping at function nodes. *)
Fixpoint toplevel_calls (n : node) : list node :=
  let calls_opt := fun (o : option node) =>
    match o with
    | Some x => toplevel_calls x
    | None => []
    end in
  match n with
  | AST_Call _ _ => [n]
  | AST_Defun _ _ _ | AST_Function _ _ _ => []
  | AST_Toplevel b | AST_BlockStatement b | AST_Default b =>
      concat (map toplevel_calls b)
  | AST_Switch e b | AST_Case e b =>
      toplevel_calls e ++ concat (map toplevel_calls b)
  | AST_If c b a => toplevel_calls c ++ toplevel_calls b ++ calls_opt a
  | AST_For i c s b =>
      calls_opt i ++ calls_opt c ++ calls_opt s ++ toplevel_calls b
  | AST_With e b => toplevel_calls e ++ toplevel_calls b
  | AST_SimpleStatement b => toplevel_calls b
  | AST_Return v => calls_opt v
  | AST_Var ds => concat (map (λ sv, calls_opt (snd sv)) ds)
  | AST_Sequence x y => toplevel_calls x ++ toplevel_calls y
  | AST_Dot e _ | AST_UnaryPrefix _ e => toplevel_calls e
  | AST_Binary _ l r | AST_Assign _ l r =>
      toplevel_calls l ++ toplevel_calls r
  | AST_Conditional c x y =>
      toplevel_calls c ++ toplevel_calls x ++ toplevel_calls y
  | AST_Array l => concat (map toplevel_calls l)
  | AST_Object ps => concat (map (λ kv, toplevel_calls (snd kv)) ps)
  | AST_SymbolRef _ | AST_String _ | AST_Number _ | AST_NaN
  | AST_Infinity | AST_Undefined | AST_True | AST_False => []
  end.

(** The ids a name can reach: the entry ids, and the targets of the
    require maps of reachable module-map entries. *)
Inductive reachable (moduleObject : list ObjectProperty) (main : list string)
  : string → Prop :=
  | reachable_entry id :
      id ∈ main → reachable moduleObject main id
  | reachable_require p name id :
      p ∈ moduleObject →
      reachable moduleObject main (key p) →
      (name, id) ∈ requireMapping p →
      reachable moduleObject main id.

(** The resolver returns on an input: some number of iterations ends the
    loop. *)
Definition terminates (moduleObject : list ObjectProperty)
    (main : list string) : Prop :=
  ∃ fuel st, extractModuleNames fuel moduleObject main = Some st.

(* ===================================================================== *)
(** * Checks of the path model *)
(* ===================================================================== *)

Example path_join_relative :
  path.join [path.dirname "browser"; "./fib"] = "fib".
Proof. reflexivity. Qed.

Example path_join_package :
  path.join ["node_modules"; "lodash"; "index"] = "node_modules/lodash/index".
Proof. reflexivity. Qed.

Example path_join_dots :
  path.join [path.dirname "lib/a"; "../b/./c//d/"] = "b/c/d/".
Proof. reflexivity. Qed.

Example path_dirname_double_slash : path.dirname "a//b" = "a/".
Proof. reflexivity. Qed.

Example path_basename_extension : path.basename "./lib/fib.js" ".js" = "fib".
Proof. reflexivity. Qed.

Example path_basename_only_extension : path.basename "a/.js" ".js" = ".js".
Proof. reflexivity. Qed.

(* ===================================================================== *)
(** * The module name resolver *)
(* ===================================================================== *)

Section Resolver.

Implicit Types (st : resolver_state) (names : gmap string string).

Lemma truthy_Some (v : option string) :
js.truthy v = true ↔ ∃ s, v = Some s ∧ s ≠ "".
Proof.
destruct v as [s|]; simpl.
- rewrite negb_true_iff, String.eqb_neq. split; [eauto|].
  by intros (? & [= <-] & ?).
- split; [done|]. by intros (? & ? & ?).
Qed.

Lemma append_nonempty (s t : string) : t ≠ "" → s +:+ t ≠ "".
Proof.
intros Ht. destruct s as [|c s].
- exact Ht.
- change (String c s +:+ t) with (String c (s +:+ t)). discriminate.
Qed.

Lemma normalize_nonempty p : path.normalize p ≠ "".
Proof.
unfold path.normalize.
destruct (String.eqb p ""); [discriminate|].
destruct (path.is_slash (get 0 p)); simpl.
- discriminate.
- destruct (path.normalizeString p true) as [|c s]; simpl;
    destruct (path.is_slash (path.last_char p)); discriminate.
Qed.

Lemma join_nonempty args : path.join args ≠ "".
Proof.
unfold path.join.
destruct (filter _ args); [discriminate|apply normalize_nonempty].
Qed.

Lemma candidate_nonempty moduleName name : candidate moduleName name ≠ "".
Proof. unfold candidate. destruct (js.startsWith _ _); apply join_nonempty. Qed.


(** An id has a name: [moduleNames[id]] is truthy. *)
Definition named names (id : string) : Prop := js.truthy (names !! id) = true.

#[local] Instance named_dec names id : Decision (named names id).
Proof. unfold named. apply _. Defined.

Lemma named_lookup names id :
named names id ↔ ∃ s, names !! id = Some s ∧ s ≠ "".
Proof. apply truthy_Some. Qed.

Lemma named_insert names id id' v :
v ≠ "" → named names id' → named (<[id := v]> names) id'.
Proof.
intros Hv Hn. apply named_lookup.
destruct (decide (id = id')) as [->|Hne].
- exists v. by rewrite lookup_insert_eq.
- rewrite lookup_insert_ne by done. by apply named_lookup.
Qed.

Lemma named_insert_eq names id v : v ≠ "" → named (<[id := v]> names) id.
Proof. intros Hv. apply named_lookup. exists v. by rewrite lookup_insert_eq. Qed.

(** The callback never removes a name and always leaves its target
  named. *)
#[local] Arguments visit_require : simpl never.

Lemma visit_require_named moduleId st moduleName prop id' :
named (moduleNames st) id' →
named (moduleNames (fst (visit_require moduleId (st, moduleName) prop))) id'.
Proof.
intros Hn. unfold visit_require.
destruct (negb (js.truthy _)); simpl.
{ apply named_insert; [apply candidate_nonempty|done]. }
destruct (negb (String.eqb _ _)); simpl; [|done].
destruct (_ <=? _)%nat; simpl; [done|].
apply named_insert; [|done]. by apply append_nonempty.
Qed.

Lemma visit_require_target moduleId st moduleName prop :
named (moduleNames (fst (visit_require moduleId (st, moduleName) prop)))
      (snd prop).
Proof.
unfold visit_require.
destruct (negb (js.truthy _)) eqn:Ht; simpl.
{ apply named_insert_eq, candidate_nonempty. }
apply negb_false_iff in Ht.
destruct (negb (String.eqb _ _)); simpl; [|done].
destruct (_ <=? _)%nat; simpl; [done|].
apply named_insert; [|done]. by apply append_nonempty.
Qed.

Lemma fold_visit_named moduleId props st moduleName id' :
named (moduleNames st) id' →
named (moduleNames (fst (fold_left (visit_require moduleId) props
                            (st, moduleName)))) id'.
Proof.
revert st moduleName. induction props as [|prop props IH]; intros st mn Hn.
- done.
- simpl. destruct (visit_require moduleId (st, mn) prop) as [st1 mn1] eqn:E.
  apply IH. change st1 with (fst (st1, mn1)). rewrite <- E.
  by apply visit_require_named.
Qed.

Lemma fold_visit_targets moduleId props st moduleName prop :
prop ∈ props →
named (moduleNames (fst (fold_left (visit_require moduleId) props
                            (st, moduleName)))) (snd prop).
Proof.
revert st moduleName. induction props as [|prop' props IH]; intros st mn Hin.
- by apply not_elem_of_nil in Hin.
- simpl. destruct (visit_require moduleId (st, mn) prop') as [st1 mn1] eqn:E.
  apply elem_of_cons in Hin as [->|Hin].
  + apply fold_visit_named. change st1 with (fst (st1, mn1)). rewrite <- E.
    apply visit_require_target.
  + by apply IH.
Qed.

Lemma seed_lookup main id :
seed main !! id = if decide (id ∈ main) then Some "browser" else None.
Proof.
unfold seed.
assert (∀ names,
  fold_left (λ names element, <[element := "browser"]> names) main names !! id
  = if decide (id ∈ main) then Some "browser" else names !! id) as H.
{ induction main as [|m main IH]; intros names; simpl.
  - destruct (decide (id ∈ [])) as [Hin|]; [|done].
    by apply not_elem_of_nil in Hin.
  - rewrite IH.
    destruct (decide (id ∈ main)) as [Hin|Hnin];
      destruct (decide (id ∈ m :: main)) as [Hin'|Hnin']; try done.
    + exfalso. apply Hnin'. by apply elem_of_cons; right.
    + apply elem_of_cons in Hin' as [->|?]; [|done].
      by rewrite lookup_insert_eq.
    + rewrite lookup_insert_ne; [done|].
      intros ->. apply Hnin', list_elem_of_here. }
rewrite H. by destruct (decide (id ∈ main)).
Qed.

(** ** The loop *)

Lemma step_None s : step s = None ↔ fst s = [].
Proof.
destruct s as [[|p q] st]; simpl; [done|].
destruct (negb _); split; discriminate.
Qed.

Lemma loop_step fuel s s' : step s = Some s' → loop (S fuel) s = loop fuel s'.
Proof. intros H. simpl. by rewrite H. Qed.

Lemma loop_done fuel st : loop fuel ([], st) = Some st.
Proof. by destruct fuel. Qed.

(** A deferred entry goes to the back of the queue. *)
Lemma step_defer p q st :
¬ named (moduleNames st) (key p) →
step (p :: q, st) = Some (q ++ [p], st).
Proof.
intros Hn. unfold named in Hn. simpl.
by destruct (js.truthy (moduleNames st !! key p)).
Qed.

Lemma step_process p q st :
named (moduleNames st) (key p) →
step (p :: q, st) =
  Some (q, fst (fold_left (visit_require (key p)) (requireMapping p)
                  (st, default "" (moduleNames st !! key p)))).
Proof. intros Hn. unfold named in Hn. simpl. by rewrite Hn. Qed.

(** An invariant of the iterations holds when the loop ends. *)
Lemma loop_invariant (I : list ObjectProperty * resolver_state → Prop)
  fuel s st :
(∀ s s', I s → step s = Some s' → I s') →
I s → loop fuel s = Some st → I ([], st).
Proof.
intros Hstep. revert s. induction fuel as [|fuel IH]; intros s HI Hl.
- simpl in Hl. destruct (step s) eqn:E; [done|].
  apply step_None in E. destruct s as [q st']; simpl in *.
  by simplify_eq.
- simpl in Hl. destruct (step s) as [s'|] eqn:E.
  + eauto.
  + apply step_None in E. destruct s as [q st']; simpl in *.
    by simplify_eq.
Qed.

(** The entries in front of the first named one are deferred, one
  iteration each. *)
Lemma loop_defer fuel q1 q st :
Forall (λ p, ¬ named (moduleNames st) (key p)) q1 →
loop (length q1 + fuel) (q1 ++ q, st) = loop fuel (q ++ q1, st).
Proof.
revert q. induction q1 as [|p q1 IH]; intros q Hq1.
- by rewrite app_nil_r.
- apply Forall_cons in Hq1 as [Hp Hq1].
  cbn [length Nat.add app]. rewrite (loop_step _ _ (q1 ++ q ++ [p], st)).
  + rewrite (IH (q ++ [p])) by done. by rewrite <- app_assoc.
  + rewrite (app_assoc q1 q [p]). by apply step_defer.
Qed.

Section Termination.
Variables (moduleObject : list ObjectProperty) (main : list string).

(** What the iterations preserve: the entry ids are named, and every
    entry that left the queue has named all the targets of its require
    map. *)
Definition progress_invariant (s : list ObjectProperty * resolver_state)
  : Prop :=
  fst s ⊆ moduleObject ∧
  (∀ id, id ∈ main → named (moduleNames (snd s)) id) ∧
  (∀ p, p ∈ moduleObject →
        p ∈ fst s ∨
        ∀ prop, prop ∈ requireMapping p →
                named (moduleNames (snd s)) (snd prop)).

Lemma progress_invariant_init :
  progress_invariant (moduleObject, MkResolver (seed main) []).
Proof.
  split_and!; simpl.
  - done.
  - intros id Hid. apply named_lookup. exists "browser".
    by rewrite seed_lookup, decide_True.
  - auto.
Qed.

Lemma progress_invariant_step s s' :
  progress_invariant s → step s = Some s' → progress_invariant s'.
Proof.
  destruct s as [[|p q] st]; [done|].
  intros (Hsub & Hmain & Hdone) Hstep. simpl in Hsub, Hmain, Hdone.
  destruct (decide (named (moduleNames st) (key p))) as [Hn|Hn].
  - rewrite step_process in Hstep by done. simplify_eq.
    split_and!; simpl.
    + set_solver.
    + intros id Hid. by apply fold_visit_named, Hmain.
    + intros p' Hp'. destruct (Hdone p' Hp') as [Hin|Hall].
      * apply elem_of_cons in Hin as [->|Hin]; [|by left].
        right. intros prop Hprop. by apply fold_visit_targets.
      * right. intros prop Hprop. by apply fold_visit_named, Hall.
  - rewrite step_defer in Hstep by done. simplify_eq.
    split_and!; simpl.
    + set_solver.
    + done.
    + intros p' Hp'. destruct (Hdone p' Hp') as [Hin|Hall]; [left|by right].
      set_solver.
Qed.

(** A reachable id is named, unless a named entry is still waiting. *)
Lemma reachable_named q st id :
  progress_invariant (q, st) →
  reachable moduleObject main id →
  named (moduleNames st) id ∨ ∃ p, p ∈ q ∧ named (moduleNames st) (key p).
Proof.
  intros (Hsub & Hmain & Hdone). simpl in *.
  induction 1 as [id Hid | p name id Hp Hreach IH Hreq].
  - left. by apply Hmain.
  - destruct IH as [Hn|?]; [|by right].
    destruct (Hdone p Hp) as [Hin|Hall].
    + right. eauto.
    + left. apply (Hall (name, id) Hreq).
Qed.

Lemma first_named st (q : list ObjectProperty) p :
  p ∈ q → named (moduleNames st) (key p) →
  ∃ q1 p' q2, q = q1 ++ p' :: q2 ∧
    Forall (λ p, ¬ named (moduleNames st) (key p)) q1 ∧
    named (moduleNames st) (key p').
Proof.
  induction q as [|x q IH]; intros Hin Hn.
  - by apply not_elem_of_nil in Hin.
  - destruct (decide (named (moduleNames st) (key x))) as [Hx|Hx].
    + exists [], x, q. by split_and!.
    + apply elem_of_cons in Hin as [->|Hin]; [done|].
      destruct (IH Hin Hn) as (q1 & p' & q2 & -> & Hq1 & Hp').
      exists (x :: q1), p', q2. split_and!; [done| |done].
      by apply Forall_cons.
Qed.

Hypothesis all_reachable :
  ∀ p, p ∈ moduleObject → reachable moduleObject main (key p).

Lemma loop_terminates n :
  ∀ q st, length q = n → progress_invariant (q, st) →
          ∃ fuel st', loop fuel (q, st) = Some st'.
Proof.
  induction n as [|n IH]; intros q st Hlen Hinv.
  - destruct q; [|done]. exists 0%nat, st. apply loop_done.
  - destruct q as [|x q']; [done|].
    assert (∃ p, p ∈ x :: q' ∧ named (moduleNames st) (key p))
      as (p & Hp & Hn).
    { destruct (reachable_named (x :: q') st (key x) Hinv) as [?|?].
      - apply all_reachable, Hinv. simpl. apply list_elem_of_here.
      - exists x. split; [apply list_elem_of_here|done].
      - done. }
    destruct (first_named st _ p Hp Hn) as (q1 & p' & q2 & Hq & Hq1 & Hp').
    assert (progress_invariant (p' :: q2 ++ q1, st)) as Hinv'.
    { destruct Hinv as (Hsub & Hmain & Hdone). simpl in *.
      rewrite Hq in Hsub, Hdone. split_and!; simpl; [set_solver|done|].
      intros p0 Hp0. destruct (Hdone p0 Hp0); [left; set_solver|by right]. }
    pose proof (step_process p' (q2 ++ q1) st Hp') as Hstep.
    pose proof (progress_invariant_step _ _ Hinv' Hstep) as Hinv''.
    assert (length (q2 ++ q1) = n) as Hlen'.
    { rewrite Hq in Hlen. rewrite !length_app in *. simpl in Hlen. lia. }
    destruct (IH _ _ Hlen' Hinv'') as (fuel & st' & Hl).
    exists (length q1 + S fuel)%nat, st'.
    rewrite Hq, loop_defer by done. simpl app.
    by rewrite (loop_step _ _ _ Hstep).
Qed.
End Termination.

(** A name the callback adds belongs to its target or to the module
  being processed. *)
Lemma visit_require_named_inv moduleId st moduleName prop id' :
named (moduleNames (fst (visit_require moduleId (st, moduleName) prop))) id' →
named (moduleNames st) id' ∨ id' = snd prop ∨ id' = moduleId.
Proof.
unfold visit_require.
destruct (negb (js.truthy _)); simpl.
{ destruct (decide (id' = snd prop)) as [->|Hne]; [by auto|].
  unfold named. rewrite lookup_insert_ne by done. auto. }
destruct (negb (String.eqb _ _)); simpl; [|by auto].
destruct (_ <=? _)%nat; simpl; [by auto|].
destruct (decide (id' = moduleId)) as [->|Hne]; [by auto|].
unfold named. rewrite lookup_insert_ne by done. auto.
Qed.

Lemma fold_visit_named_inv moduleId props st moduleName id' :
named (moduleNames (fst (fold_left (visit_require moduleId) props
                            (st, moduleName)))) id' →
named (moduleNames st) id' ∨ id' = moduleId ∨
∃ prop, prop ∈ props ∧ id' = snd prop.
Proof.
revert st moduleName. induction props as [|prop props IH]; intros st mn.
- by left.
- cbn [fold_left].
  destruct (visit_require moduleId (st, mn) prop) as [st1 mn1] eqn:E.
  intros [Hn | [-> | (prop' & Hin & ->)]]%IH.
  + change st1 with (fst (st1, mn1)) in Hn. rewrite <- E in Hn.
    apply visit_require_named_inv in Hn as [? | [-> | ->]]; [by left| |by auto].
    right; right. exists prop. split; [apply list_elem_of_here|done].
  + by auto.
  + right; right. exists prop'. split; [by apply elem_of_cons; right|done].
Qed.

Section Divergence.
Variables (moduleObject : list ObjectProperty) (main : list string).

(** Only reachable ids are ever named, and an entry leaves the queue
    with its id named. *)
Definition sound_invariant (s : list ObjectProperty * resolver_state)
  : Prop :=
  fst s ⊆ moduleObject ∧
  (∀ id, named (moduleNames (snd s)) id → reachable moduleObject main id) ∧
  (∀ p, p ∈ moduleObject → p ∈ fst s ∨ named (moduleNames (snd s)) (key p)).

Lemma sound_invariant_init :
  sound_invariant (moduleObject, MkResolver (seed main) []).
Proof.
  split_and!; simpl; [done| |by auto].
  intros id (s & Hs & _)%named_lookup. rewrite seed_lookup in Hs.
  destruct (decide (id ∈ main)); [by constructor|done].
Qed.

Lemma sound_invariant_step s s' :
  sound_invariant s → step s = Some s' → sound_invariant s'.
Proof.
  destruct s as [[|p q] st]; [done|].
  intros (Hsub & Hreach & Hkeys) Hstep; simpl in Hsub, Hreach, Hkeys.
  destruct (decide (named (moduleNames st) (key p))) as [Hn|Hn].
  - rewrite step_process in Hstep by done. simplify_eq.
    split_and!; simpl.
    + set_solver.
    + intros id [? | [-> | (prop & Hprop & ->)]]%fold_visit_named_inv.
      * by apply Hreach.
      * by apply Hreach.
      * apply (reachable_require _ _ p (fst prop)).
        -- apply Hsub, list_elem_of_here.
        -- by apply Hreach.
        -- by destruct prop.
    + intros p' Hp'. destruct (Hkeys p' Hp') as [Hin|Hn'].
      * apply elem_of_cons in Hin as [->|Hin]; [|by left].
        right. by apply fold_visit_named.
      * right. by apply fold_visit_named.
  - rewrite step_defer in Hstep by done. simplify_eq.
    split_and!; simpl; [set_solver|done|].
    intros p' Hp'. destruct (Hkeys p' Hp'); [left; set_solver|by right].
Qed.

(** An entry with an unreachable id stays in the queue. *)
Lemma waiting_forever p0 fuel s :
  ¬ reachable moduleObject main (key p0) →
  p0 ∈ fst s → sound_invariant s → loop fuel s = None.
Proof.
  intros Hp0. revert s. induction fuel as [|fuel IH]; intros s Hin Hs.
  all: destruct (step s) as [s'|] eqn:Hstep;
    [|apply step_None in Hstep; rewrite Hstep in Hin;
      by apply not_elem_of_nil in Hin].
  - simpl. by rewrite Hstep.
  - simpl. rewrite Hstep.
    pose proof (sound_invariant_step _ _ Hs Hstep) as Hs'.
    apply IH; [|done].
    destruct Hs' as (_ & Hreach & Hkeys).
    destruct (Hkeys p0) as [?|Hn]; [by apply Hs|done|].
    destruct Hp0. by apply Hreach.
Qed.
End Divergence.

(** An entry whose id no entry id reaches keeps the loop running for
  ever. *)
Lemma unreachable_diverges moduleObject main p :
p ∈ moduleObject → ¬ reachable moduleObject main (key p) →
¬ terminates moduleObject main.
Proof.
intros Hp Hunreach (fuel & st & Hrun). unfold extractModuleNames in Hrun.
rewrite (waiting_forever moduleObject main p) in Hrun;
  [done|done|done|apply sound_invariant_init].
Qed.

(** The loop ends only when every key is reachable. *)
Lemma terminates_reachable moduleObject main :
terminates moduleObject main →
∀ p, p ∈ moduleObject → reachable moduleObject main (key p).
Proof.
intros (fuel & st & Hrun) p Hp.
pose proof (loop_invariant (sound_invariant moduleObject main) _ _ _
              (sound_invariant_step moduleObject main)
              (sound_invariant_init moduleObject main) Hrun)
  as (_ & Hreach & Hkeys).
destruct (Hkeys p Hp) as [Hin|Hn]; [by apply not_elem_of_nil in Hin|].
by apply Hreach.
Qed.

(** The loop ends when every key is reachable. *)
Lemma reachable_terminates moduleObject main :
(∀ p, p ∈ moduleObject → reachable moduleObject main (key p)) →
terminates moduleObject main.
Proof.
intros Hreach. unfold terminates, extractModuleNames.
eapply (loop_terminates moduleObject main Hreach); [done|].
apply progress_invariant_init.
Qed.

(** ** C2: termination of the worklist loop *)

(** A module map with an entry no entry id reaches. *)
Definition unreachable_bundle : list ObjectProperty :=
[MkProperty "1" (MkFunction None [] []) [];
 MkProperty "2" (MkFunction None [] []) []].

(** C2, counterexample: on the module map [{1: [f, {}], 2: [g, {}]}] with
  the entry ids [[1]] the loop defers the entry 2 in every iteration and
  never ends; the claim says that resolution terminates on every module
  map, also with an entry unreachable from the entry ids. *)
Lemma C2_counterexample : ¬ terminates unreachable_bundle ["1"].
Proof.
apply (unreachable_diverges _ _ (MkProperty "2" (MkFunction None [] []) [])).
- unfold unreachable_bundle. apply elem_of_cons. right.
  apply list_elem_of_here.
- simpl. intros H. remember "2" as id eqn:Hid.
  induction H as [id Hin | p name id Hp _ _ Hreq]; subst.
  + by apply list_elem_of_singleton in Hin.
  + unfold unreachable_bundle in Hp.
    apply elem_of_cons in Hp as [-> | Hp];
      [|apply list_elem_of_singleton in Hp as ->];
      by apply not_elem_of_nil in Hreq.
Qed.

(** C2 (amended): the worklist loop runs until the worklist is empty, and
  it terminates on every module map each of whose keys is reached from
  the entry ids along the require maps; the entries are deferred while
  their id has no name and there is no detection of a pass without
  progress. *)
Theorem C2_terminates_when_reachable moduleObject main :
(∀ p, p ∈ moduleObject → reachable moduleObject main (key p)) →
terminates moduleObject main.
Proof. apply reachable_terminates. Qed.

Lemma C2_terminates_when_reachable_witness :
terminates [MkProperty "1" (MkFunction None [] []) [("./fib", "2")];
            MkProperty "2" (MkFunction None [] []) []] ["1"].
Proof.
apply C2_terminates_when_reachable.
intros p [-> | [-> | Hp]%elem_of_cons]%elem_of_cons.
- apply reachable_entry, list_elem_of_here.
- apply (reachable_require _ _
           (MkProperty "1" (MkFunction None [] []) [("./fib", "2")])
           "./fib"); simpl.
  + apply list_elem_of_here.
  + apply reachable_entry, list_elem_of_here.
  + apply list_elem_of_here.
- by apply not_elem_of_nil in Hp.
Defined.

(** ** C1: conflicting names *)




(** ** C7: the order of the module-map keys *)

(** The candidate for a specifier required from a module of the top
  directory. *)
Definition sibling_name (name : string) : string := path.join ["."; name].

(** Every module requires only relative siblings: each specifier starts
  with a dot and names a file of the requiring module's directory. *)
Definition only_siblings (moduleObject : list ObjectProperty) : bool :=
forallb (λ p,
  forallb (λ prop,
    js.startsWith "." (fst prop) &&
    String.eqb (path.dirname (sibling_name (fst prop))) ".")
    (requireMapping p))
  moduleObject.

(** No id receives two different names: the requires of one target agree
  on its candidate, and a required entry id is required as [browser]. *)
Definition unambiguous (moduleObject : list ObjectProperty)
  (main : list string) : bool :=
let requires := concat (map requireMapping moduleObject) in
forallb (λ prop,
  (if bool_decide (snd prop ∈ main)
   then String.eqb (sibling_name (fst prop)) "browser" else true) &&
  forallb (λ prop',
    if String.eqb (snd prop') (snd prop)
    then String.eqb (sibling_name (fst prop')) (sibling_name (fst prop))
    else true)
    requires)
  requires.

Definition all_siblings (moduleObject : list ObjectProperty) : Prop :=
∀ p name id, p ∈ moduleObject → (name, id) ∈ requireMapping p →
  js.startsWith "." name = true ∧ path.dirname (sibling_name name) = ".".

Definition all_agree (moduleObject : list ObjectProperty)
  (main : list string) : Prop :=
∀ p name id, p ∈ moduleObject → (name, id) ∈ requireMapping p →
  (id ∈ main → sibling_name name = "browser") ∧
  (∀ p' name', p' ∈ moduleObject → (name', id) ∈ requireMapping p' →
               sibling_name name' = sibling_name name).

Lemma forallb_elem_of {A} (f : A → bool) (l : list A) x :
forallb f l = true → x ∈ l → f x = true.
Proof.
rewrite forallb_forall. intros H Hx. by apply H, list_elem_of_In.
Qed.

Lemma only_siblings_spec moduleObject :
only_siblings moduleObject = true → all_siblings moduleObject.
Proof.
intros H p name id Hp Hreq.
pose proof (forallb_elem_of _ _ _ (forallb_elem_of _ _ _ H Hp) Hreq) as Hx.
cbn [fst] in Hx. apply andb_true_iff in Hx as [? ?%String.eqb_eq]. done.
Qed.

Lemma elem_of_requires moduleObject p (prop : string * string) :
p ∈ moduleObject → prop ∈ requireMapping p →
prop ∈ concat (map requireMapping moduleObject).
Proof.
intros Hp Hprop. apply list_elem_of_In, in_concat.
exists (requireMapping p). split; [|by apply list_elem_of_In].
apply in_map, list_elem_of_In, Hp.
Qed.

Lemma unambiguous_spec moduleObject main :
unambiguous moduleObject main = true → all_agree moduleObject main.
Proof.
intros H p name id Hp Hreq.
pose proof (forallb_elem_of _ _ _ H (elem_of_requires _ _ _ Hp Hreq)) as Hx.
cbn [fst snd] in Hx. apply andb_true_iff in Hx as [Hm Hall]. split.
- intros Hid. rewrite bool_decide_eq_true_2 in Hm by done.
  by apply String.eqb_eq.
- intros p' name' Hp' Hreq'.
  pose proof (forallb_elem_of _ _ _ Hall (elem_of_requires _ _ _ Hp' Hreq'))
    as Hy.
  cbn [fst snd] in Hy. rewrite String.eqb_refl in Hy.
  by apply String.eqb_eq.
Qed.

(** The name table the resolver ends with under these two conditions. *)
Definition resolved (moduleObject : list ObjectProperty) (main : list string)
  (id v : string) : Prop :=
(id ∈ main ∧ v = "browser") ∨
(∃ p name, p ∈ moduleObject ∧ (name, id) ∈ requireMapping p ∧
           v = sibling_name name).

Section KeyOrder.
Variables (moduleObject : list ObjectProperty) (main : list string).
Hypothesis siblings : all_siblings moduleObject.
Hypothesis agree : all_agree moduleObject main.

Lemma resolved_agree id v v' :
  resolved moduleObject main id v → resolved moduleObject main id v' →
  v = v'.
Proof.
  intros [[Hm ->] | (p & name & Hp & Hreq & ->)]
         [[Hm' ->] | (p' & name' & Hp' & Hreq' & ->)].
  - done.
  - symmetry. by apply (agree p' name' id).
  - by apply (agree p name id).
  - by apply (proj2 (agree p' name' id Hp' Hreq') p name).
Qed.

Lemma resolved_dirname id v :
  resolved moduleObject main id v → path.dirname v = "." ∧ v ≠ "".
Proof.
  intros [[_ ->] | (p & name & Hp & Hreq & ->)].
  - by split.
  - split; [by apply (siblings p name id)|apply join_nonempty].
Qed.

Definition table_invariant (st : resolver_state) : Prop :=
  ∀ id v, moduleNames st !! id = Some v → resolved moduleObject main id v.

(** In a module of the top directory the callback names an unnamed
    target and changes nothing else. *)
Lemma visit_require_agree p moduleId st moduleName prop :
  p ∈ moduleObject → prop ∈ requireMapping p →
  path.dirname moduleName = "." → table_invariant st →
  ∃ st', visit_require moduleId (st, moduleName) prop = (st', moduleName) ∧
         table_invariant st'.
Proof.
  intros Hp Hprop Hdir Hinv. destruct prop as [name id].
  destruct (siblings p name id Hp Hprop) as [Hdot _].
  assert (candidate moduleName name = sibling_name name) as Hcand.
  { unfold candidate. by rewrite Hdot, Hdir. }
  unfold visit_require. cbn [fst snd]. rewrite Hcand.
  destruct (js.truthy (moduleNames st !! id)) eqn:Ht; cbn [negb].
  - apply truthy_Some in Ht as (v & Hv & Hne). rewrite Hv.
    change (default "" (Some v)) with v.
    assert (v = sibling_name name) as ->.
    { apply (resolved_agree id); [by apply Hinv|].
      right. by exists p, name. }
    rewrite String.eqb_refl. cbn [negb]. eauto.
  - eexists. split; [done|]. intros id' v'. cbn [moduleNames].
    destruct (decide (id = id')) as [<-|Hne].
    + rewrite lookup_insert_eq. intros [= <-]. right. by exists p, name.
    + rewrite lookup_insert_ne by done. apply Hinv.
Qed.

Lemma fold_visit_agree p moduleId props st moduleName :
  p ∈ moduleObject → props ⊆ requireMapping p →
  path.dirname moduleName = "." → table_invariant st →
  table_invariant
    (fst (fold_left (visit_require moduleId) props (st, moduleName))).
Proof.
  intros Hp. revert st.
  induction props as [|prop props IH]; intros st Hsub Hdir Hinv; [done|].
  cbn [fold_left].
  destruct (visit_require_agree p moduleId st moduleName prop)
    as (st' & -> & Hinv'); [done|set_solver|done|done|].
  apply IH; [set_solver|done|done].
Qed.

Definition order_invariant (s : list ObjectProperty * resolver_state)
  : Prop :=
  progress_invariant moduleObject main s ∧ table_invariant (snd s).

Lemma order_invariant_init :
  order_invariant (moduleObject, MkResolver (seed main) []).
Proof.
  split; [apply progress_invariant_init|].
  intros id v. cbn [snd moduleNames]. rewrite seed_lookup.
  destruct (decide (id ∈ main)); [|done]. intros [= <-]. by left.
Qed.

Lemma order_invariant_step s s' :
  order_invariant s → step s = Some s' → order_invariant s'.
Proof.
  intros [Hprog Htab] Hstep.
  split; [by eapply progress_invariant_step|].
  destruct s as [[|p q] st]; [done|]. cbn [snd] in Htab.
  destruct (decide (named (moduleNames st) (key p))) as [Hn|Hn].
  - rewrite step_process in Hstep by done. simplify_eq. cbn [snd].
    apply named_lookup in Hn as (v & Hv & _). rewrite Hv.
    apply (fold_visit_agree p); [|done| |done].
    + apply Hprog. cbn [fst]. apply list_elem_of_here.
    + by apply (resolved_dirname (key p)), Htab.
  - rewrite step_defer in Hstep by done. by simplify_eq.
Qed.

(** The table at the end of a run. *)
Lemma final_table fuel st id v :
  extractModuleNames fuel moduleObject main = Some st →
  moduleNames st !! id = Some v ↔ resolved moduleObject main id v.
Proof.
  intros Hrun.
  pose proof (loop_invariant order_invariant _ _ _ order_invariant_step
                order_invariant_init Hrun)
    as [(_ & Hmain & Hdone) Htab].
  cbn [fst snd] in *. split; [apply Htab|]. intros Hres.
  assert (named (moduleNames st) id) as (v' & Hv' & _)%named_lookup.
  { destruct Hres as [[Hm _] | (p & name & Hp & Hreq & _)].
    - by apply Hmain.
    - destruct (Hdone p Hp) as [Hin|Hall].
      + by apply not_elem_of_nil in Hin.
      + apply (Hall (name, id) Hreq). }
  rewrite Hv'. f_equal. apply (resolved_agree id); [by apply Htab|done].
Qed.
End KeyOrder.

Lemma reachable_permutation moduleObject moduleObject' main id :
moduleObject ≡ₚ moduleObject' →
reachable moduleObject main id → reachable moduleObject' main id.
Proof.
intros Hperm. induction 1 as [id Hid | p name id Hp _ IH Hreq].
- by constructor.
- apply (reachable_require _ _ p name); [by rewrite <- Hperm|done|done].
Qed.

Lemma resolved_permutation moduleObject moduleObject' main id v :
moduleObject ≡ₚ moduleObject' →
resolved moduleObject main id v → resolved moduleObject' main id v.
Proof.
intros Hperm [?|(p & name & Hp & Hreq & ->)]; [by left|].
right. exists p, name. by rewrite <- Hperm.
Qed.

(** A bundle of relative siblings in which module 4 is required as [./x]
  by module 2 and as [./x.js] by module 3, and the same module map with
  the keys 2 and 3 exchanged. *)
Definition ambiguous_bundle : list ObjectProperty :=
[MkProperty "1" (MkFunction None [] []) [("./a", "2"); ("./b", "3")];
 MkProperty "2" (MkFunction None [] []) [("./x", "4")];
 MkProperty "3" (MkFunction None [] []) [("./x.js", "4")];
 MkProperty "4" (MkFunction None [] []) []].

Definition ambiguous_bundle_shuffled : list ObjectProperty :=
[MkProperty "1" (MkFunction None [] []) [("./a", "2"); ("./b", "3")];
 MkProperty "3" (MkFunction None [] []) [("./x.js", "4")];
 MkProperty "2" (MkFunction None [] []) [("./x", "4")];
 MkProperty "4" (MkFunction None [] []) []].

(** C7, counterexample: every module of the bundle requires only relative
  siblings, yet the name table depends on the order of the keys.  With
  the key 2 before the key 3, module 4 is named [x] and module 2 stays
  [a]; with the key 3 first, module 4 is named [x.js] and module 2
  becomes [a/index]. *)
Lemma C7_counterexample :
only_siblings ambiguous_bundle = true ∧
ambiguous_bundle ≡ₚ ambiguous_bundle_shuffled ∧
∃ st st',
  extractModuleNames 4 ambiguous_bundle ["1"] = Some st ∧
  extractModuleNames 4 ambiguous_bundle_shuffled ["1"] = Some st' ∧
  moduleNames st !! "4" = Some "x" ∧
  moduleNames st' !! "4" = Some "x.js" ∧
  moduleNames st !! "2" = Some "a" ∧
  moduleNames st' !! "2" = Some "a/index" ∧
  moduleNames st ≠ moduleNames st'.
Proof.
split_and!.
- by vm_compute.
- unfold ambiguous_bundle, ambiguous_bundle_shuffled.
  apply perm_skip, perm_swap.
- eexists _, _. split_and!; [by vm_compute..|].
  intros Heq. apply (f_equal (λ m, m !! "4")) in Heq. by vm_compute in Heq.
Qed.

(** C7 (amended): resolution is a function of the module map and the
  entry ids, and for a bundle whose modules require only relative
  siblings it does not depend on the order of the module-map keys
  provided no id receives two different candidate names (all requires
  of a target yield the same candidate, and an entry id is only
  required as [browser]): a run on the map with its keys in any other
  order ends as well, with the same name table. *)
Theorem C7_key_order_independent moduleObject moduleObject' main fuel st :
moduleObject ≡ₚ moduleObject' →
only_siblings moduleObject = true →
unambiguous moduleObject main = true →
extractModuleNames fuel moduleObject main = Some st →
(∃ fuel' st', extractModuleNames fuel' moduleObject' main = Some st') ∧
(∀ fuel' st', extractModuleNames fuel' moduleObject' main = Some st' →
              moduleNames st' = moduleNames st).
Proof.
intros Hperm Hsib%only_siblings_spec Hagree%unambiguous_spec Hrun.
assert (all_siblings moduleObject') as Hsib'.
{ intros p name id Hp. apply Hsib. by rewrite Hperm. }
assert (all_agree moduleObject' main) as Hagree'.
{ intros p name id Hp Hreq.
  destruct (Hagree p name id) as [Hm Hsame]; [by rewrite Hperm|done|].
  split; [done|]. intros p' name' Hp'. apply Hsame. by rewrite Hperm. }
split.
- apply reachable_terminates. intros p Hp.
  apply (reachable_permutation moduleObject); [done|].
  apply terminates_reachable; [by exists fuel, st|by rewrite Hperm].
- intros fuel' st' Hrun'. apply map_eq. intros id.
  destruct (moduleNames st' !! id) as [v|] eqn:Hv.
  + symmetry.
    apply (final_table moduleObject main Hsib Hagree fuel st id v Hrun).
    apply (resolved_permutation moduleObject'); [by symmetry|].
    by apply (final_table moduleObject' main Hsib' Hagree' fuel' st' id v
                Hrun').
  + destruct (moduleNames st !! id) as [v|] eqn:Hv'; [|done].
    apply (final_table moduleObject main Hsib Hagree fuel st id v Hrun)
      in Hv'.
    apply (resolved_permutation _ moduleObject') in Hv'; [|done].
    apply (final_table moduleObject' main Hsib' Hagree' fuel' st' id v
             Hrun') in Hv'.
    congruence.
Qed.

Lemma C7_key_order_independent_witness :
  moduleNames (MkResolver (<["2" := "fib"]> (<["1" := "browser"]> ∅)) [])
  = <["2" := "fib"]> (<["1" := "browser"]> ∅).
Proof.
  refine (proj2 (C7_key_order_independent
                   [MkProperty "1" (MkFunction None [] []) [("./fib", "2")];
                    MkProperty "2" (MkFunction None [] []) []]
                   [MkProperty "2" (MkFunction None [] []) [];
                    MkProperty "1" (MkFunction None [] []) [("./fib", "2")]]
                   ["1"] 2
                   (MkResolver (<["2" := "fib"]> (<["1" := "browser"]> ∅)) [])
                   _ _ _ _) 3 _ _).
  - apply perm_swap.
  - reflexivity.
  - reflexivity.
  - reflexivity.
  - reflexivity.
Defined.

End Resolver.

(* ===================================================================== *)
(** * Induction on trees *)
(* ===================================================================== *)

Lemma weight_elem_of c (l : list node) :
  c ∈ l → (weight c ≤ list_sum (map weight l))%nat.
Proof.
  induction 1 as [c l | c x l _ IH]; cbn [map list_sum foldr];
    fold (list_sum (map weight l)); lia.
Qed.

Lemma weight_definitions c (ds : list (symbol * option node)) :
  c ∈ omap snd ds →
  (weight c <
   list_sum (map (λ sv, 1 + match snd sv with
                            | Some x => weight x
                            | None => 0
                            end) ds))%nat.
Proof.
  induction ds as [|[s [v|]] ds IH];
    [intros Hc; by apply not_elem_of_nil in Hc|..];
    cbn [map list_sum foldr];
    fold (list_sum (map (λ sv : symbol * option node,
                           1 + match snd sv with
                               | Some x => weight x
                               | None => 0
                               end) ds)).
  - intros [-> | Hc]%elem_of_cons; cbn [snd]; [lia|]. specialize (IH Hc). lia.
  - intros Hc. specialize (IH Hc). lia.
Qed.

Lemma weight_properties c (ps : list (string * node)) :
  c ∈ map snd ps → (weight c ≤ list_sum (map (λ kv, weight (snd kv)) ps))%nat.
Proof.
  induction ps as [|[k v] ps IH];
    [intros Hc; by apply not_elem_of_nil in Hc|];
    cbn [map list_sum foldr snd];
    fold (list_sum (map (λ kv : string * node, weight (snd kv)) ps)).
  intros [-> | Hc]%elem_of_cons; [lia|]. specialize (IH Hc). lia.
Qed.

Lemma children_weight n c : c ∈ children n → (weight c < weight n)%nat.
Proof.
  destruct n; cbn [children weight]; intros Hc.
  all: repeat match goal with
       | o : option node |- _ => destruct o; simpl in Hc
       end.
  all: repeat match goal with
       | H : _ ∈ _ :: _ |- _ => apply elem_of_cons in H as [-> | H]
       | H : _ ∈ [] |- _ => by apply not_elem_of_nil in H
       | H : _ ∈ _ ++ _ |- _ => apply elem_of_app in H as [H | H]
       end; try lia.
  all: try (apply weight_elem_of in Hc; lia).
  - apply weight_definitions in Hc. lia.
  - apply weight_properties in Hc. lia.
Qed.

(** Induction on a tree, the hypothesis covering the children. *)
Lemma node_children_ind (P : node → Prop) :
  (∀ n, (∀ c, c ∈ children n → P c) → P n) → ∀ n, P n.
Proof.
  intros Hstep n. remember (weight n) as w eqn:Hw. revert n Hw.
  induction w as [w IH] using lt_wf_ind. intros n ->.
  apply Hstep. intros c Hc. apply (IH (weight c)); [|done].
  by apply children_weight.
Qed.

(* ===================================================================== *)
(** * The kernel matcher *)
(* ===================================================================== *)

Section KernelMatcher.

Definition too_many : error :=
  AssertionError "More than one top-level function found.".

(** What the visitor does to [mainFunctionCall] over a list of calls. *)
Fixpoint record_calls (calls : list node) (mainFunctionCall : option node)
  : result (option node) :=
  match calls with
  | [] => Ok mainFunctionCall
  | c :: rest =>
      match mainFunctionCall with
      | None => record_calls rest (Some c)
      | Some _ => Throw too_many
      end
  end.

Lemma record_calls_app l1 l2 s :
  record_calls (l1 ++ l2) s = s' ← record_calls l1 s; record_calls l2 s'.
Proof.
  revert s. induction l1 as [|c l1 IH]; intros s; [done|].
  simpl. destruct s; [done|apply IH].
Qed.

Definition walk_spec (n : node) : Prop :=
  ∀ s, walk main_visitor n s = record_calls (outer_calls n) s.

Lemma walk_all_spec (l : list node) :
  (∀ c, c ∈ l → walk_spec c) →
  ∀ s, walk_all (walk main_visitor) l s
       = record_calls (concat (map outer_calls l)) s.
Proof.
  induction l as [|x l IH]; intros Hl s; [done|].
  cbn [walk_all map concat]. rewrite record_calls_app.
  rewrite (Hl x) by apply list_elem_of_here.
  destruct (record_calls (outer_calls x) s) as [s'|]; [|done].
  apply IH. intros c Hc. apply Hl. by apply elem_of_cons; right.
Qed.

Lemma walk_opt_spec (o : option node) :
  (∀ c, c ∈ option_list o → walk_spec c) →
  ∀ s, walk_opt (walk main_visitor) o s
       = record_calls (match o with Some x => outer_calls x | None => [] end) s.
Proof.
  destruct o as [x|]; intros Ho s; [|done].
  apply (Ho x), list_elem_of_here.
Qed.

Lemma walk_definitions_spec (ds : list (symbol * option node)) :
  (∀ c, c ∈ omap snd ds → walk_spec c) →
  ∀ s, walk_definitions (walk main_visitor) ds s
       = record_calls
           (concat (map (λ sv, match snd sv with
                               | Some x => outer_calls x
                               | None => []
                               end) ds)) s.
Proof.
  induction ds as [|[sy v] ds IH]; intros Hl s; [done|].
  cbn [walk_definitions map concat snd]. rewrite record_calls_app.
  rewrite walk_opt_spec.
  - destruct (record_calls _ s) as [s'|]; [|done].
    apply IH. intros c Hc. apply Hl. destruct v; simpl; [|done].
    by apply elem_of_cons; right.
  - intros c Hc. apply Hl. destruct v as [x|]; simpl in *.
    + apply list_elem_of_singleton in Hc as ->. apply list_elem_of_here.
    + by apply not_elem_of_nil in Hc.
Qed.

Lemma walk_properties_spec (ps : list (string * node)) :
  (∀ c, c ∈ map snd ps → walk_spec c) →
  ∀ s, walk_properties (walk main_visitor) ps s
       = record_calls (concat (map (λ kv, outer_calls (snd kv)) ps)) s.
Proof.
  induction ps as [|[k v] ps IH]; intros Hl s; [done|].
  cbn [walk_properties map concat snd]. rewrite record_calls_app.
  rewrite (Hl v) by apply list_elem_of_here.
  destruct (record_calls (outer_calls v) s) as [s'|]; [|done].
  apply IH. intros c Hc. apply Hl. by apply elem_of_cons; right.
Qed.

(** The walk of [findMainFunction] records the outer calls, one after the
    other. *)
Lemma walk_record_calls n : walk_spec n.
Proof.
  induction n as [n IH] using node_children_ind. intros s.
  destruct n; cbn [walk outer_calls main_visitor is_Call children] in *;
    cbn [mbind result_bind fst snd]; try (by destruct s).
  all: repeat
    (rewrite ?record_calls_app;
     first
       [ rewrite walk_all_spec by (intros; apply IH; set_solver)
       | rewrite walk_opt_spec by (intros; apply IH; set_solver)
       | rewrite walk_definitions_spec by (intros; apply IH; set_solver)
       | rewrite walk_properties_spec by (intros; apply IH; set_solver)
       | match goal with
         | |- context [walk main_visitor ?c ?s'] =>
             rewrite (IH c ltac:(set_solver) s')
         end ];
     try done;
     match goal with
     | |- context [record_calls ?l ?s'] =>
         destruct (record_calls l s'); cbn [mbind result_bind]; try done
     end).
Qed.

Lemma elem_of_concat {A} (x : A) (ls : list (list A)) :
  x ∈ concat ls → ∃ l, x ∈ l ∧ l ∈ ls.
Proof.
  intros (l & Hl & Hx)%list_elem_of_In%in_concat.
  exists l. by rewrite !list_elem_of_In.
Qed.

(** ** C5: the result of the kernel matcher *)

(** The program [function f() { g(); }]. *)
Definition nested_call_program : node :=
  AST_Toplevel
    [AST_Defun (Symbol "f" None) []
       [AST_SimpleStatement (AST_Call (AST_SymbolRef (Symbol "g" None)) [])]].

(** The program [function f() { g(); } !function e() {}(foo);]. *)
Definition nested_and_kernel_program : node :=
  AST_Toplevel
    [AST_Defun (Symbol "f" None) []
       [AST_SimpleStatement (AST_Call (AST_SymbolRef (Symbol "g" None)) [])];
     AST_SimpleStatement
       (AST_UnaryPrefix "!"
          (AST_Call (AST_Function (Some (Symbol "e" None)) [] [])
                    [AST_SymbolRef (Symbol "foo" None)]))].

(** C5, counterexample: in [function f() { g(); }] no call stands outside
    the nested function, so the claim makes the result undefined; the
    walker enters the function and returns the call [g()].  With the
    kernel call added after the function, the only call outside nested
    functions is the kernel, yet the second call the walker reaches
    raises the error. *)
Lemma C5_counterexample :
  toplevel_calls nested_call_program = [] ∧
  findMainFunction nested_call_program
    = Ok (Some (AST_Call (AST_SymbolRef (Symbol "g" None)) [])) ∧
  length (toplevel_calls nested_and_kernel_program) = 1%nat ∧
  findMainFunction nested_and_kernel_program = Throw too_many.
Proof. by split_and!. Qed.

(** C5 (amended): the matcher returns undefined when the walk reaches no
    call node, returns the call when it reaches exactly one, and raises
    the error as soon as it reaches a second one; it does not descend
    into a call it has matched, so the calls nested inside a matched call
    are never reported.  A match is any call node of the tree that is not
    nested inside another call, in the top-level statement list or inside
    the body of a nested function alike. *)
Theorem C5_kernel_matcher ast :
  findMainFunction ast =
    match outer_calls ast with
    | [] => Ok None
    | [call] => Ok (Some call)
    | _ :: _ :: _ => Throw too_many
    end
  ∧ (∀ call, call ∈ outer_calls ast → is_Call call = true)
  ∧ (∀ expression args,
       findMainFunction (AST_Call expression args)
       = Ok (Some (AST_Call expression args))).
Proof.
  split_and!.
  - unfold findMainFunction. rewrite walk_record_calls.
    by destruct (outer_calls ast) as [|c [|c' calls]].
  - induction ast as [n IH] using node_children_ind. intros call.
    destruct n; cbn [outer_calls children] in *;
      repeat match goal with
      | o : option node |- _ => destruct o; simpl in IH
      end;
      rewrite ?elem_of_app, ?list_elem_of_singleton, ?elem_of_nil;
      try (intros ->; done); try done.
    all: repeat match goal with
         | |- _ ∨ _ → _ => intros [H|H]; revert H
         | |- _ ∈ outer_calls ?c → _ => apply IH; set_solver
         | |- False → _ => by intros []
         end.
    all: intros (calls & Hcalls & Hin)%elem_of_concat.
    all: apply list_elem_of_fmap in Hin as (x & -> & Hx).
    all: try (revert Hcalls; apply IH; set_solver).
    destruct x as [sy [v|]]; simpl in Hcalls;
      [|by apply not_elem_of_nil in Hcalls].
    revert Hcalls. apply IH. apply list_elem_of_omap.
    by exists (sy, Some v).
  - done.
Qed.

End KernelMatcher.

(* ===================================================================== *)
(** * The module assembler *)
(* ===================================================================== *)

Section ModuleAssembler.

Variable isBuiltinModule : string → bool.

Lemma split_slash_cons s : ∃ seg rest, js.split_slash s = seg :: rest.
Proof.
  induction s as [|c s (seg & rest & IH)]; simpl; [by eauto|].
  destruct (Ascii.eqb c "/"); [by eauto|]. rewrite IH. eauto.
Qed.

(** A name with a single segment is that segment. *)
Lemma split_slash_single s seg : js.split_slash s = [seg] → s = seg.
Proof.
  revert seg. induction s as [|c s IH]; intros seg; simpl.
  - by intros [= <-].
  - destruct (Ascii.eqb c "/").
    + destruct (split_slash_cons s) as (? & ? & ->). done.
    + destruct (js.split_slash s) as [|seg' [|]] eqn:E; intros [= <-].
      * destruct (split_slash_cons s) as (? & ? & ?). congruence.
      * f_equal. by apply IH.
Qed.

Lemma filter_with_kept {A S} (f : S → A → result (bool * S)) s l kept s' x :
  filter_with f s l = Ok (kept, s') → x ∈ kept → x ∈ l.
Proof.
  revert s kept s'. induction l as [|y l IH]; intros s kept s'; simpl.
  - intros [= <- <-] Hx. by apply not_elem_of_nil in Hx.
  - destruct (f s y) as [[keep s1]|]; [|done]. simpl.
    destruct (filter_with f s1 l) as [[kept' s2]|] eqn:E; [|done]. simpl.
    intros [= <- <-] Hx. apply elem_of_cons.
    destruct keep.
    + apply elem_of_cons in Hx as [->|Hx]; [by left|right; eauto].
    + right; eauto.
Qed.

Lemma filter_with_total {A S} (f : S → A → result (bool * S)) s l :
  (∀ s x, x ∈ l → ∃ r, f s x = Ok r) →
  ∃ r, filter_with f s l = Ok r.
Proof.
  revert s. induction l as [|y l IH]; intros s Hf; simpl; [by eauto|].
  destruct (Hf s y) as ([keep s1] & ->); [apply list_elem_of_here|]. simpl.
  destruct (IH s1) as ([kept s2] & ->); [|simpl; eauto].
  intros s' x Hx. apply Hf. by apply elem_of_cons; right.
Qed.

(** The tree of [browser] is there from the start and only grows. *)
Lemma assemble_module_browser a m :
  (∃ body, modules a !! "browser" = Some (AST_Toplevel body)) →
  ∃ body, modules (assemble_module a m) !! "browser"
          = Some (AST_Toplevel body).
Proof.
  intros [body Hb]. unfold assemble_module.
  destruct (renameArguments _ _) as [d f]. cbn [modules].
  destruct (decide (property_key (moduleName m) = "browser")) as [->|Hne].
  - rewrite lookup_insert_eq. eauto.
  - rewrite lookup_insert_ne by done. eauto.
Qed.

Lemma assemble_module_other a m name :
  property_key (moduleName m) ≠ name →
  modules (assemble_module a m) !! name = modules a !! name.
Proof.
  intros Hne. unfold assemble_module.
  destruct (renameArguments _ _) as [d f]. cbn [modules].
  by rewrite lookup_insert_ne.
Qed.

Lemma fold_assemble_browser ms a :
  (∃ body, modules a !! "browser" = Some (AST_Toplevel body)) →
  ∃ body, modules (fold_left assemble_module ms a) !! "browser"
          = Some (AST_Toplevel body).
Proof.
  revert a. induction ms as [|m ms IH]; intros a Ha; [done|].
  simpl. by apply IH, assemble_module_browser.
Qed.

Lemma fold_assemble_other ms a name :
  (∀ m, m ∈ ms → property_key (moduleName m) ≠ name) →
  modules (fold_left assemble_module ms a) !! name = modules a !! name.
Proof.
  revert a. induction ms as [|m ms IH]; intros a Hms; [done|].
  simpl. rewrite IH.
  - apply assemble_module_other, Hms, list_elem_of_here.
  - intros m' Hm'. apply Hms. by apply elem_of_cons; right.
Qed.

(** The assembler returns when every key has a name other than
    [node_modules]. *)
Lemma extractModules_total d deps moduleObject moduleNames :
  (∀ p, p ∈ moduleObject →
        ∃ name, moduleNames !! key p = Some name ∧ name ≠ "node_modules") →
  ∃ a, extractModules isBuiltinModule d deps moduleObject moduleNames = Ok a.
Proof.
  intros Hnames. unfold extractModules.
  destruct (filter_with_total
              (λ (_ : unit) p,
                 keep ← isNotBuiltinModule isBuiltinModule moduleNames p;
                 Ok (keep, tt)) tt moduleObject) as ([kept1 []] & E1).
  { intros _ p Hp. destruct (Hnames p Hp) as (name & Hname & _).
    unfold isNotBuiltinModule. rewrite Hname. simpl. eauto. }
  rewrite E1. simpl.
  destruct (filter_with_total (isNotPublishedDependency moduleNames)
              deps kept1) as ([kept2 deps'] & E2).
  { intros deps0 p Hp. apply (filter_with_kept _ _ _ _ _ _ E1) in Hp.
    destruct (Hnames p Hp) as (name & Hname & Hne).
    unfold isNotPublishedDependency. rewrite Hname.
    destruct (split_slash_cons name) as (seg & rest & Hsplit).
    rewrite Hsplit. simpl.
    destruct (bool_decide (Some seg = Some "node_modules")) eqn:Hseg;
      [|by eauto].
    apply bool_decide_eq_true in Hseg as [= ->].
    destruct rest as [|name1 rest]; simpl.
    - destruct Hne. by apply split_slash_single.
    - destruct (String.eqb _ _); eauto. }
  rewrite E2. simpl. eauto.
Qed.

(** ** The two-module bundle of the tests *)

(** The module function of the entry module:
    [function (require, module, exports) {
       var fib = require("./fib"); console.log(fib(10)); }] *)
Definition main_function : ModuleFunction :=
  MkFunction None
    [Symbol "require" (Some 0%nat); Symbol "module" (Some 1%nat);
     Symbol "exports" (Some 2%nat)]
    [AST_Var [(Symbol "fib" (Some 3%nat),
               Some (AST_Call (AST_SymbolRef (Symbol "require" (Some 0%nat)))
                              [AST_String "./fib"]))];
     AST_SimpleStatement
       (AST_Call (AST_Dot (AST_SymbolRef (Symbol "console" None)) "log")
          [AST_Call (AST_SymbolRef (Symbol "fib" (Some 3%nat)))
                    [AST_Number 10]])].

(** The statements of the module [fib]:
    [function fib(n) { return n < 2 ? n : fib(n - 1) + fib(n - 2); }
     module.exports = fib;] *)
Definition fib_source : list node :=
  let n := AST_SymbolRef (Symbol "n" (Some 8%nat)) in
  let fib := AST_SymbolRef (Symbol "fib" (Some 7%nat)) in
  [AST_Defun (Symbol "fib" (Some 7%nat)) [Symbol "n" (Some 8%nat)]
     [AST_Return
        (Some (AST_Conditional
                 (AST_Binary "<" n (AST_Number 2))
                 n
                 (AST_Binary "+"
                    (AST_Call fib [AST_Binary "-" n (AST_Number 1)])
                    (AST_Call fib [AST_Binary "-" n (AST_Number 2)]))))];
   AST_SimpleStatement
     (AST_Assign "=" (AST_Dot (AST_SymbolRef (Symbol "module" (Some 5%nat)))
                              "exports")
                 fib)].

Definition fib_function : ModuleFunction :=
  MkFunction None
    [Symbol "require" (Some 4%nat); Symbol "module" (Some 5%nat);
     Symbol "exports" (Some 6%nat)]
    fib_source.

(** The module map [{1: [main, {"./fib": 2}], 2: [fib, {}]}]. *)
Definition fib_bundle : list ObjectProperty :=
  [MkProperty "1" main_function [("./fib", "2")];
   MkProperty "2" fib_function []].

Definition fib_names : gmap string string :=
  <["2" := "fib"]> (<["1" := "browser"]> ∅).

Example fib_bundle_names :
  moduleNames <$> extractModuleNames 2 fib_bundle ["1"] = Some fib_names.
Proof. reflexivity. Qed.

(** ** C4: the tree of the entry name *)


(** ** C3: the arguments of the require calls *)

(** The argument stays as it is when its base name is no member of the
    array [mapping]. *)
Lemma require_argument_unchanged mapping value :
  array_get mapping (path.basename value ".js") = Undefined →
  require_argument mapping value = value.
Proof. intros H. unfold require_argument. by rewrite H. Qed.

End ModuleAssembler.

(** A few names of the list the package [is-builtin-module] consults. *)
Definition some_builtin_modules (name : string) : bool :=
  existsb (String.eqb name) ["assert"; "fs"; "path"; "util"].


(** C3, at the failing input: the entry module of the bundle
    [{1: [main, {"./fib": 2}], 2: [fib, {}]}] calls [require("./fib")],
    and module 2 is resolved to the name [fib].  The mapping handed to
    [updateRequires] is the array [[["fib", "fib"]]]; indexed with the
    string ["fib"] it yields undefined, so the argument of the call is
    left as ["./fib"] where the claim has it replaced with the specifier
    of the resolved name, ["./fib.js"]. *)
Theorem C3_require_not_rewritten :
  let mapping :=
    moduleMapping (module_property fib_names
                     (MkProperty "1" main_function [("./fib", "2")])) in
  mapping = [("fib", Some "fib")] ∧
  array_get mapping (path.basename "./fib" ".js") = Undefined ∧
  require_argument mapping "./fib" = "./fib" ∧
  ∃ a, extractModules some_builtin_modules (MkDefs 9 ∅) ∅ fib_bundle fib_names
       = Ok a ∧
       modules a !! "browser" = Some (AST_Toplevel (fn_body main_function)) ∧
       modules a !! "fib" = Some (AST_Toplevel fib_source).
Proof.
  split_and!; [reflexivity..|].
  eexists. split_and!; [reflexivity|by vm_compute..].
Qed.

(* ===================================================================== *)
(** * The normalizer *)
(* ===================================================================== *)

Section Descent.

Implicit Types (tw : node → option node) (n : node).

Lemma mapM_ext_elem {A B} (f g : A → option B) (l : list A) :
  (∀ x, x ∈ l → f x = g x) → mapM f l = mapM g l.
Proof. intros H. apply Forall_mapM_ext, Forall_forall, H. Qed.

Lemma mapM_Some_id {A} (l : list A) : mapM Some l = Some l.
Proof. induction l as [|x l IH]; [done|]. cbn. by rewrite IH. Qed.

Lemma transform_opt_ext tw tw' o :
  (∀ c, c ∈ option_list o → tw c = tw' c) →
  transform_opt tw o = transform_opt tw' o.
Proof.
  destruct o as [x|]; intros H; [|done]. simpl.
  by rewrite (H x) by apply list_elem_of_here.
Qed.

Lemma transform_definitions_ext tw tw' ds :
  (∀ c, c ∈ omap snd ds → tw c = tw' c) →
  transform_definitions tw ds = transform_definitions tw' ds.
Proof.
  intros H. apply mapM_ext_elem. intros [s v] Hsv. cbn [fst snd].
  rewrite (transform_opt_ext tw tw'); [done|].
  intros c Hc. apply H, list_elem_of_omap. exists (s, v). split; [done|].
  destruct v; simpl in *; [|by apply not_elem_of_nil in Hc].
  by apply list_elem_of_singleton in Hc as ->.
Qed.

Lemma transform_properties_ext tw tw' ps :
  (∀ c, c ∈ map snd ps → tw c = tw' c) →
  transform_properties tw ps = transform_properties tw' ps.
Proof.
  intros H. apply mapM_ext_elem. intros [k v] Hkv. cbn [fst snd].
  rewrite (H v); [done|].
  apply list_elem_of_fmap. by exists (k, v).
Qed.

(** The descent only consults the transformer on the children. *)
Lemma descend_ext tw tw' n :
  (∀ c, c ∈ children n → tw c = tw' c) → descend tw n = descend tw' n.
Proof.
  intros H. destruct n; cbn [descend children] in *; try done.
  all: repeat first
    [ rewrite (mapM_ext_elem tw tw') by (intros; apply H; set_solver)
    | rewrite (transform_opt_ext tw tw') by (intros; apply H; set_solver)
    | rewrite (transform_definitions_ext tw tw') by done
    | rewrite (transform_properties_ext tw tw') by done
    | let f := constr:(tw) in
      match goal with
      | |- context [f ?c] => rewrite (H c) by set_solver
      end
    | match goal with
      | |- context [mbind _ ?x] => destruct x; cbn [mbind option_bind]
      end ]; done.
Qed.

Lemma descend_Some_id n : descend Some n = Some n.
Proof.
  destruct n; cbn [descend]; try done.
  all: unfold transform_definitions, transform_properties;
    rewrite ?mapM_Some_id; try done.
  all: repeat match goal with
       | o : option node |- _ => destruct o
       end; try done; cbn.
  - rewrite (mapM_ext_elem _ Some); [by rewrite mapM_Some_id|].
    by intros [s [v|]] _.
  - rewrite (mapM_ext_elem _ Some); [by rewrite mapM_Some_id|].
    by intros [k v] _.
Qed.

(** A transformer that returns the children as they are leaves the node
    as it is. *)
Lemma descend_id tw n :
  (∀ c, c ∈ children n → tw c = Some c) → descend tw n = Some n.
Proof. intros H. rewrite (descend_ext tw Some) by done. apply descend_Some_id. Qed.

Lemma transform_opt_children tw o o' :
  transform_opt tw o = Some o' →
  Forall2 (λ c c', tw c = Some c') (option_list o) (option_list o') ∧
  (λ _, AST_Undefined) <$> o' = (λ _, AST_Undefined) <$> o.
Proof.
  destruct o as [x|]; simpl.
  - destruct (tw x) as [x'|] eqn:E; intros [= <-]; simpl. split; [|done].
    by constructor.
  - intros [= <-]. by split.
Qed.

Lemma transform_definitions_children tw ds ds' :
  transform_definitions tw ds = Some ds' →
  Forall2 (λ c c', tw c = Some c') (omap snd ds) (omap snd ds') ∧
  map (λ sv, (fst sv, (λ _, AST_Undefined) <$> snd sv)) ds'
  = map (λ sv, (fst sv, (λ _, AST_Undefined) <$> snd sv)) ds.
Proof.
  unfold transform_definitions. intros H%mapM_Some_1.
  induction H as [|[s v] [s' v'] ds ds' Hsv _ [IH1 IH2]]; [done|].
  cbn [fst snd] in Hsv.
  destruct (transform_opt tw v) as [v''|] eqn:E; [|done].
  injection Hsv as <- <-.
  apply transform_opt_children in E as [E1 E2].
  split.
  - destruct v, v''; simpl in *; inv E1; try done. by constructor.
  - cbn [map fst snd]. by rewrite E2, IH2.
Qed.

Lemma transform_properties_children tw ps ps' :
  transform_properties tw ps = Some ps' →
  Forall2 (λ c c', tw c = Some c') (map snd ps) (map snd ps') ∧
  map (λ kv, (fst kv, AST_Undefined)) ps'
  = map (λ kv, (fst kv, AST_Undefined)) ps.
Proof.
  unfold transform_properties. intros H%mapM_Some_1.
  induction H as [|[k v] [k' v'] ps ps' Hkv _ [IH1 IH2]]; [done|].
  cbn [fst snd] in Hkv. destruct (tw v) as [v''|] eqn:E; [|done].
  injection Hkv as <- <-. split.
  - by constructor.
  - cbn [map fst snd]. by rewrite IH2.
Qed.

(** What the descent returns: the same node with every child replaced by
    its transform. *)
Lemma descend_children tw n n' :
  descend tw n = Some n' →
  Forall2 (λ c c', tw c = Some c') (children n) (children n') ∧
  strip n' = strip n.
Proof.
  destruct n; cbn [descend]; intros H; simplify_option_eq;
    cbn [children strip];
    repeat match goal with
    | H : mapM _ _ = Some _ |- _ => apply mapM_Some_1 in H
    | H : transform_opt _ _ = Some _ |- _ =>
        apply transform_opt_children in H as [? ?]
    | H : transform_definitions _ _ = Some _ |- _ =>
        apply transform_definitions_children in H as [? ?]
    | H : transform_properties _ _ = Some _ |- _ =>
        apply transform_properties_children in H as [? ?]
    end;
    (split; [repeat first [done | apply Forall2_app | constructor]
            |congruence]).
Qed.

Lemma mapM_total tw (l : list node) :
  (∀ c, c ∈ l → is_Some (tw c)) → is_Some (mapM tw l).
Proof. intros H. apply mapM_is_Some_2, Forall_forall, H. Qed.

Lemma transform_opt_total tw o :
  (∀ c, c ∈ option_list o → is_Some (tw c)) → is_Some (transform_opt tw o).
Proof.
  destruct o as [x|]; intros H; [|by eexists].
  destruct (H x) as [x' Hx]; [apply list_elem_of_here|].
  simpl. rewrite Hx. by eexists.
Qed.

Lemma transform_definitions_total tw ds :
  (∀ c, c ∈ omap snd ds → is_Some (tw c)) →
  is_Some (transform_definitions tw ds).
Proof.
  intros H. apply mapM_is_Some_2, Forall_forall. intros [s v] Hsv.
  cbn [compose fst snd].
  destruct (transform_opt_total tw v) as [v' ->]; [|by eexists].
  intros c Hc. apply H, list_elem_of_omap. exists (s, v). split; [done|].
  destruct v; simpl in *; [|by apply not_elem_of_nil in Hc].
  by apply list_elem_of_singleton in Hc as ->.
Qed.

Lemma transform_properties_total tw ps :
  (∀ c, c ∈ map snd ps → is_Some (tw c)) →
  is_Some (transform_properties tw ps).
Proof.
  intros H. apply mapM_is_Some_2, Forall_forall. intros [k v] Hkv.
  cbn [compose fst snd].
  destruct (H v) as [v' ->]; [|by eexists].
  apply list_elem_of_fmap. by exists (k, v).
Qed.

(** The descent returns when the transformer returns on the children. *)
Lemma descend_total tw n :
  (∀ c, c ∈ children n → is_Some (tw c)) → is_Some (descend tw n).
Proof.
  intros H. destruct n; cbn [descend children] in *; try by eexists.
  all: repeat first
    [ let f := constr:(tw) in
      match goal with
      | |- context [mapM f ?l] =>
          destruct (mapM_total tw l) as [? ->];
          [intros; apply H; set_solver|]
      | |- context [transform_opt f ?o] =>
          destruct (transform_opt_total tw o) as [? ->];
          [intros; apply H; set_solver|]
      | |- context [transform_definitions f ?l] =>
          destruct (transform_definitions_total tw l) as [? ->]; [done|]
      | |- context [transform_properties f ?l] =>
          destruct (transform_properties_total tw l) as [? ->]; [done|]
      | |- context [f ?c] =>
          destruct (H c) as [? ->]; [set_solver|]
      end
    | progress cbn [mbind option_bind fmap option_fmap option_map] ];
    by eexists.
Qed.

Lemma descend_mono tw tw' n n' :
  (∀ c r, tw c = Some r → tw' c = Some r) →
  descend tw n = Some n' → descend tw' n = Some n'.
Proof.
  intros Hmono H. rewrite <- H. symmetry. apply descend_ext.
  intros c Hc. apply descend_children in H as [H _].
  apply list_elem_of_lookup in Hc as [i Hi].
  destruct (Forall2_lookup_l _ _ _ _ _ H Hi) as (c' & _ & Hc').
  rewrite Hc'. symmetry. by apply Hmono.
Qed.

End Descent.

Section Fuel.

Implicit Types (tw : node → option node) (n : node).

(** ** More fuel gives the same result *)

Lemma replace_loop_mono fuel fuel' replace body out :
  replace_loop fuel replace body = Some out → (fuel ≤ fuel')%nat →
  replace_loop fuel' replace body = Some out.
Proof.
  revert fuel' body out.
  induction fuel as [|fuel IH]; intros fuel' [|child rest] out Hrun Hle.
  - by destruct fuel'.
  - done.
  - by destruct fuel'.
  - destruct fuel' as [|fuel']; [lia|]. cbn [replace_loop] in *.
    destruct (replace child) as [newNodes|].
    + apply IH; [done|lia].
    + destruct (replace_loop fuel replace rest) as [out'|] eqn:E; [|done].
      rewrite (IH fuel' rest out'); [done|done|lia].
Qed.

Lemma replaceInBlock_mono fuel fuel' n f replace n' :
  replaceInBlock fuel n f replace = Some n' → (fuel ≤ fuel')%nat →
  replaceInBlock fuel' n f replace = Some n'.
Proof.
  unfold replaceInBlock. intros H Hle.
  destruct (get_field n f) as [body|single|]; [| |done].
  - destruct (replace_loop fuel replace body) as [out|] eqn:E; [|done].
    by rewrite (replace_loop_mono _ _ _ _ _ E Hle).
  - destruct (replace_loop fuel replace [single]) as [out|] eqn:E; [|done].
    by rewrite (replace_loop_mono _ _ _ _ _ E Hle).
Qed.

Lemma split_sequences_mono fuel fuel' n n' :
  split_sequences fuel n = Some n' → (fuel ≤ fuel')%nat →
  split_sequences fuel' n = Some n'.
Proof.
  unfold split_sequences, removeSequences. intros H Hle.
  destruct (is_Block n); [by eapply replaceInBlock_mono|].
  destruct (is_StatementWithBody n); [|done].
  destruct (replaceInBlock fuel n Body _) as [n1|] eqn:E; [|done].
  rewrite (replaceInBlock_mono _ _ _ _ _ _ E Hle). cbn in *.
  destruct n1; try done. by eapply replaceInBlock_mono.
Qed.

Lemma to_conditional_mono tw tw' fuel fuel' n x :
  (∀ c r, tw c = Some r → tw' c = Some r) → (fuel ≤ fuel')%nat →
  to_conditional tw fuel n = Some x → to_conditional tw' fuel' n = Some x.
Proof.
  intros Htw Hle. unfold to_conditional.
  assert (∀ m, Replace <$> tw m = Some x → Replace <$> tw' m = Some x) as Hr.
  { intros m H. destruct (tw m) as [r|] eqn:E; [|done].
    by rewrite (Htw _ _ E). }
  assert ((if is_Block n || is_StatementWithBody n
           then Descend <$> replaceInBlock fuel n Body void_return
           else Some (Descend n)) = Some x →
          (if is_Block n || is_StatementWithBody n
           then Descend <$> replaceInBlock fuel' n Body void_return
           else Some (Descend n)) = Some x) as Hv.
  { destruct (_ || _); [|done].
    destruct (replaceInBlock fuel n Body void_return) as [r|] eqn:E; [|done].
    by rewrite (replaceInBlock_mono _ _ _ _ _ _ E Hle). }
  destruct n; try apply Hv.
  - destruct (as_Binary _) as [[[op l] r]|].
    + destruct (String.eqb op "&&"); [apply Hr|].
      destruct (String.eqb op "||"); [apply Hr|apply Hv].
    + destruct n; try apply Hv. apply Hr.
  - destruct value as [[]|]; try apply Hv. apply Hr.
Qed.

Lemma transformBefore_mono o tw tw' fuel fuel' n x :
  (∀ c r, tw c = Some r → tw' c = Some r) → (fuel ≤ fuel')%nat →
  transformBefore o tw fuel n = Some x →
  transformBefore o tw' fuel' n = Some x.
Proof.
  intros Htw Hle. unfold transformBefore.
  destruct (if constants o then fold_constant n else None); [done|].
  destruct (if sequences o then split_sequences fuel n else Some n)
    as [n1|] eqn:E; [|done].
  assert ((if sequences o then split_sequences fuel' n else Some n) = Some n1)
    as ->.
  { destruct (sequences o); [|done]. by eapply split_sequences_mono. }
  cbn. destruct (conditionals o); [|done]. by apply to_conditional_mono.
Qed.

Lemma transform_mono o fuel fuel' n n' :
  transform o fuel n = Some n' → (fuel ≤ fuel')%nat →
  transform o fuel' n = Some n'.
Proof.
  revert fuel' n n'. induction fuel as [|fuel IH]; intros fuel' n n' H Hle;
    [done|].
  destruct fuel' as [|fuel']; [lia|]. cbn [transform] in *.
  assert (∀ c r, transform o fuel c = Some r →
                 transform o fuel' c = Some r) as Htw.
  { intros c r Hc. apply IH; [done|lia]. }
  destruct (transformBefore o (transform o fuel) fuel n) as [x|] eqn:E;
    [|done].
  assert (fuel ≤ fuel')%nat as Hle' by lia.
  rewrite (transformBefore_mono _ _ _ _ _ _ _ Htw Hle' E).
  cbn in *. destruct x; [done|]. by eapply descend_mono.
Qed.

(** ** The fuel of [decompress] is enough *)

#[local] Abbreviation weights l := (list_sum (map weight l)).

Lemma list_sum_cons x (l : list nat) : list_sum (x :: l) = (x + list_sum l)%nat.
Proof. done. Qed.

Lemma weight_pos n : (1 ≤ weight n)%nat.
Proof. destruct n; cbn [weight]; lia. Qed.

Lemma weights_app (l1 l2 : list node) :
  weights (l1 ++ l2) = (weights l1 + weights l2)%nat.
Proof. by rewrite map_app, list_sum_app. Qed.

Lemma weights_cons c (l : list node) :
  weights (c :: l) = (weight c + weights l)%nat.
Proof. done. Qed.

Lemma split_definition_weight ds car ds' :
  split_definition ds = Some (car, ds') →
  (weight car +
   list_sum (map (λ sv, 1 + match snd sv with
                            | Some x => weight x
                            | None => 0
                            end) ds') + 3
   = list_sum (map (λ sv, 1 + match snd sv with
                              | Some x => weight x
                              | None => 0
                              end) ds))%nat.
Proof.
  revert car ds'. induction ds as [|[s v] ds IH]; intros car ds'; [done|].
  cbn [split_definition].
  destruct (split_definition ds) as [[car0 rest]|] eqn:E.
  - specialize (IH _ _ eq_refl).
    destruct v as [[]|]; intros [= <- <-];
      cbn [map snd]; rewrite !list_sum_cons; cbn [weight]; lia.
  - destruct v as [[]|]; try done. intros [= <- <-].
    cbn [map snd]. rewrite !list_sum_cons. cbn [weight]. lia.
Qed.

Lemma remove_sequence_weight c ns :
  remove_sequence c = Some ns → (weights ns < weight c)%nat.
Proof.
  intros H. destruct c; cbn [remove_sequence] in H; try done.
  all: repeat match type of H with
       | context [match ?x with _ => _ end] => is_var x; destruct x; try done
       end.
  all: try (injection H as <-; cbn [map list_sum foldr weight]; lia).
  destruct (split_definition definitions0) as [[car ds']|] eqn:E; [|done].
  injection H as <-. apply split_definition_weight in E.
  cbn [map list_sum foldr weight]. lia.
Qed.

Lemma void_return_weight c ns :
  void_return c = Some ns → (weights ns < weight c)%nat.
Proof.
  intros H. destruct c; cbn [void_return] in H; try done.
  repeat match type of H with
  | context [match ?x with _ => _ end] => is_var x; destruct x; try done
  end.
  destruct (String.eqb _ _); [|done]. injection H as <-.
  cbn [map list_sum foldr weight]. lia.
Qed.

(** The loop of [replaceInBlock] ends for a callback that returns less
    than it was given. *)
Lemma replace_loop_weight replace :
  (∀ c ns, replace c = Some ns → (weights ns < weight c)%nat) →
  ∀ fuel body, (weights body ≤ fuel)%nat →
    ∃ out, replace_loop fuel replace body = Some out ∧
           (out = body ∨ (weights out < weights body)%nat).
Proof.
  intros Hless. induction fuel as [|fuel IH]; intros [|child rest] Hw.
  - exists []. split; [done|by left].
  - rewrite weights_cons in Hw. pose proof (weight_pos child). lia.
  - exists []. split; [done|by left].
  - cbn [replace_loop]. rewrite weights_cons in *.
    destruct (replace child) as [newNodes|] eqn:E.
    + apply Hless in E.
      destruct (IH (newNodes ++ rest)) as (out & -> & Hout).
      { rewrite weights_app. lia. }
      exists out. split; [done|right]. rewrite weights_app in Hout.
      destruct Hout as [->|?]; [rewrite weights_app|]; lia.
    + pose proof (weight_pos child).
      destruct (IH rest) as (out & -> & Hout); [lia|].
      exists (child :: out). split; [done|].
      destruct Hout as [->|?]; [by left|right]. rewrite weights_cons. lia.
Qed.

Ltac field_cases H :=
  repeat match type of H with
  | context [match ?x with _ => _ end] => is_var x; destruct x
  end;
  try done; injection H as <-.

Lemma get_field_array_weight n f body :
  get_field n f = FArray body → (weights body < weight n)%nat.
Proof.
  intros H. destruct f, n; cbn [get_field] in H; field_cases H;
    cbn [weight]; lia.
Qed.

Lemma set_field_array_weight n f body out :
  get_field n f = FArray body →
  (weight (set_field_array n f out) + weights body
   = weight n + weights out)%nat.
Proof.
  intros H. destruct f, n; cbn [get_field] in H; field_cases H;
    cbn [set_field_array weight]; lia.
Qed.

Lemma get_field_node_weight n f single :
  get_field n f = FNode single → (weight single < weight n)%nat.
Proof.
  intros H. destruct f, n; cbn [get_field] in H; field_cases H;
    cbn [weight]; lia.
Qed.

Lemma set_field_node_weight n f single b :
  get_field n f = FNode single →
  (weight (set_field_node n f b) + weight single = weight n + weight b)%nat.
Proof.
  intros H. destruct f, n; cbn [get_field] in H; field_cases H;
    cbn [set_field_node weight]; lia.
Qed.

Lemma set_field_node_same n f single :
  get_field n f = FNode single → set_field_node n f single = n.
Proof.
  intros H. destruct f, n; cbn [get_field] in H; by field_cases H.
Qed.

Lemma set_field_array_same n f body :
  get_field n f = FArray body → set_field_array n f body = n.
Proof.
  intros H. destruct f, n; cbn [get_field] in H; by field_cases H.
Qed.

Ltac solve_exists :=
  first [ by eexists
        | eexists; split; [reflexivity|]; cbn; first [done | lia] ].

Lemma replaceInBlock_weight replace fuel n f :
  (∀ c ns, replace c = Some ns → (weights ns < weight c)%nat) →
  (weight n ≤ S fuel)%nat →
  ∃ n', replaceInBlock fuel n f replace = Some n' ∧
        (weight n' ≤ weight n)%nat.
Proof.
  intros Hless Hw. unfold replaceInBlock.
  destruct (get_field n f) as [body|single|] eqn:E; [| |solve_exists].
  - pose proof (get_field_array_weight _ _ _ E).
    destruct (replace_loop_weight replace Hless fuel body)
      as (out & -> & Hout); [lia|].
    eexists. split; [done|].
    pose proof (set_field_array_weight _ _ _ out E).
    destruct Hout as [->|?]; lia.
  - pose proof (get_field_node_weight _ _ _ E).
    destruct (replace_loop_weight replace Hless fuel [single])
      as (out & -> & Hout); [cbn [map list_sum foldr]; lia|].
    eexists. split; [done|]. cbn [map list_sum foldr] in Hout.
    destruct Hout as [->|Hout].
    + by rewrite (set_field_node_same _ _ _ E).
    + destruct out as [|b [|b' out]].
      * pose proof (set_field_node_weight _ _ _ (AST_BlockStatement []) E).
        cbn [weight map list_sum foldr] in *. lia.
      * pose proof (set_field_node_weight _ _ _ b E).
        cbn [weight map list_sum foldr] in *. lia.
      * pose proof (set_field_node_weight _ _ _
                      (AST_BlockStatement (b :: b' :: out)) E).
        cbn [weight map list_sum foldr] in *. lia.
Qed.

Lemma split_sequences_weight fuel n :
  (weight n ≤ S fuel)%nat →
  ∃ n', split_sequences fuel n = Some n' ∧ (weight n' ≤ weight n)%nat.
Proof.
  intros Hw. unfold split_sequences, removeSequences.
  destruct (is_Block n);
    [by apply replaceInBlock_weight; [apply remove_sequence_weight|]|].
  destruct (is_StatementWithBody n); [|solve_exists].
  destruct (replaceInBlock_weight remove_sequence fuel n Body
              remove_sequence_weight Hw) as (n1 & -> & Hn1).
  cbn. destruct n1; try solve_exists.
  destruct (replaceInBlock_weight remove_sequence fuel
              (AST_If n1_1 n1_2 alternative) Alternative
              remove_sequence_weight) as (n2 & -> & Hn2); [lia|].
  eexists. split; [done|lia].
Qed.

Lemma asStatement_weight n : (weight (asStatement n) ≤ 1 + weight n)%nat.
Proof. unfold asStatement. destruct (is_Statement n); cbn [weight]; lia. Qed.

Lemma as_Binary_weight n op l r :
  as_Binary n = Some (op, l, r) → weight n = (5 + weight l + weight r)%nat.
Proof. destruct n; try done; by intros [= <- <- <-]. Qed.

Lemma to_conditional_weight tw fuel n :
  (∀ m, (weight m ≤ fuel)%nat → is_Some (tw m)) →
  (weight n ≤ S fuel)%nat →
  ∃ x, to_conditional tw fuel n = Some x ∧
       match x with
       | Replace _ => True
       | Descend n' => (weight n' ≤ weight n)%nat
       end.
Proof.
  intros Htw Hw. unfold to_conditional.
  assert (∀ m, (weight m ≤ fuel)%nat →
            ∃ x, Replace <$> tw m = Some x ∧
                 match x with
                 | Replace _ => True
                 | Descend n' => (weight n' ≤ weight n)%nat
                 end) as Hr.
  { intros m Hm. destruct (Htw m Hm) as [r ->]. solve_exists. }
  assert (∃ x, (if is_Block n || is_StatementWithBody n
                then Descend <$> replaceInBlock fuel n Body void_return
                else Some (Descend n)) = Some x ∧
               match x with
               | Replace _ => True
               | Descend n' => (weight n' ≤ weight n)%nat
               end) as Hv.
  { destruct (_ || _); [|solve_exists].
    destruct (replaceInBlock_weight void_return fuel n Body
                void_return_weight Hw) as (n' & -> & Hn').
    solve_exists. }
  destruct n; try apply Hv.
  - destruct (as_Binary n) as [[[op l] r]|] eqn:E.
    + apply as_Binary_weight in E. pose proof (asStatement_weight r).
      cbn [weight] in Hw.
      destruct (String.eqb op "&&"); [apply Hr; cbn [weight]; lia|].
      destruct (String.eqb op "||"); [apply Hr; cbn [weight]; lia|apply Hv].
    + destruct n; try apply Hv. apply Hr.
      pose proof (asStatement_weight n2). pose proof (asStatement_weight n3).
      cbn [weight] in *. lia.
  - destruct value as [[]|]; try apply Hv. apply Hr. cbn [weight] in *. lia.
Qed.

(** The transformer returns with as much fuel as the tree weighs. *)
Lemma transform_total o fuel n :
  (weight n ≤ fuel)%nat → is_Some (transform o fuel n).
Proof.
  revert n. induction fuel as [|fuel IH]; intros n Hw.
  { pose proof (weight_pos n). lia. }
  cbn [transform]. unfold transformBefore.
  destruct (if constants o then fold_constant n else None); [solve_exists|].
  assert (∃ n1, (if sequences o then split_sequences fuel n else Some n)
                = Some n1 ∧ (weight n1 ≤ weight n)%nat) as (n1 & -> & Hn1).
  { destruct (sequences o); [by apply split_sequences_weight|solve_exists]. }
  cbn.
  assert (∃ x, (if conditionals o
                then to_conditional (transform o fuel) fuel n1
                else Some (Descend n1)) = Some x ∧
               match x with
               | Replace _ => True
               | Descend n' => (weight n' ≤ weight n1)%nat
               end) as (x & -> & Hx).
  { destruct (conditionals o); [|solve_exists].
    apply to_conditional_weight; [apply IH|lia]. }
  cbn. destruct x as [x|n2]; [solve_exists|].
  apply descend_total. intros c Hc%children_weight. apply IH. lia.
Qed.

(** [decompress] returns a tree for every tree and all options. *)
Lemma decompress_total n userOptions : is_Some (decompress n userOptions).
Proof. apply transform_total. lia. Qed.

(** The result of [decompress] is the result of the transformer with any
    fuel that lets it finish. *)
Lemma decompress_fuel n userOptions fuel n' :
  transform (defaults userOptions) fuel n = Some n' →
  decompress n userOptions = Some n'.
Proof.
  intros H. destruct (decompress_total n userOptions) as [r Hr].
  rewrite Hr. f_equal. unfold decompress in Hr.
  pose proof (transform_mono _ _ (fuel + S (weight n)) _ _ H ltac:(lia)) as H1.
  pose proof (transform_mono _ _ (fuel + S (weight n)) _ _ Hr ltac:(lia))
    as H2.
  congruence.
Qed.

End Fuel.

Section Rules.

Implicit Types (tw : node → option node) (n : node).

(** ** The transformer on an [if] *)

Lemma replace_loop_single fuel replace b out :
  replace_loop fuel replace [b] = Some out → replace b = None → out = [b].
Proof.
  destruct fuel as [|fuel]; [done|]. cbn [replace_loop]. intros H E.
  rewrite E in H. by destruct fuel; injection H as <-.
Qed.

Lemma replaceInBlock_If_body fuel replace c b a n' :
  replaceInBlock fuel (AST_If c b a) Body replace = Some n' →
  ∃ b', n' = AST_If c b' a ∧ (replace b = None → b' = b).
Proof.
  unfold replaceInBlock. cbn [get_field set_field_node].
  destruct (replace_loop fuel replace [b]) as [out|] eqn:E; [|done].
  intros [= <-]. eexists. split; [done|].
  intros Hb. by rewrite (replace_loop_single _ _ _ _ E Hb).
Qed.

Lemma replaceInBlock_If_alternative fuel replace c b a n' :
  replaceInBlock fuel (AST_If c b a) Alternative replace = Some n' →
  ∃ a', n' = AST_If c b a' ∧ (a = None → a' = None) ∧
        (∀ y, a = Some y →
              ∃ y', a' = Some y' ∧ (replace y = None → y' = y)).
Proof.
  unfold replaceInBlock. destruct a as [y|]; cbn [get_field set_field_node].
  - destruct (replace_loop fuel replace [y]) as [out|] eqn:E; [|done].
    intros [= <-]. eexists. split_and!; [done|done|].
    intros ? [= <-]. eexists. split; [done|].
    intros Hy. by rewrite (replace_loop_single _ _ _ _ E Hy).
  - intros [= <-]. exists None. by split_and!.
Qed.

(** The transform of an [if] is an [if]: its condition is the transform
    of the condition, there is an alternative exactly when there was one,
    and a branch that no callback of [replaceInBlock] rewrites is replaced
    by its transform. *)
Lemma transform_If fuel c b a n' :
  transform defaultOptions (S fuel) (AST_If c b a) = Some n' →
  ∃ c' b' a',
    n' = AST_If c' b' a' ∧
    transform defaultOptions fuel c = Some c' ∧
    (remove_sequence b = None → void_return b = None →
     transform defaultOptions fuel b = Some b') ∧
    (a = None → a' = None) ∧
    (∀ y, a = Some y →
          ∃ y', a' = Some y' ∧
                (remove_sequence y = None →
                 transform defaultOptions fuel y = Some y')).
Proof.
  cbn [transform]. unfold transformBefore.
  cbn [defaultOptions constants sequences conditionals fold_constant].
  unfold split_sequences, removeSequences.
  cbn [is_Block is_StatementWithBody]. intros H.
  destruct (replaceInBlock fuel (AST_If c b a) Body remove_sequence)
    as [n1|] eqn:E1; [|done].
  apply replaceInBlock_If_body in E1 as (b1 & -> & Hb1).
  cbn [mbind option_bind] in H.
  destruct (replaceInBlock fuel (AST_If c b1 a) Alternative remove_sequence)
    as [n2|] eqn:E2; [|done].
  apply replaceInBlock_If_alternative in E2 as (a2 & -> & Ha2 & Ha2').
  cbn [mbind option_bind to_conditional is_Block is_StatementWithBody orb]
    in H.
  destruct (replaceInBlock fuel (AST_If c b1 a2) Body void_return)
    as [n3|] eqn:E3; [|done].
  apply replaceInBlock_If_body in E3 as (b3 & -> & Hb3).
  cbn [fmap option_fmap option_map mbind option_bind descend] in H.
  destruct (transform defaultOptions fuel c) as [c'|]; [|done].
  cbn [mbind option_bind] in H.
  destruct (transform defaultOptions fuel b3) as [b'|] eqn:Eb; [|done].
  cbn [mbind option_bind] in H.
  destruct (transform_opt _ a2) as [a'|] eqn:Ea; [|done].
  injection H as <-. exists c', b', a'. split_and!; [done|done|..].
  - intros Hr Hv. rewrite (Hb1 Hr) in *. by rewrite (Hb3 Hv) in Eb.
  - intros ->. rewrite (Ha2 eq_refl) in Ea. by injection Ea as <-.
  - intros y ->. destruct (Ha2' y eq_refl) as (y2 & -> & Hy2).
    cbn [transform_opt] in Ea.
    destruct (transform defaultOptions fuel y2) as [y'|] eqn:Ey; [|done].
    injection Ea as <-. eexists. split; [done|].
    intros Hr. by rewrite (Hy2 Hr) in Ey.
Qed.

(** The result of [decompress] on a subtree, from a run of the
    transformer. *)
Lemma decompress_If c b a :
  ∃ c' b' a',
    decompress (AST_If c b a) None = Some (AST_If c' b' a') ∧
    decompress c None = Some c' ∧
    (remove_sequence b = None → void_return b = None →
     decompress b None = Some b') ∧
    (a = None → a' = None) ∧
    (∀ y, a = Some y →
          ∃ y', a' = Some y' ∧
                (remove_sequence y = None → decompress y None = Some y')).
Proof.
  destruct (decompress_total (AST_If c b a) None) as [n' Hn'].
  pose proof Hn' as H. unfold decompress in H.
  apply transform_If in H as (c' & b' & a' & -> & Hc & Hb & Ha & Ha').
  exists c', b', a'. split_and!; [done| | |done|].
  - by eapply decompress_fuel.
  - intros Hr Hv. by eapply decompress_fuel, Hb.
  - intros y Hy. destruct (Ha' y Hy) as (y' & -> & Hy').
    eexists. split; [done|]. intros Hr. by eapply decompress_fuel, Hy'.
Qed.

(** A rule that hands the visited statement over as an [if]. *)
Lemma decompress_rule n c b a :
  (∀ fuel, transform defaultOptions (S fuel) n
           = transform defaultOptions fuel (AST_If c b a)) →
  decompress n None = decompress (AST_If c b a) None.
Proof.
  intros Hrule. destruct (decompress_total (AST_If c b a) None) as [r Hr].
  rewrite Hr. unfold decompress in Hr.
  apply (decompress_fuel n None (S (S (weight (AST_If c b a))))).
  by rewrite Hrule.
Qed.

(** ** C9: expression statements that become conditionals *)

(** The identifier [name] and the call [name()]. *)
Definition ident (name : string) : node := AST_SymbolRef (Symbol name None).
Definition call0 (name : string) : node := AST_Call (ident name) [].


(** ** C10: an assignment whose right-hand side is a comma expression *)

(** Replacing a statement by what the callback returns for it does not
    change the outcome of the loop. *)
Lemma replace_loop_unfold replace child newNodes :
  replace child = Some newNodes →
  ∀ fuel before rest out,
    replace_loop fuel replace (before ++ newNodes ++ rest) = Some out →
    ∃ fuel', replace_loop fuel' replace (before ++ child :: rest) = Some out.
Proof.
  intros Hchild. induction fuel as [|fuel IH]; intros [|b before] rest out H.
  - exists 1%nat. cbn [app replace_loop]. by rewrite Hchild.
  - done.
  - exists (S (S fuel)). cbn [app replace_loop] in *. by rewrite Hchild.
  - cbn [app replace_loop] in H. destruct (replace b) as [bs|] eqn:Eb.
    + rewrite app_assoc in H. apply IH in H as [fuel' H].
      exists (S fuel'). cbn [app replace_loop]. rewrite Eb.
      by rewrite app_assoc.
    + destruct (replace_loop fuel replace _) as [out'|] eqn:E; [|done].
      injection H as <-. apply IH in E as [fuel' E].
      exists (S fuel'). cbn [app replace_loop]. by rewrite Eb, E.
Qed.


End Rules.

(* ===================================================================== *)
(** * A second run of the normalizer *)
(* ===================================================================== *)

Section Idempotence.

Implicit Types (n c : node) (P : node → bool).

(** ** Properties of every node of a tree *)

Lemma forallb_definitions P (ds : list (symbol * option node)) :
  forallb (λ sv, match snd sv with
                 | Some x => all_nodes P x
                 | None => true
                 end) ds
  = forallb (all_nodes P) (omap snd ds).
Proof.
  induction ds as [|[s [v|]] ds IH]; cbn; [done| |done]. by rewrite IH.
Qed.

Lemma forallb_properties P (ps : list (string * node)) :
  forallb (λ kv, all_nodes P (snd kv)) ps
  = forallb (all_nodes P) (map snd ps).
Proof. induction ps as [|[k v] ps IH]; cbn; [done|]. by rewrite IH. Qed.

Lemma all_nodes_children P n :
  all_nodes P n = P n && forallb (all_nodes P) (children n).
Proof.
  destruct n; cbn [all_nodes children]; f_equal;
    rewrite ?forallb_definitions, ?forallb_properties; try done.
  all: repeat match goal with
       | o : option node |- _ => destruct o
       end; simpl; by rewrite ?andb_true_r, ?andb_assoc.
Qed.

Lemma all_nodes_here P n : all_nodes P n = true → P n = true.
Proof. rewrite all_nodes_children. by intros [? _]%andb_true_iff. Qed.

Lemma all_nodes_child P n c :
  all_nodes P n = true → c ∈ children n → all_nodes P c = true.
Proof.
  rewrite all_nodes_children. intros [_ H]%andb_true_iff Hc.
  rewrite forallb_forall in H. by apply H, list_elem_of_In.
Qed.

Lemma all_nodes_intro P n :
  P n = true → (∀ c, c ∈ children n → all_nodes P c = true) →
  all_nodes P n = true.
Proof.
  intros Hn Hc. rewrite all_nodes_children, Hn. cbn [andb].
  apply forallb_forall. intros c Hin. by apply Hc, list_elem_of_In.
Qed.

Lemma comma_free_child n c :
  comma_free n = true → c ∈ children n → comma_free c = true.
Proof. apply all_nodes_child. Qed.

Lemma settled_child n c :
  settled n = true → c ∈ children n → settled c = true.
Proof. apply all_nodes_child. Qed.

Lemma comma_free_not_sequence n : comma_free n = true → is_Sequence n = false.
Proof. intros H%all_nodes_here. by apply negb_true_iff. Qed.

(** ** The loop of [replaceInBlock] *)

Lemma replace_loop_None fuel (replace : node → option (list node)) body :
  Forall (λ c, replace c = None) body → (length body ≤ fuel)%nat →
  replace_loop fuel replace body = Some body.
Proof.
  revert body. induction fuel as [|fuel IH]; intros [|c rest] Hall Hlen;
    cbn [replace_loop]; try done; cbn [length] in Hlen; [lia|].
  apply Forall_cons in Hall as [-> Hall]. rewrite IH by (done || lia). done.
Qed.

Lemma replace_loop_None_inv fuel (replace : node → option (list node))
    body out :
  Forall (λ c, replace c = None) body →
  replace_loop fuel replace body = Some out → out = body.
Proof.
  revert body out.
  induction fuel as [|fuel IH]; intros [|c rest] out Hall;
    cbn [replace_loop]; try by intros [= <-].
  apply Forall_cons in Hall as [-> Hall].
  destruct (replace_loop fuel replace rest) as [out'|] eqn:E; [|done].
  intros [= <-]. f_equal. by apply IH.
Qed.

(** No node the loop leaves behind is one the callback rewrites. *)
Lemma replace_loop_post fuel (replace : node → option (list node)) body out :
  replace_loop fuel replace body = Some out →
  Forall (λ c, replace c = None) out.
Proof.
  revert body out.
  induction fuel as [|fuel IH]; intros [|c rest] out;
    cbn [replace_loop]; try (by intros [= <-]).
  destruct (replace c) as [ns|] eqn:E; [by apply IH|].
  destruct (replace_loop fuel replace rest) as [out'|] eqn:E'; [|done].
  intros [= <-]. apply Forall_cons. split; [done|]. by eapply IH.
Qed.

Lemma replace_loop_Forall (Q : node → Prop) fuel
    (replace : node → option (list node)) body out :
  (∀ c ns, replace c = Some ns → Q c → Forall Q ns) →
  Forall Q body → replace_loop fuel replace body = Some out → Forall Q out.
Proof.
  intros Hstep. revert body out.
  induction fuel as [|fuel IH]; intros [|c rest] out Hall;
    cbn [replace_loop]; try (by intros [= <-]).
  apply Forall_cons in Hall as [Hc Hall].
  destruct (replace c) as [ns|] eqn:E.
  - apply IH, Forall_app. split; [by eapply Hstep|done].
  - destruct (replace_loop fuel replace rest) as [out'|] eqn:E'; [|done].
    intros [= <-]. apply Forall_cons. split; [done|]. by eapply IH.
Qed.

(** ** Sequence splitting on a tree without comma expressions *)

Lemma split_definition_comma_free ds :
  comma_free (AST_Var ds) = true → split_definition ds = None.
Proof.
  unfold comma_free. cbn [all_nodes is_Sequence negb andb].
  induction ds as [|[s [v|]] ds IH]; cbn [forallb snd split_definition];
    [done| |].
  - intros [Hv Hds]%andb_true_iff. rewrite (IH Hds).
    apply all_nodes_here, negb_true_iff in Hv. by destruct v.
  - intros Hds. by rewrite (IH Hds).
Qed.

Lemma remove_sequence_comma_free c :
  comma_free c = true → remove_sequence c = None.
Proof.
  intros H. destruct c; try done.
  all: try (cbn [remove_sequence]; by rewrite split_definition_comma_free).
  all: cbn [remove_sequence];
    repeat match goal with
    | |- context [match ?x with _ => _ end] => destruct x
    end; try done.
  all: unfold comma_free in H; simpl in H;
    by rewrite ?andb_false_r in H.
Qed.

Lemma get_field_array_children n f body c :
  get_field n f = FArray body → c ∈ body → c ∈ children n.
Proof.
  intros H. destruct f, n; cbn [get_field] in H; try done;
    repeat match goal with
    | H : context [match ?x with _ => _ end] |- _ => destruct x
    end; try done; injection H as <-; cbn [children]; set_solver.
Qed.

Lemma get_field_node_children n f b :
  get_field n f = FNode b → b ∈ children n.
Proof.
  intros H. destruct f, n; cbn [get_field] in H; try done;
    repeat match goal with
    | H : context [match ?x with _ => _ end] |- _ => destruct x
    end; try done; injection H as <-; cbn [children]; simpl; set_solver.
Qed.

(** What a callback has to say of the nodes of a field for
    [replaceInBlock] to leave the node as it is. *)
Definition untouched (replace : node → option (list node)) (n : node)
    (f : field) : Prop :=
  match get_field n f with
  | FArray body => Forall (λ c, replace c = None) body
  | FNode b => replace b = None
  | FNull => True
  end.

Lemma replaceInBlock_untouched_inv fuel n f replace n' :
  untouched replace n f →
  replaceInBlock fuel n f replace = Some n' → n' = n.
Proof.
  unfold untouched, replaceInBlock.
  destruct (get_field n f) as [body|b|] eqn:E; intros Hu.
  - destruct (replace_loop fuel replace body) as [out|] eqn:El; [|done].
    intros [= <-]. apply replace_loop_None_inv in El as ->; [|done].
    by apply set_field_array_same.
  - destruct (replace_loop fuel replace [b]) as [out|] eqn:El; [|done].
    intros [= <-]. apply replace_loop_single in El as ->; [|done].
    by apply set_field_node_same.
  - by intros [= <-].
Qed.

Lemma untouched_remove_sequence n f :
  comma_free n = true → untouched remove_sequence n f.
Proof.
  intros H. unfold untouched.
  destruct (get_field n f) as [body|b|] eqn:E; [| |done].
  - apply Forall_forall. intros c Hc. apply remove_sequence_comma_free.
    eapply comma_free_child; [done|]. by eapply get_field_array_children.
  - apply remove_sequence_comma_free.
    eapply comma_free_child; [done|]. by eapply get_field_node_children.
Qed.

Lemma split_sequences_comma_free fuel n n1 :
  comma_free n = true → split_sequences fuel n = Some n1 → n1 = n.
Proof.
  intros H. unfold split_sequences, removeSequences.
  destruct (is_Block n).
  { apply replaceInBlock_untouched_inv. by apply untouched_remove_sequence. }
  destruct (is_StatementWithBody n); [|by intros [= <-]].
  destruct (replaceInBlock fuel n Body remove_sequence) as [n2|] eqn:E;
    [|done].
  apply replaceInBlock_untouched_inv in E as ->;
    [|by apply untouched_remove_sequence].
  cbn [mbind option_bind]. destruct n; try by intros [= <-].
  apply replaceInBlock_untouched_inv. by apply untouched_remove_sequence.
Qed.

(** ** The conditional rules in one piece *)

Lemma to_conditional_eq tw fuel n :
  to_conditional tw fuel n =
  match conditional_of n with
  | Some i => Replace <$> tw i
  | None =>
      if is_Block n || is_StatementWithBody n
      then Descend <$> replaceInBlock fuel n Body void_return
      else Some (Descend n)
  end.
Proof.
  destruct n; try done; unfold to_conditional, conditional_of.
  - destruct (as_Binary n) as [[[op l] r]|].
    + by repeat case_match.
    + by destruct n.
  - by repeat case_match.
Qed.

(** The three ways a node without comma expressions is transformed. *)
Lemma transform_cases fuel n n' :
  comma_free n = true →
  transform defaultOptions (S fuel) n = Some n' →
  fold_constant n = Some n' ∨
  (fold_constant n = None ∧
   ∃ i, conditional_of n = Some i ∧
        transform defaultOptions fuel i = Some n') ∨
  (fold_constant n = None ∧ conditional_of n = None ∧
   ∃ n2, (if is_Block n || is_StatementWithBody n
          then replaceInBlock fuel n Body void_return = Some n2
          else n2 = n) ∧
         descend (transform defaultOptions fuel) n2 = Some n').
Proof.
  intros Hcf. cbn [transform]. unfold transformBefore.
  cbn [defaultOptions constants sequences conditionals].
  destruct (fold_constant n) as [literal|]; [intros [= <-]; by left|].
  destruct (split_sequences fuel n) as [n1|] eqn:E1; [|done].
  apply split_sequences_comma_free in E1 as ->; [|done].
  cbn [mbind option_bind]. rewrite to_conditional_eq.
  destruct (conditional_of n) as [i|].
  - destruct (transform defaultOptions fuel i) as [r|] eqn:Er; [|done].
    intros [= <-]. right; left. eauto.
  - destruct (is_Block n || is_StatementWithBody n).
    + destruct (replaceInBlock fuel n Body void_return) as [n2|] eqn:E2;
        [|done].
      intros H. right; right. eauto.
    + intros H. right; right. eauto.
Qed.

(** ** The rule on [return void] *)

Lemma void_return_comma_free c ns :
  void_return c = Some ns → comma_free c = true →
  Forall (λ x, comma_free x = true) ns.
Proof.
  destruct c as [| | | | | | | | | | |[[]|]| | | | | | | | | | | | | | | | | |];
    try done.
  cbn [void_return]. destruct (String.eqb _ "void"); [|done].
  intros [= <-] Hcf.
  unfold comma_free in *. simpl in Hcf. repeat constructor. exact Hcf.
Qed.

Lemma void_returns_loop fuel body out :
  replace_loop fuel void_return body = Some out →
  Forall (λ x, comma_free x = true) body →
  Forall (λ x, comma_free x = true) out ∧
  Forall (λ x, void_return x = None) out.
Proof.
  intros E Hbody. split; [|by eapply replace_loop_post].
  eapply replace_loop_Forall; [|exact Hbody|exact E].
  intros c ns. apply void_return_comma_free.
Qed.

Lemma quiet_statements (l : list node) :
  Forall (λ x, void_return x = None) l →
  forallb (λ c, bool_decide (void_return c = None)) l = true.
Proof.
  intros H. apply forallb_forall. intros c Hc%list_elem_of_In.
  apply bool_decide_eq_true. by eapply Forall_forall in H.
Qed.

(** The statement [replaceInBlock] puts in a field that held one node. *)
Lemma single_or_block (out : list node) :
  Forall (λ x, comma_free x = true) out →
  Forall (λ x, void_return x = None) out →
  comma_free match out with [b] => b | _ => AST_BlockStatement out end = true
  ∧ void_return match out with [b] => b | _ => AST_BlockStatement out end
    = None.
Proof.
  intros Hcf Hq.
  assert (comma_free (AST_BlockStatement out) = true) as Hblock.
  { apply all_nodes_intro; [done|]. intros c Hc.
    by eapply Forall_forall in Hcf. }
  destruct out as [|b [|b' out]]; [done| |done].
  by apply Forall_cons in Hcf as [? _], Hq as [? _].
Qed.

Ltac old_child Hcf :=
  eapply comma_free_child; [exact Hcf|]; simpl; set_solver.

Lemma void_step fuel n n2 :
  comma_free n = true → is_Block n || is_StatementWithBody n = true →
  replaceInBlock fuel n Body void_return = Some n2 →
  comma_free n2 = true ∧ quiet_body n2 = true ∧
  fold_constant n2 = None ∧ conditional_of n2 = None.
Proof.
  intros Hcf Hkind. unfold replaceInBlock.
  destruct n; try discriminate Hkind; cbn [get_field].
  all: match goal with
       | |- context [replace_loop ?f void_return ?body] =>
           destruct (replace_loop f void_return body) as [out|] eqn:E;
             [|done];
           apply void_returns_loop in E as [Hout Hq];
             [|apply Forall_forall; intros x Hx; try apply list_elem_of_singleton in Hx as ->; old_child Hcf]
       end.
  all: intros [= <-]; cbn [set_field_array set_field_node].
  all: try (destruct (single_or_block out Hout Hq) as [Hb Hbq]).
  all: refine (conj _ (conj _ (conj eq_refl eq_refl))).
  all: try (unfold quiet_body; cbn [is_Block is_StatementWithBody orb get_field];
            first [ by apply quiet_statements | by apply bool_decide_eq_true ]).
  all: apply all_nodes_intro; [done|]; intros x Hx; simpl in Hx;
    repeat (rewrite elem_of_cons in Hx || rewrite elem_of_app in Hx);
    destruct_or?; subst;
    first [ exact Hb
          | by eapply Forall_forall in Hout
          | by apply not_elem_of_nil in Hx
          | old_child Hcf ].
Qed.

(** ** What a transform looks like *)

Definition is_literal (n : node) : bool :=
  match n with
  | AST_NaN | AST_Infinity | AST_True | AST_False => true
  | _ => false
  end.

Lemma fold_constant_literal n x :
  fold_constant n = Some x → is_literal x = true.
Proof.
  intros H. destruct n; try done; cbn [fold_constant] in H.
  all: repeat (case_match; try done); by injection H as <-.
Qed.

Lemma conditional_of_If n i :
  conditional_of n = Some i → ∃ c b a, i = AST_If c b a.
Proof.
  intros H. destruct n; try done; cbn [conditional_of] in H.
  all: repeat (case_match; try done); injection H as <-; eauto.
Qed.

Lemma conditional_of_comma_free n i :
  comma_free n = true → conditional_of n = Some i → comma_free i = true.
Proof.
  intros Hcf H. destruct n; try done; cbn [conditional_of] in H.
  - unfold as_Binary in H.
    destruct n; try done; repeat (case_match; try done);
      injection H as <-; unfold comma_free, asStatement in *;
      simpl in Hcf; simpl; repeat case_match; simpl;
      repeat (apply andb_true_iff in Hcf as [Hcf ?]);
      rewrite ?andb_true_iff; try done;
      repeat split; try done;
      by match goal with
         | H : all_nodes _ ?n = true |- _ => apply all_nodes_here in H
         end.
  - repeat (case_match; try done); injection H as <-.
    unfold comma_free in *. simpl in Hcf. simpl.
    repeat (apply andb_true_iff in Hcf as [Hcf ?]).
    by rewrite !andb_true_iff.
Qed.

Lemma is_Block_strip n : is_Block (strip n) = is_Block n.
Proof. by destruct n. Qed.

Lemma is_StatementWithBody_strip n :
  is_StatementWithBody (strip n) = is_StatementWithBody n.
Proof. by destruct n. Qed.

Lemma is_Sequence_strip n : is_Sequence (strip n) = is_Sequence n.
Proof. by destruct n. Qed.

Lemma replaceInBlock_kind fuel n f replace n' :
  replaceInBlock fuel n f replace = Some n' →
  is_Block n' = is_Block n ∧
  is_StatementWithBody n' = is_StatementWithBody n.
Proof.
  unfold replaceInBlock.
  destruct (get_field n f) as [body|b|] eqn:E.
  - destruct (replace_loop fuel replace body) as [out|]; [|done].
    intros [= <-]. by destruct f, n.
  - destruct (replace_loop fuel replace [b]) as [out|]; [|done].
    intros [= <-]. by destruct f, n.
  - by intros [= <-].
Qed.

Lemma transform_If_kind fuel c b a n' :
  transform defaultOptions fuel (AST_If c b a) = Some n' →
  is_StatementWithBody n' = true.
Proof.
  destruct fuel as [|fuel]; [done|].
  by intros (? & ? & ? & -> & _)%transform_If.
Qed.

(** A transform that is neither a literal nor a statement that holds
    statements is the descent into the node itself. *)
Lemma transform_shape fuel c c' :
  comma_free c = true → transform defaultOptions fuel c = Some c' →
  is_Block c' || is_StatementWithBody c' = false → is_literal c' = false →
  strip c' = strip c ∧
  Forall2 (λ x x', transform defaultOptions (pred fuel) x = Some x')
    (children c) (children c').
Proof.
  intros Hcf H Hkind Hlit. destruct fuel as [|fuel]; [done|].
  apply transform_cases in H
    as [H | [(_ & i & Hi & H) | (_ & _ & n2 & Hn2 & H)]]; [| | |done].
  - apply fold_constant_literal in H. congruence.
  - apply conditional_of_If in Hi as (? & ? & ? & ->).
    apply transform_If_kind in H. rewrite H, orb_true_r in Hkind. done.
  - apply descend_children in H as [Hchildren Hstrip].
    destruct (is_Block c || is_StatementWithBody c) eqn:Ec;
      [|by subst n2].
    apply replaceInBlock_kind in Hn2 as [Hb Hs].
    rewrite <- (is_Block_strip c'), <- (is_StatementWithBody_strip c'),
      Hstrip, is_Block_strip, is_StatementWithBody_strip, Hb, Hs, Ec
      in Hkind.
    done.
Qed.

Lemma transform_Number fuel c v :
  comma_free c = true →
  transform defaultOptions fuel c = Some (AST_Number v) → c = AST_Number v.
Proof.
  intros Hcf H. apply transform_shape in H as [Hs _]; try done.
  destruct c; try done.
Qed.

(** ** The rules after the descent *)

Section AfterDescent.

Variables (fuel : nat) (n n' : node).
Hypothesis Hcf : comma_free n = true.
Hypothesis Hdescend : descend (transform defaultOptions fuel) n = Some n'.

Lemma fold_constant_descend : fold_constant n = None → fold_constant n' = None.
Proof using Hcf Hdescend.
  destruct n; cbn [descend] in Hdescend; simplify_option_eq; try done.
  all: intros Hfold; cbn [fold_constant];
    repeat match goal with
    | |- context [match ?x with _ => _ end] =>
        lazymatch type of x with
        | node => destruct x; try done
        end
    end.
  all: repeat match goal with
       | H : transform _ _ _ = Some (AST_Number _) |- _ =>
           apply transform_Number in H as ->;
             [|eapply comma_free_child; [exact Hcf|simpl; set_solver]]
       end; done.
Qed.

Lemma conditional_of_descend :
  conditional_of n = None → conditional_of n' = None.
Proof using Hcf Hdescend.
  destruct n; cbn [descend] in Hdescend; simplify_option_eq; try done.
  - (* a simple statement *)
    match goal with
    | H : transform _ _ ?b = Some ?b' |- _ =>
        rename H into Hb; rename b into body; rename b' into body'
    end.
    assert (comma_free body = true) as Hbody
      by (eapply comma_free_child; [exact Hcf|simpl; set_solver]).
    destruct body'; try done;
      apply transform_shape in Hb as [Hs _]; try done;
      destruct body; try done; cbn [strip] in Hs; simplify_eq;
      cbn [as_Binary conditional_of]; by repeat case_match.
  - (* a return *)
    match goal with
    | H : transform_opt _ ?v = Some ?v' |- _ =>
        rename H into Hv; destruct v as [value|], v' as [value'|];
          try done; cbn in Hv; simplify_option_eq
    end.
    match goal with
    | H : transform _ _ _ = Some _ |- _ => rename H into Hv
    end.
    assert (comma_free value = true) as Hvalue
      by (eapply comma_free_child; [exact Hcf|simpl; set_solver]).
    destruct value'; try done;
      apply transform_shape in Hv as [Hs _]; try done;
      destruct value; try done.
Qed.

End AfterDescent.

Lemma void_return_transform fuel c c' :
  comma_free c = true → transform defaultOptions fuel c = Some c' →
  void_return c = None → void_return c' = None.
Proof.
  intros Hcf H Hvoid.
  destruct c' as [| | | | | | | | | | |[[]|]| | | | | | | | | | | | | | | | | |];
    try done.
  apply transform_shape in H as [Hs Hchildren]; try done.
  destruct c as [| | | | | | | | | | |[value|]| | | | | | | | | | | | | | | | | |];
    try done.
  simpl in Hchildren. apply Forall2_cons_1 in Hchildren as [Hvalue _].
  apply transform_shape in Hvalue as [Hs' _]; try done.
  destruct value; try done. cbn [strip] in Hs'. simplify_eq.
  cbn [void_return] in *. by case_match.
Qed.

Lemma void_return_mapM fuel (b b' : list node) :
  Forall (λ x, comma_free x = true) b →
  mapM (transform defaultOptions fuel) b = Some b' →
  forallb (λ c, bool_decide (void_return c = None)) b = true →
  forallb (λ c, bool_decide (void_return c = None)) b' = true.
Proof.
  intros Hcf HM%mapM_Some_1. induction HM as [|c c' b b' Hc HM IH];
    cbn [forallb]; [done|].
  apply Forall_cons in Hcf as [Hc1 Hcf].
  intros [H1%bool_decide_eq_true H2]%andb_true_iff.
  apply andb_true_iff. split; [|by apply IH].
  apply bool_decide_eq_true. by eapply void_return_transform.
Qed.

Lemma quiet_body_descend fuel n n' :
  comma_free n = true →
  descend (transform defaultOptions fuel) n = Some n' →
  quiet_body n = true → quiet_body n' = true.
Proof.
  intros Hcf Hd. destruct n; cbn [descend] in Hd; simplify_option_eq;
    try done; unfold quiet_body;
    cbn [is_Block is_StatementWithBody orb get_field].
  all: try (eapply void_return_mapM; [|done];
            apply Forall_forall; intros x Hx; old_child Hcf).
  all: rewrite !bool_decide_eq_true; eapply void_return_transform; [|done];
    old_child Hcf.
Qed.

(** ** One run settles a tree without comma expressions *)

Lemma transform_settled fuel :
  ∀ n n', comma_free n = true →
    transform defaultOptions fuel n = Some n' →
    comma_free n' = true ∧ settled n' = true.
Proof.
  induction fuel as [|fuel IH]; [done|]. intros n n' Hcf H.
  apply transform_cases in H
    as [H | [(_ & i & Hi & H) | (Hf & Hc & n2 & Hn2 & H)]]; [| | |done].
  - apply fold_constant_literal in H. by destruct n'.
  - eapply IH; [|exact H]. by eapply conditional_of_comma_free.
  - assert (comma_free n2 = true ∧ quiet_body n2 = true ∧
            fold_constant n2 = None ∧ conditional_of n2 = None)
      as (Hcf2 & Hq2 & Hf2 & Hc2).
    { destruct (is_Block n || is_StatementWithBody n) eqn:E;
        [by eapply void_step|].
      subst n2. split_and!; try done. unfold quiet_body. by rewrite E. }
    pose proof (descend_children _ _ _ H) as [Hchildren Hs].
    assert (∀ c', c' ∈ children n' →
                  comma_free c' = true ∧ settled c' = true) as Hch.
    { intros c' [k Hk]%list_elem_of_lookup.
      destruct (Forall2_lookup_r _ _ _ _ _ Hchildren Hk) as (c & Hck & Htw).
      eapply IH; [|exact Htw].
      eapply comma_free_child; [exact Hcf2|].
      by eapply list_elem_of_lookup_2. }
    split.
    + apply all_nodes_intro; [|intros; by apply Hch].
      rewrite <- is_Sequence_strip, Hs, is_Sequence_strip.
      by rewrite comma_free_not_sequence.
    + apply all_nodes_intro; [|intros; by apply Hch].
      unfold idle. rewrite !andb_true_iff, !bool_decide_eq_true.
      split_and!.
      * by eapply fold_constant_descend.
      * by eapply conditional_of_descend.
      * by eapply quiet_body_descend.
Qed.

(** ** A settled tree without comma expressions is left as it is *)

Lemma settled_fixed fuel :
  ∀ n, comma_free n = true → settled n = true → (weight n ≤ fuel)%nat →
    transform defaultOptions fuel n = Some n.
Proof.
  induction fuel as [|fuel IH]; intros n Hcf Hs Hw.
  { pose proof (weight_pos n). lia. }
  destruct (transform_total defaultOptions (S fuel) n Hw) as [n' H].
  rewrite H. f_equal.
  pose proof (all_nodes_here _ _ Hs) as Hidle. unfold idle in Hidle.
  rewrite !andb_true_iff, !bool_decide_eq_true in Hidle.
  destruct Hidle as [[Hf Hc] Hq].
  apply transform_cases in H
    as [H | [(_ & i & Hi & H) | (_ & _ & n2 & Hn2 & H)]];
    [congruence|congruence| |done].
  assert (n2 = n) as ->.
  { destruct (is_Block n || is_StatementWithBody n) eqn:E; [|done].
    eapply replaceInBlock_untouched_inv; [|exact Hn2].
    unfold untouched. unfold quiet_body in Hq. rewrite E in Hq.
    destruct (get_field n Body); [| |done].
    - apply Forall_forall. intros c Hin%list_elem_of_In.
      rewrite forallb_forall in Hq.
      by apply (bool_decide_eq_true_1 _ (Hq c Hin)).
    - by apply bool_decide_eq_true in Hq. }
  rewrite descend_id in H; [by injection H|].
  intros c Hin. apply IH.
  - by eapply comma_free_child.
  - by eapply settled_child.
  - apply children_weight in Hin. lia.
Qed.

(** ** C8: a second run *)

Definition no_defs : defs := MkDefs 0 ∅.

(** [(a, b) ? c : d;] *)
Definition sequence_condition : node :=
  AST_Toplevel
    [AST_SimpleStatement
       (AST_Conditional (AST_Sequence (ident "a") (ident "b"))
          (ident "c") (ident "d"))].

(** [if (a, b) { c; } else { d; }] *)
Definition sequence_condition_once : node :=
  AST_Toplevel
    [AST_If (AST_Sequence (ident "a") (ident "b"))
       (AST_SimpleStatement (ident "c"))
       (Some (AST_SimpleStatement (ident "d")))].

(** [a; if (b) { c; } else { d; }] *)
Definition sequence_condition_twice : node :=
  AST_Toplevel
    [AST_SimpleStatement (ident "a");
     AST_If (ident "b")
       (AST_SimpleStatement (ident "c"))
       (Some (AST_SimpleStatement (ident "d")))].



(** The module [fib] of the tests as the normalizer leaves it:
    [function fib(n) { if (n < 2) { return n; }
                       else { return fib(n - 1) + fib(n - 2); } }
     module.exports = fib;] *)
Definition fib_normalized : list node :=
  let n := AST_SymbolRef (Symbol "n" (Some 8%nat)) in
  let fib := AST_SymbolRef (Symbol "fib" (Some 7%nat)) in
  [AST_Defun (Symbol "fib" (Some 7%nat)) [Symbol "n" (Some 8%nat)]
     [AST_If (AST_Binary "<" n (AST_Number 2))
        (AST_Return (Some n))
        (Some (AST_Return
                 (Some (AST_Binary "+"
                          (AST_Call fib [AST_Binary "-" n (AST_Number 1)])
                          (AST_Call fib [AST_Binary "-" n (AST_Number 2)])))))];
   AST_SimpleStatement
     (AST_Assign "=" (AST_Dot (AST_SymbolRef (Symbol "module" (Some 5%nat)))
                              "exports") fib)].


End Idempotence.

(* ===================================================================== *)
(** * The round trip of a module *)
(* ===================================================================== *)

Section RoundTrip.

Variable isBuiltinModule : string → bool.

(** ** Calls the visitor of [updateRequires] leaves as they are *)

(** A call with a single string argument whose base name is no truthy
    member of the array [mapping]; every other node. *)
Definition unrewritten (mapping : list (string * option string))
    (n : node) : bool :=
  match n with
  | AST_Call _ [AST_String value] =>
      negb (member_truthy (array_get mapping (path.basename value ".js")))
  | _ => true
  end.

Lemma map_id_elem {A} (f : A → A) (l : list A) :
  (∀ x, x ∈ l → f x = x) → map f l = l.
Proof.
  induction l as [|x l IH]; intros H; cbn [map]; [done|].
  rewrite H by apply list_elem_of_here. f_equal. apply IH.
  intros y Hy. apply H. by apply elem_of_cons; right.
Qed.

Lemma fmap_id_elem (f : node → node) (o : option node) :
  (∀ x, x ∈ option_list o → f x = x) → f <$> o = o.
Proof.
  destruct o as [x|]; intros H; [|done]. cbn. rewrite H; [done|].
  simpl. apply list_elem_of_here.
Qed.

Lemma map_definitions_id (f : node → node) (ds : list (symbol * option node)) :
  (∀ x, x ∈ omap snd ds → f x = x) →
  map (λ sv, (fst sv, f <$> snd sv)) ds = ds.
Proof.
  induction ds as [|[s [v|]] ds IH]; intros H; cbn [map fst snd]; [done| |].
  - cbn. rewrite H by (simpl; apply list_elem_of_here). f_equal. apply IH.
    intros y Hy. apply H. simpl. by apply elem_of_cons; right.
  - cbn. f_equal. apply IH. intros y Hy. by apply H.
Qed.

Lemma map_properties_id (f : node → node) (ps : list (string * node)) :
  (∀ x, x ∈ map snd ps → f x = x) →
  map (λ kv, (fst kv, f (snd kv))) ps = ps.
Proof.
  induction ps as [|[k v] ps IH]; intros H; cbn [map fst snd]; [done|].
  rewrite H by (simpl; apply list_elem_of_here). f_equal. apply IH.
  intros y Hy. apply H. simpl. by apply elem_of_cons; right.
Qed.

Lemma update_requires_walk_id d mapping n :
  all_nodes (unrewritten mapping) n = true →
  update_requires_walk d mapping n = n.
Proof.
  induction n as [n IH] using node_children_ind. intros Hall.
  assert (∀ c, c ∈ children n → update_requires_walk d mapping c = c) as Hc.
  { intros c Hin. apply IH; [done|]. by eapply all_nodes_child. }
  apply all_nodes_here in Hall. clear IH.
  destruct n; cbn [update_requires_walk children] in *; try done.
  all: rewrite ?map_definitions_id, ?map_properties_id by done.
  all: rewrite ?(map_id_elem (update_requires_walk d mapping)), ?Hc,
         ?fmap_id_elem;
    try done; try (simpl; set_solver).
  destruct args as [|[] [|]]; try done.
  destruct (is_require d n); [|done].
  cbn [unrewritten] in Hall. apply negb_true_iff in Hall.
  unfold require_argument. by rewrite Hall.
Qed.

(** ** Arguments [renameArguments] leaves as they are *)

(** The arguments have the names of the module wrapper. *)
Definition canonical_arguments (f : ModuleFunction) : Prop :=
  ∀ i arg, fn_argnames f !! i = Some arg →
           argNames !! i = Some (sym_name arg).

Lemma rename_arguments_from_canonical i d args :
  (∀ j arg, args !! j = Some arg →
            argNames !! (i + j)%nat = Some (sym_name arg)) →
  rename_arguments_from i d args = (d, args).
Proof.
  revert i. induction args as [|arg rest IH]; intros i H; [done|].
  cbn [rename_arguments_from]. unfold rename_argument.
  pose proof (H 0%nat arg eq_refl) as H0. rewrite Nat.add_0_r in H0.
  rewrite decide_True by done. rewrite IH; [done|].
  intros j arg' Hj. replace (S i + j)%nat with (i + S j)%nat by lia.
  by apply H.
Qed.

Lemma renameArguments_canonical d f :
  canonical_arguments f → renameArguments d f = (d, f).
Proof.
  intros H. unfold renameArguments.
  rewrite rename_arguments_from_canonical by done. by destruct f.
Qed.

(** ** The assembler on a module of its own *)

(** What the assembler does with a module whose arguments and calls it
    leaves as they are: the body is appended to the tree of the name. *)
Lemma assemble_module_plain a m :
  canonical_arguments (mp_moduleFunction m) →
  Forall (λ s, all_nodes (unrewritten (moduleMapping m)) s = true)
    (fn_body (mp_moduleFunction m)) →
  assemble_module a m =
  MkAssembly
    (<[property_key (moduleName m) :=
         AST_Toplevel
           (toplevel_body
              (default (AST_Toplevel [])
                 (modules a !! property_key (moduleName m)))
            ++ fn_body (mp_moduleFunction m))]> (modules a))
    (definitions a) (dependencies a).
Proof.
  intros Hargs Hbody. unfold assemble_module.
  rewrite renameArguments_canonical by done.
  unfold updateRequires. cbn [fn_body]. rewrite map_id_elem; [done|].
  intros s Hs. apply update_requires_walk_id.
  by eapply Forall_forall in Hbody.
Qed.

Lemma assemble_module_definitions a m :
  canonical_arguments (mp_moduleFunction m) →
  definitions (assemble_module a m) = definitions a.
Proof.
  intros Hargs. unfold assemble_module.
  by rewrite renameArguments_canonical.
Qed.

Lemma fold_assemble_definitions ms a :
  (∀ m, m ∈ ms → canonical_arguments (mp_moduleFunction m)) →
  definitions (fold_left assemble_module ms a) = definitions a.
Proof.
  revert a. induction ms as [|m ms IH]; intros a Hms; [done|].
  simpl. rewrite IH.
  - apply assemble_module_definitions, Hms, list_elem_of_here.
  - intros m' Hm'. apply Hms. by apply elem_of_cons; right.
Qed.

(** ** The filters *)

Lemma filter_with_each {A S} (f : S → A → result (bool * S)) s l r x :
  filter_with f s l = Ok r → x ∈ l → ∃ s0 r0, f s0 x = Ok r0.
Proof.
  revert s r. induction l as [|y l IH]; intros s r; simpl.
  - intros _ Hx. by apply not_elem_of_nil in Hx.
  - destruct (f s y) as [[keep s1]|] eqn:E; [|done]. simpl.
    destruct (filter_with f s1 l) as [[kept s2]|] eqn:E'; [|done].
    intros _ [-> | Hx]%elem_of_cons; [by eauto|]. by eapply IH.
Qed.

(** An element that the callback keeps whatever the state stays where it
    is among the elements kept. *)
Lemma filter_with_split {A S} (f : S → A → result (bool * S)) s
    before p after kept s' :
  filter_with f s (before ++ p :: after) = Ok (kept, s') →
  (∀ s0 keep s1, f s0 p = Ok (keep, s1) → keep = true) →
  ∃ kept_before kept_after,
    kept = kept_before ++ p :: kept_after ∧
    (∀ x, x ∈ kept_before → x ∈ before) ∧
    (∀ x, x ∈ kept_after → x ∈ after).
Proof.
  intros H Hp. revert s kept H.
  induction before as [|y before IH]; intros s kept; simpl.
  - destruct (f s p) as [[keep s1]|] eqn:E; [|done]. simpl.
    destruct (filter_with f s1 after) as [[kept' s2]|] eqn:E'; [|done].
    simpl. intros [= <- <-]. rewrite (Hp _ _ _ E).
    exists [], kept'. split_and!; [done|set_solver|].
    intros x Hx. by eapply filter_with_kept.
  - destruct (f s y) as [[keep s1]|] eqn:E; [|done]. simpl.
    destruct (filter_with f s1 (before ++ p :: after))
      as [[kept' s2]|] eqn:E'; [|done].
    simpl. intros [= <- <-].
    destruct (IH _ _ E') as (kb & ka & -> & Hkb & Hka).
    destruct keep.
    + exists (y :: kb), ka. split_and!; [done| |done].
      intros x [-> | Hx]%elem_of_cons; [left|right; auto].
    + exists kb, ka. split_and!; [done| |done].
      intros x Hx. right. auto.
Qed.

(** ** C6: the round trip *)

(** The program tree of the source of a module on its own: the
    statements of the source are the body of the module function. *)
Definition standalone (p : ObjectProperty) : node :=
  AST_Toplevel (fn_body (moduleFunction p)).


End RoundTrip.

(** The text the module [fib] of the tests is printed as once it is
    normalized: an [if] with an [else], a [return] in each branch. *)
Definition fib_text : string :=
  String.concat newline
    ["function fib(n) {";
     "    if (n < 2) {";
     "        return n;";
     "    } else {";
     "        return fib(n - 1) + fib(n - 2);";
     "    }";
     "}";
     "";
     "module.exports = fib;"].


(** The example of C6: the tree of the module [fib] of the two-module
    bundle of the tests, normalized, is printed as [fib_text], and so is
    the normalized tree of the source of the module on its own. *)
Example fib_round_trip_text :
  ∃ a assembled normalized,
    extractModules some_builtin_modules (MkDefs 9 ∅) ∅ fib_bundle fib_names
    = Ok a ∧
    modules a !! "fib" = Some assembled ∧
    decompress assembled None = Some normalized ∧
    decompress (AST_Toplevel fib_source) None = Some normalized ∧
    normalized = AST_Toplevel fib_normalized ∧
    print_to_string (definitions a) normalized = Some fib_text ∧
    print_to_string no_defs normalized = Some fib_text.
Proof.
  eexists _, _, _. split_and!; [reflexivity|by vm_compute..].
Qed.

(* ===================================================================== *)
(** * The name table the resolver returns *)
(* ===================================================================== *)

Section NameTable.

Variables (moduleObject : list ObjectProperty) (main : list string).

(** Some entry of the module map has the id among the targets of its
    require map. *)
Definition required (id : string) : Prop :=
  ∃ p prop, p ∈ moduleObject ∧ prop ∈ requireMapping p ∧ snd prop = id.

(** [k] times the suffix [/index]. *)
Fixpoint index_suffix (k : nat) : string :=
  match k with
  | O => ""
  | S k' => index_suffix k' +:+ "/index"
  end.

Lemma string_app_assoc (s t u : string) : (s +:+ t) +:+ u = s +:+ (t +:+ u).
Proof.
  induction s as [|c s IH]; [done|].
  change (String c ((s +:+ t) +:+ u) = String c (s +:+ (t +:+ u))).
  by rewrite IH.
Qed.

Lemma string_app_nil_r (s : string) : s +:+ "" = s.
Proof.
  induction s as [|c s IH]; [done|].
  change (String c (s +:+ "") = String c s). by rewrite IH.
Qed.

(** What the callback keeps of a table in which the module being
    processed has the name the loop body holds in [moduleName]: the
    names are not empty, they belong to entry ids and required ids, and
    an entry id is named [browser] followed by suffixes [/index]. *)
Definition table_of (moduleId : string) (acc : resolver_state * string)
  : Prop :=
  moduleNames (fst acc) !! moduleId = Some (snd acc) ∧
  (∀ id name, moduleNames (fst acc) !! id = Some name →
              name ≠ "" ∧ (id ∈ main ∨ required id)) ∧
  (∀ id, id ∈ main →
         ∃ k, moduleNames (fst acc) !! id
              = Some ("browser" +:+ index_suffix k)).

Lemma visit_require_table p prop acc :
  p ∈ moduleObject → prop ∈ requireMapping p →
  table_of (key p) acc → table_of (key p) (visit_require (key p) acc prop).
Proof.
  intros Hp Hprop. destruct acc as [st mn].
  intros (Hsync & Hnames & Hmain). cbn [fst snd] in *.
  unfold visit_require.
  destruct (negb (js.truthy (moduleNames st !! snd prop))) eqn:Ht.
  { (* the target has no name yet *)
    apply negb_true_iff in Ht.
    assert (moduleNames st !! snd prop = None) as Hnone.
    { destruct (moduleNames st !! snd prop) as [s|] eqn:E; [|done].
      destruct (Hnames _ _ E) as [Hs _].
      assert (js.truthy (Some s) = true) as Htrue
        by (apply truthy_Some; eauto).
      congruence. }
    assert (snd prop ≠ key p) as Hne by congruence.
    split_and!; cbn [fst snd moduleNames].
    - by rewrite lookup_insert_ne.
    - intros id name.
      destruct (decide (id = snd prop)) as [-> | Hid].
      + rewrite lookup_insert_eq. intros [= <-].
        split; [apply candidate_nonempty|]. right. by exists p, prop.
      + rewrite lookup_insert_ne by done. apply Hnames.
    - intros id Hid. destruct (Hmain id Hid) as [k Hk].
      exists k. rewrite lookup_insert_ne; [done|]. congruence. }
  destruct (negb (String.eqb _ _)); [|done].
  destruct (_ <=? _)%nat; [done|].
  (* the module being processed is renamed *)
  split_and!; cbn [fst snd moduleNames].
  - by rewrite lookup_insert_eq.
  - intros id name.
    destruct (decide (id = key p)) as [-> | Hid].
    + rewrite lookup_insert_eq. intros [= <-].
      split; [by apply append_nonempty|]. by apply (Hnames _ _ Hsync).
    + rewrite lookup_insert_ne by done. apply Hnames.
  - intros id Hid. destruct (Hmain id Hid) as [k Hk].
    destruct (decide (id = key p)) as [-> | Hne].
    + exists (S k). rewrite lookup_insert_eq.
      rewrite Hsync in Hk. injection Hk as ->.
      cbn [index_suffix]. by rewrite string_app_assoc.
    + exists k. by rewrite lookup_insert_ne.
Qed.

Lemma fold_visit_table p props acc :
  p ∈ moduleObject → props ⊆ requireMapping p →
  table_of (key p) acc →
  table_of (key p) (fold_left (visit_require (key p)) props acc).
Proof.
  intros Hp. revert acc. induction props as [|prop props IH];
    intros acc Hsub Hacc; [done|].
  cbn [fold_left]. apply IH; [set_solver|].
  apply visit_require_table; [done|set_solver|done].
Qed.

(** The invariant of the loop. *)
Definition table_invariant_of (s : list ObjectProperty * resolver_state)
  : Prop :=
  fst s ⊆ moduleObject ∧
  (∀ id name, moduleNames (snd s) !! id = Some name →
              name ≠ "" ∧ (id ∈ main ∨ required id)) ∧
  (∀ id, id ∈ main →
         ∃ k, moduleNames (snd s) !! id
              = Some ("browser" +:+ index_suffix k)).

Lemma table_invariant_init :
  table_invariant_of (moduleObject, MkResolver (seed main) []).
Proof.
  split_and!; cbn [fst snd moduleNames]; [done| |].
  - intros id name. rewrite seed_lookup.
    destruct (decide (id ∈ main)); [|done]. intros [= <-]. by split; [|left].
  - intros id Hid. exists 0%nat. by rewrite seed_lookup, decide_True.
Qed.

Lemma table_invariant_step s s' :
  table_invariant_of s → step s = Some s' → table_invariant_of s'.
Proof.
  destruct s as [[|p q] st]; [done|].
  intros (Hsub & Hnames & Hmain) Hstep. cbn [fst snd] in *.
  destruct (decide (js.truthy (moduleNames st !! key p) = true)) as [Hn|Hn].
  - rewrite step_process in Hstep by done. simplify_eq.
    apply named_lookup in Hn as (mn & Hmn & _). rewrite Hmn. cbn [default].
    destruct (fold_visit_table p (requireMapping p) (st, mn))
      as (_ & Hnames' & Hmain'); [set_solver|done|by split_and!|].
    split_and!; cbn [fst snd]; [set_solver|done|done].
  - rewrite step_defer in Hstep by done. simplify_eq.
    split_and!; cbn [fst snd]; [set_solver|done|done].
Qed.

(** ** The ids of the table *)

(** X1. When the resolver returns, the ids that have a name are the entry
    ids and the ids some module requires, no others; every key of the
    module map is among them; and no name is empty. *)
Theorem resolved_ids fuel st :
  extractModuleNames fuel moduleObject main = Some st →
  (∀ id, is_Some (moduleNames st !! id) ↔ id ∈ main ∨ required id) ∧
  (∀ p, p ∈ moduleObject → is_Some (moduleNames st !! key p)) ∧
  (∀ id name, moduleNames st !! id = Some name → name ≠ "").
Proof.
  intros Hrun. unfold extractModuleNames in Hrun.
  pose proof (loop_invariant table_invariant_of _ _ _
                table_invariant_step table_invariant_init Hrun)
    as (_ & Hnames & _).
  pose proof (loop_invariant (progress_invariant moduleObject main) _ _ _
                (progress_invariant_step moduleObject main)
                (progress_invariant_init moduleObject main) Hrun)
    as (_ & Hmain & Hdone).
  pose proof (loop_invariant (sound_invariant moduleObject main) _ _ _
                (sound_invariant_step moduleObject main)
                (sound_invariant_init moduleObject main) Hrun)
    as (_ & _ & Hkeys).
  cbn [fst snd] in *.
  assert (∀ id, named (moduleNames st) id → is_Some (moduleNames st !! id))
    as Hsome.
  { intros id (s & -> & _)%named_lookup. by eexists. }
  split_and!.
  - intros id. split.
    + intros [name Hname]. by apply (Hnames _ _ Hname).
    + intros [Hid | (p & prop & Hp & Hprop & <-)]; apply Hsome.
      * by apply Hmain.
      * destruct (Hdone p Hp) as [Hin | Hall]; [|by apply Hall].
        by apply not_elem_of_nil in Hin.
  - intros p Hp. apply Hsome. destruct (Hkeys p Hp) as [Hin | Hn]; [|done].
    by apply not_elem_of_nil in Hin.
  - intros id name Hname. by apply (Hnames _ _ Hname).
Qed.

(** ** The names of the entry ids *)

(** X2. When the resolver returns, an entry id is named [browser] followed by
    the suffix [/index] as many times as the module was renamed on a
    conflict. *)
Theorem entry_names fuel st id :
  extractModuleNames fuel moduleObject main = Some st → id ∈ main →
  ∃ k, moduleNames st !! id = Some ("browser" +:+ index_suffix k).
Proof.
  intros Hrun Hid. unfold extractModuleNames in Hrun.
  pose proof (loop_invariant table_invariant_of _ _ _
                table_invariant_step table_invariant_init Hrun)
    as (_ & _ & Hmain).
  by apply Hmain.
Qed.

End NameTable.

Lemma resolved_ids_witness :
  ∃ st, extractModuleNames 2 fib_bundle ["1"] = Some st ∧
    (∀ id, is_Some (moduleNames st !! id)
           ↔ id ∈ ["1"] ∨ required fib_bundle id) ∧
    (∀ p, p ∈ fib_bundle → is_Some (moduleNames st !! key p)) ∧
    (∀ id name, moduleNames st !! id = Some name → name ≠ "").
Proof.
  eexists. split; [reflexivity|].
  apply (resolved_ids fib_bundle ["1"] 2). reflexivity.
Defined.

(** The entry module requires module 2 as [lodash] and as [./x]: the
    second name is the shorter one, and the entry module is renamed. *)
Definition renamed_entry_bundle : list ObjectProperty :=
  [MkProperty "1" main_function [("lodash", "2"); ("./x", "2")];
   MkProperty "2" fib_function []].

Lemma entry_names_witness :
  ∃ st k, extractModuleNames 2 renamed_entry_bundle ["1"] = Some st ∧
    moduleNames st !! "1" = Some ("browser" +:+ index_suffix k) ∧
    moduleNames st !! "1" = Some "browser/index".
Proof.
  eexists.
  destruct (entry_names renamed_entry_bundle ["1"] 2 _ "1" eq_refl)
    as [k Hk]; [apply list_elem_of_here|].
  exists k. split_and!; [reflexivity|exact Hk|reflexivity].
Defined.

(* ===================================================================== *)
(** * What the assembler emits *)
(* ===================================================================== *)

Section AssemblerOutput.

Variable isBuiltinModule : string → bool.

(** What becomes of a module with a given name: it is dropped as a
    builtin module, dropped and recorded as a dependency on a package, or
    emitted. *)
Inductive fate :=
  | Builtin
  | Dependency (package : string)
  | Emitted.

Definition fate_of (name : string) : fate :=
  let path := js.split_slash name in
  if bool_decide (path !! 0%nat = Some "node_modules") then
    match path !! 1%nat with
    | Some name1 =>
        if negb (String.eqb name1 "") && isBuiltinModule name1 then Builtin
        else
          let package :=
            match path !! 2%nat with
            | Some part =>
                if bool_decide (String.get 0 name1 = Some "@"%char) &&
                   negb (String.eqb part "")
                then name1 +:+ "/" +:+ part
                else name1
            | None => name1
            end in
          if String.eqb package (js.toLowerCase package)
          then Dependency package
          else Emitted
    | None => Emitted
    end
  else Emitted.

(** An entry the assembler can handle: its id has a name, and the name is
    not [node_modules] alone. *)
Definition nameable (names : gmap string string) (p : ObjectProperty)
  : bool :=
  match names !! key p with
  | Some name => negb (String.eqb name "node_modules")
  | None => false
  end.

Definition fate_of_entry (names : gmap string string) (p : ObjectProperty)
  : fate :=
  fate_of (default "" (names !! key p)).

Definition not_builtin (names : gmap string string) (p : ObjectProperty)
  : bool :=
  match fate_of_entry names p with
  | Builtin => false
  | _ => true
  end.

Definition emitted (names : gmap string string) (p : ObjectProperty)
  : bool :=
  match fate_of_entry names p with
  | Emitted => true
  | _ => false
  end.

Definition record_dependency (names : gmap string string)
    (deps : gset string) (p : ObjectProperty) : gset string :=
  match fate_of_entry names p with
  | Dependency package => {[package]} ∪ deps
  | _ => deps
  end.

(** ** The filters *)

Lemma filter_with_spec {A S} (f : S → A → result (bool * S))
    (keep : A → bool) (update : S → A → S) s l :
  (∀ s x, x ∈ l → f s x = Ok (keep x, update s x)) →
  filter_with f s l = Ok (List.filter keep l, fold_left update l s).
Proof.
  revert s. induction l as [|x l IH]; intros s Hf; [done|].
  simpl. rewrite Hf by apply list_elem_of_here. simpl.
  rewrite IH; [simpl; by destruct (keep x)|]. intros s' y Hy. apply Hf. by apply elem_of_cons; right.
Qed.

Lemma filter_with_error {A S} (f : S → A → result (bool * S)) s l e e' :
  (∀ s x e, f s x = Throw e → e = e') →
  filter_with f s l = Throw e → e = e'.
Proof.
  intros Hf. revert s. induction l as [|x l IH]; intros s; [done|].
  simpl.
  destruct (f s x) as [[keep s1]|e1] eqn:E; simpl.
  - destruct (filter_with f s1 l) as [[kept s2]|e2] eqn:E'; simpl; [done|].
    intros [= <-]. by eapply IH.
  - intros [= <-]. by eapply Hf.
Qed.

Lemma split_slash_node_modules name :
  js.split_slash name = ["node_modules"] → name = "node_modules".
Proof. apply split_slash_single. Qed.

Lemma isNotBuiltinModule_spec names p :
  isNotBuiltinModule isBuiltinModule names p =
  match names !! key p with
  | Some _ => Ok (not_builtin names p)
  | None => Throw TypeError
  end.
Proof.
  unfold isNotBuiltinModule, not_builtin, fate_of_entry, fate_of.
  destruct (names !! key p) as [name|]; [|done]. cbn [default from_option id].
  destruct (bool_decide (js.split_slash name !! 0%nat = Some "node_modules"));
    [|done].
  destruct (js.split_slash name !! 1%nat) as [name1|];
    cbn [js.truthy default from_option id andb negb]; [|done].
  destruct (negb (String.eqb name1 "") && isBuiltinModule name1); [done|].
  cbn [negb]. by repeat case_match.
Qed.

Lemma isNotPublishedDependency_spec names deps p :
  nameable names p = true → not_builtin names p = true →
  isNotPublishedDependency names deps p =
  Ok (emitted names p, record_dependency names deps p).
Proof.
  unfold nameable, not_builtin, emitted, record_dependency, fate_of_entry,
    fate_of, isNotPublishedDependency.
  destruct (names !! key p) as [name|]; [|done]. cbn [default from_option id].
  intros Hname%negb_true_iff%String.eqb_neq.
  destruct (bool_decide (js.split_slash name !! 0%nat = Some "node_modules"))
    eqn:Hfirst; [|done].
  destruct (js.split_slash name !! 1%nat) as [name1|] eqn:Hsecond.
  - destruct (negb (String.eqb name1 "") && isBuiltinModule name1); [done|].
    intros _.
    destruct (js.split_slash name !! 2%nat) as [part|]; cbn [js.truthy default].
    + by destruct (String.eqb _ (js.toLowerCase _)).
    + rewrite andb_false_r. by destruct (String.eqb _ (js.toLowerCase _)).
  - intros _. exfalso. apply Hname, split_slash_single.
    apply bool_decide_eq_true in Hfirst.
    destruct (js.split_slash name) as [|a [|b l]]; by simplify_eq/=.
Qed.

Lemma filter_with_keeps {A S} (f : S → A → result (bool * S)) s l kept s' x :
  filter_with f s l = Ok (kept, s') → x ∈ l →
  (∀ s0 keep s1, f s0 x = Ok (keep, s1) → keep = true) → x ∈ kept.
Proof.
  intros H (before & after & ->)%list_elem_of_split Hx.
  destruct (filter_with_split _ _ _ _ _ _ _ H Hx) as (kb & ka & -> & _).
  apply elem_of_app. right. apply list_elem_of_here.
Qed.

Lemma forallb_nameable names (moduleObject : list ObjectProperty) :
  forallb (nameable names) moduleObject = true ↔
  ∀ p, p ∈ moduleObject →
       ∃ name, names !! key p = Some name ∧ name ≠ "node_modules".
Proof.
  rewrite forallb_forall. unfold nameable. split.
  - intros H p Hp%list_elem_of_In. specialize (H p Hp).
    destruct (names !! key p) as [name|]; [|done].
    exists name. split; [done|]. by apply String.eqb_neq, negb_true_iff.
  - intros H p Hp%list_elem_of_In.
    destruct (H p Hp) as (name & -> & Hne).
    by apply negb_true_iff, String.eqb_neq.
Qed.

(** The assembler's output when every entry can be handled. *)
Lemma extractModules_nameable d deps moduleObject names :
  forallb (nameable names) moduleObject = true →
  extractModules isBuiltinModule d deps moduleObject names =
  Ok (fold_left assemble_module
        (map (module_property names)
           (List.filter (emitted names)
              (List.filter (not_builtin names) moduleObject)))
        (MkAssembly {["browser" := AST_Toplevel []]} d
           (fold_left (record_dependency names)
              (List.filter (not_builtin names) moduleObject) deps))).
Proof.
  intros Hall. unfold extractModules.
  rewrite (filter_with_spec _ (not_builtin names) (λ _ _, tt)).
  2:{ intros [] p Hp%list_elem_of_In. rewrite isNotBuiltinModule_spec.
      rewrite forallb_forall in Hall. specialize (Hall p Hp).
      unfold nameable in Hall. by destruct (names !! key p). }
  simpl.
  rewrite (filter_with_spec _ (emitted names) (record_dependency names)).
  2:{ intros deps0 p [Hp Hnb]%list_elem_of_In%filter_In.
      apply isNotPublishedDependency_spec; [|done].
      rewrite forallb_forall in Hall. by apply Hall. }
  done.
Qed.

(** The assembler returns only when every entry can be handled. *)
Lemma extractModules_Ok_nameable d deps moduleObject names a :
  extractModules isBuiltinModule d deps moduleObject names = Ok a →
  forallb (nameable names) moduleObject = true.
Proof.
  intros Ha. unfold extractModules in Ha.
  destruct (filter_with _ tt moduleObject) as [[kept1 []]|] eqn:E1; [|done].
  simpl in Ha.
  destruct (filter_with _ deps kept1) as [[kept2 deps']|] eqn:E2; [|done].
  apply forallb_forall. intros p Hp%list_elem_of_In.
  destruct (filter_with_each _ _ _ _ _ E1 Hp) as (s0 & r0 & Hr).
  rewrite isNotBuiltinModule_spec in Hr. unfold nameable.
  destruct (names !! key p) as [name|] eqn:Hname; [|done].
  apply negb_true_iff, String.eqb_neq. intros ->.
  assert (p ∈ kept1) as Hkept.
  { eapply filter_with_keeps; [exact E1|done|].
    intros s1 keep s2. cbv beta.
    rewrite isNotBuiltinModule_spec, Hname.
    unfold not_builtin, fate_of_entry. rewrite Hname.
    by intros [= <- _]. }
  destruct (filter_with_each _ _ _ _ _ E2 Hkept) as (s1 & r1 & Hr1).
  unfold isNotPublishedDependency in Hr1. by rewrite Hname in Hr1.
Qed.

(** ** when the assembler fails *)


(** ** the dependencies and the trees *)

Lemma fold_assemble_dependencies ms a :
  dependencies (fold_left assemble_module ms a) = dependencies a.
Proof.
  revert a. induction ms as [|m ms IH]; intros a; [done|].
  simpl. rewrite IH. unfold assemble_module.
  by destruct (renameArguments _ _).
Qed.

Lemma fold_record_dependency names (l : list ObjectProperty) deps x :
  x ∈ fold_left (record_dependency names) l deps ↔
  x ∈ deps ∨ ∃ p, p ∈ l ∧ fate_of_entry names p = Dependency x.
Proof.
  revert deps. induction l as [|q l IH]; intros deps; simpl.
  - split; [by left|]. intros [? | (p & Hp & _)]; [done|].
    by apply not_elem_of_nil in Hp.
  - rewrite IH. unfold record_dependency. split.
    + intros [Hx | (p & Hp & Hfate)].
      * destruct (fate_of_entry names q) as [|package|] eqn:Hq; [by left| |by left].
        apply elem_of_union in Hx as [->%elem_of_singleton | Hx]; [|by left].
        right. exists q. split; [apply list_elem_of_here|done].
      * right. exists p. split; [by apply elem_of_cons; right|done].
    + intros [Hx | (p & [-> | Hp]%elem_of_cons & Hfate)].
      * left. destruct (fate_of_entry names q); set_solver.
      * left. rewrite Hfate. set_solver.
      * right. eauto.
Qed.

Lemma fold_assemble_names ms a n :
  is_Some (modules (fold_left assemble_module ms a) !! n) ↔
  is_Some (modules a !! n) ∨ ∃ m, m ∈ ms ∧ property_key (moduleName m) = n.
Proof.
  revert a. induction ms as [|m ms IH]; intros a; simpl.
  - split; [by left|]. intros [? | (m & Hm & _)]; [done|].
    by apply not_elem_of_nil in Hm.
  - rewrite IH.
    assert (is_Some (modules (assemble_module a m) !! n) ↔
            is_Some (modules a !! n) ∨ property_key (moduleName m) = n)
      as ->.
    { unfold assemble_module. destruct (renameArguments _ _) as [d f].
      cbn [modules].
      destruct (decide (property_key (moduleName m) = n)) as [<- | Hne].
      - rewrite lookup_insert_eq. split; [by right|by eexists].
      - rewrite lookup_insert_ne by done. split; [by left|].
        by intros [? | ?]. }
    split.
    + intros [[? | <-] | (m' & Hm' & <-)]; [by left| |].
      * right. exists m. split; [apply list_elem_of_here|done].
      * right. exists m'. split; [by apply elem_of_cons; right|done].
    + intros [? | (m' & [-> | Hm']%elem_of_cons & <-)];
        [by left; left|by left; right|right; eauto].
Qed.

(** X4. The assembler adds to the set of dependencies the packages of the
    entries whose fate is to be recorded as a dependency, and nothing
    else: a package comes from a name under [node_modules] that is not a
    builtin module and is spelled in lower case. *)
Theorem recorded_dependencies d deps moduleObject names a :
  extractModules isBuiltinModule d deps moduleObject names = Ok a →
  ∀ x, x ∈ dependencies a ↔
       x ∈ deps ∨
       ∃ p, p ∈ moduleObject ∧ fate_of_entry names p = Dependency x.
Proof.
  intros Ha x. pose proof (extractModules_Ok_nameable _ _ _ _ _ Ha) as Hall.
  rewrite extractModules_nameable in Ha by done. injection Ha as <-.
  rewrite fold_assemble_dependencies. cbn [dependencies].
  rewrite fold_record_dependency. split.
  - intros [? | (p & [Hp _]%list_elem_of_In%filter_In & Hfate)]; [by left|].
    right. exists p. by rewrite list_elem_of_In.
  - intros [? | (p & Hp & Hfate)]; [by left|].
    right. exists p. split; [|done].
    apply list_elem_of_In, filter_In. split; [by apply list_elem_of_In|].
    unfold not_builtin. by rewrite Hfate.
Qed.

(** X5. The assembler holds a tree under [browser] and under the name of
    every entry that is emitted, and under no other name: a builtin
    module and a package recorded as a dependency have no tree. *)
Theorem emitted_modules d deps moduleObject names a :
  extractModules isBuiltinModule d deps moduleObject names = Ok a →
  ∀ n, is_Some (modules a !! n) ↔
       n = "browser" ∨
       ∃ p, p ∈ moduleObject ∧ names !! key p = Some n ∧ fate_of n = Emitted.
Proof.
  intros Ha n. pose proof (extractModules_Ok_nameable _ _ _ _ _ Ha) as Hall.
  rewrite extractModules_nameable in Ha by done. injection Ha as <-.
  rewrite fold_assemble_names. cbn [modules].
  rewrite forallb_nameable in Hall.
  assert (∀ p, p ∈ List.filter (emitted names)
                     (List.filter (not_builtin names) moduleObject) ↔
               p ∈ moduleObject ∧ fate_of_entry names p = Emitted) as Hkept.
  { intros p. rewrite list_elem_of_In, !filter_In, <- list_elem_of_In.
    unfold emitted, not_builtin.
    destruct (fate_of_entry names p); naive_solver. }
  split.
  - intros [Hb | (m & (p & -> & Hp)%list_elem_of_fmap & <-)].
    + left. destruct (decide (n = "browser")) as [-> | Hne]; [done|].
      rewrite lookup_singleton_ne in Hb by done. by destruct Hb.
    + right. apply Hkept in Hp as [Hp Hfate].
      destruct (Hall p Hp) as (name & Hname & _).
      exists p. cbn [module_property moduleName]. rewrite Hname.
      unfold fate_of_entry in Hfate. rewrite Hname in Hfate.
      by split_and!.
  - intros [-> | (p & Hp & Hname & Hfate)].
    + left. rewrite lookup_singleton_eq. by eexists.
    + right. exists (module_property names p). split.
      * apply list_elem_of_fmap. exists p. split; [done|]. apply Hkept.
        split; [done|]. unfold fate_of_entry. by rewrite Hname.
      * cbn [module_property moduleName]. by rewrite Hname.
Qed.

(** ** the statements of a tree *)

(** A tree with every string literal emptied: what [updateRequires]
    cannot change. *)
Fixpoint erase_strings (n : node) {struct n} : node :=
  let go := erase_strings in
  let go_opt := fun (o : option node) => go <$> o in
  match n with
  | AST_String _ => AST_String ""
  | AST_Call e a => AST_Call (go e) (map go a)
  | AST_Toplevel b => AST_Toplevel (map go b)
  | AST_BlockStatement b => AST_BlockStatement (map go b)
  | AST_Defun nm a b => AST_Defun nm a (map go b)
  | AST_Function nm a b => AST_Function nm a (map go b)
  | AST_Switch e b => AST_Switch (go e) (map go b)
  | AST_Case e b => AST_Case (go e) (map go b)
  | AST_Default b => AST_Default (map go b)
  | AST_If c b a => AST_If (go c) (go b) (go_opt a)
  | AST_For i c st b => AST_For (go_opt i) (go_opt c) (go_opt st) (go b)
  | AST_With e b => AST_With (go e) (go b)
  | AST_SimpleStatement b => AST_SimpleStatement (go b)
  | AST_Return v => AST_Return (go_opt v)
  | AST_Var defs =>
      AST_Var (map (λ sv, (fst sv, go_opt (snd sv))) defs)
  | AST_Sequence x y => AST_Sequence (go x) (go y)
  | AST_Dot e p => AST_Dot (go e) p
  | AST_UnaryPrefix op e => AST_UnaryPrefix op (go e)
  | AST_Binary op l r => AST_Binary op (go l) (go r)
  | AST_Assign op l r => AST_Assign op (go l) (go r)
  | AST_Conditional c x y => AST_Conditional (go c) (go x) (go y)
  | AST_Array l => AST_Array (map go l)
  | AST_Object ps => AST_Object (map (λ kv, (fst kv, go (snd kv))) ps)
  | AST_SymbolRef _ | AST_Number _ | AST_NaN
  | AST_Infinity | AST_Undefined | AST_True | AST_False => n
  end.

Section Erase.

Variables (f g : node → node).

Lemma map_erase (l : list node) :
  (∀ c, c ∈ l → g (f c) = g c) → map g (map f l) = map g l.
Proof.
  intros H. rewrite map_map. apply map_ext_in.
  intros c Hc%list_elem_of_In. by apply H.
Qed.

Lemma fmap_erase (o : option node) :
  (∀ c, c ∈ option_list o → g (f c) = g c) → g <$> (f <$> o) = g <$> o.
Proof.
  destruct o as [c|]; intros H; [|done]. cbn. rewrite H; [done|].
  simpl. apply list_elem_of_here.
Qed.

Lemma map_definitions_erase (ds : list (symbol * option node)) :
  (∀ c, c ∈ omap snd ds → g (f c) = g c) →
  map (λ sv, (fst sv, g <$> snd sv)) (map (λ sv, (fst sv, f <$> snd sv)) ds)
  = map (λ sv, (fst sv, g <$> snd sv)) ds.
Proof.
  induction ds as [|[s [v|]] ds IH]; intros H; cbn [map fst snd]; [done| |].
  - cbn. rewrite H by (simpl; apply list_elem_of_here). f_equal. apply IH.
    intros y Hy. apply H. simpl. by apply elem_of_cons; right.
  - cbn. f_equal. apply IH. intros y Hy. by apply H.
Qed.

Lemma map_properties_erase (ps : list (string * node)) :
  (∀ c, c ∈ map snd ps → g (f c) = g c) →
  map (λ kv, (fst kv, g (snd kv))) (map (λ kv, (fst kv, f (snd kv))) ps)
  = map (λ kv, (fst kv, g (snd kv))) ps.
Proof.
  induction ps as [|[k v] ps IH]; intros H; cbn [map fst snd]; [done|].
  rewrite H by (simpl; apply list_elem_of_here). f_equal. apply IH.
  intros y Hy. apply H. simpl. by apply elem_of_cons; right.
Qed.

End Erase.

(** [updateRequires] changes string literals only. *)
Lemma erase_update_requires d mapping n :
  erase_strings (update_requires_walk d mapping n) = erase_strings n.
Proof.
  clear isBuiltinModule.
  induction n as [n IH] using node_children_ind.
  destruct n; cbn [update_requires_walk erase_strings children] in IH |- *;
    try done.
  all: rewrite ?map_definitions_erase, ?map_properties_erase,
         ?map_erase, ?fmap_erase by (intros; apply IH; simpl; set_solver).
  all: rewrite ?IH by (simpl; set_solver); try done.
  assert (erase_strings
            (AST_Call (update_requires_walk d mapping n)
               (map (update_requires_walk d mapping) args))
          = AST_Call (erase_strings n) (map erase_strings args)) as Hcall.
  { cbn [erase_strings].
    rewrite map_erase by (intros; apply IH; simpl; set_solver).
    by rewrite IH by (simpl; set_solver). }
  destruct args as [|[] [|]]; try exact Hcall.
  destruct (is_require d n); [|exact Hcall].
  cbn [erase_strings map update_requires_walk] in Hcall |- *.
  injection Hcall as Hn. by rewrite Hn.
Qed.

(** The statements of the tree of a name, string literals emptied; none
    when there is no tree. *)
Definition erased_body (t : option node) : list node :=
  map erase_strings (toplevel_body (default (AST_Toplevel []) t)).

Definition is_Toplevel (n : node) : bool :=
  match n with
  | AST_Toplevel _ => true
  | _ => false
  end.

Lemma renameArguments_body d f :
  fn_body (snd (renameArguments d f)) = fn_body f.
Proof.
  unfold renameArguments. by destruct (rename_arguments_from 0 d _).
Qed.

Lemma assemble_module_body a m n :
  erased_body (modules (assemble_module a m) !! n) =
  erased_body (modules a !! n) ++
  (if decide (property_key (moduleName m) = n)
   then map erase_strings (fn_body (mp_moduleFunction m))
   else []).
Proof.
  unfold assemble_module.
  pose proof (renameArguments_body (definitions a) (mp_moduleFunction m))
    as Hbody.
  destruct (renameArguments _ _) as [d f]. cbn [snd] in Hbody.
  cbn [modules].
  destruct (decide (property_key (moduleName m) = n)) as [<- | Hne].
  - rewrite lookup_insert_eq. unfold erased_body at 1.
    cbn [default from_option id toplevel_body updateRequires fn_body].
    rewrite map_app. f_equal.
    rewrite map_erase by (intros; apply erase_update_requires).
    by rewrite Hbody.
  - rewrite lookup_insert_ne by done. by rewrite app_nil_r.
Qed.

Lemma fold_assemble_body ms a n :
  erased_body (modules (fold_left assemble_module ms a) !! n) =
  erased_body (modules a !! n) ++
  concat (map (λ m, if decide (property_key (moduleName m) = n)
                    then map erase_strings (fn_body (mp_moduleFunction m))
                    else []) ms).
Proof.
  revert a. induction ms as [|m ms IH]; intros a.
  - simpl. by rewrite app_nil_r.
  - cbn [fold_left map concat]. rewrite IH, assemble_module_body.
    by rewrite <- app_assoc.
Qed.

Lemma fold_assemble_Toplevel ms a :
  (∀ n t, modules a !! n = Some t → is_Toplevel t = true) →
  ∀ n t, modules (fold_left assemble_module ms a) !! n = Some t →
         is_Toplevel t = true.
Proof.
  revert a. induction ms as [|m ms IH]; intros a Ha; [done|].
  cbn [fold_left]. apply IH. intros n t. unfold assemble_module.
  destruct (renameArguments _ _) as [d f]. cbn [modules].
  destruct (decide (property_key (moduleName m) = n)) as [<- | Hne].
  - rewrite lookup_insert_eq. by intros [= <-].
  - rewrite lookup_insert_ne by done. apply Ha.
Qed.

(** The entries whose statements go to the tree of the name [n]. *)
Definition emitted_as (names : gmap string string) (n : string)
    (p : ObjectProperty) : bool :=
  emitted names p && bool_decide (names !! key p = Some n).

Lemma concat_emitted names n (l : list ObjectProperty) :
  forallb (nameable names) l = true →
  concat (map (λ m, if decide (property_key (moduleName m) = n)
                    then map erase_strings (fn_body (mp_moduleFunction m))
                    else [])
            (map (module_property names)
               (List.filter (emitted names)
                  (List.filter (not_builtin names) l))))
  = concat (map (λ p, map erase_strings (fn_body (moduleFunction p)))
              (List.filter (emitted_as names n) l)).
Proof.
  induction l as [|p l IH]; [done|].
  cbn [forallb]. intros [Hp Hl]%andb_true_iff. specialize (IH Hl).
  unfold nameable in Hp.
  destruct (names !! key p) as [name|] eqn:Hname; [|done].
  cbn [List.filter]. unfold emitted_as at 1.
  destruct (not_builtin names p) eqn:Hnb, (emitted names p) eqn:Hem;
    cbn [List.filter andb]; rewrite ?Hem; try done.
  - cbn [map concat module_property moduleName mp_moduleFunction].
    rewrite Hname. cbn [property_key default from_option id].
    destruct (decide (name = n)) as [-> | Hne].
    + rewrite bool_decide_eq_true_2 by done. cbn [map concat]. by rewrite IH.
    + rewrite bool_decide_eq_false_2 by congruence. by rewrite IH.
  - unfold not_builtin in Hnb. unfold emitted in Hem.
    by destruct (fate_of_entry names p).
Qed.

(** X6. Every tree the assembler holds is a program whose statements are the
    statements of the emitted entries of that name, one body after the
    other in the order of the module map, with at most string literals
    changed. *)
Theorem assembled_statements d deps moduleObject names a n t :
  extractModules isBuiltinModule d deps moduleObject names = Ok a →
  modules a !! n = Some t →
  t = AST_Toplevel (toplevel_body t) ∧
  map erase_strings (toplevel_body t) =
  concat (map (λ p, map erase_strings (fn_body (moduleFunction p)))
            (List.filter (emitted_as names n) moduleObject)).
Proof.
  intros Ha Ht. pose proof (extractModules_Ok_nameable _ _ _ _ _ Ha) as Hall.
  rewrite extractModules_nameable in Ha by done. injection Ha as <-.
  split.
  - eapply fold_assemble_Toplevel in Ht; [by destruct t|].
    intros n' t'. cbn [modules].
    intros [_ <-]%lookup_singleton_Some. done.
  - pose proof (fold_assemble_body
                  (map (module_property names)
                     (List.filter (emitted names)
                        (List.filter (not_builtin names) moduleObject)))
                  (MkAssembly {["browser" := AST_Toplevel []]} d
                     (fold_left (record_dependency names)
                        (List.filter (not_builtin names) moduleObject) deps))
                  n) as Hbody.
    rewrite Ht in Hbody. unfold erased_body at 1 in Hbody.
    cbn [default from_option id modules] in Hbody. rewrite Hbody.
    rewrite concat_emitted by done.
    assert (erased_body ({["browser" := AST_Toplevel []]} !! n) = [])
      as ->; [|done].
    unfold erased_body.
    destruct (decide (n = "browser")) as [-> | Hne].
    + by rewrite lookup_singleton_eq.
    + by rewrite lookup_singleton_ne.
Qed.

End AssemblerOutput.

(** ** A bundle with packages *)

Definition empty_function : ModuleFunction := MkFunction None [] [].

(** The entry module requires a builtin module, two packages in lower
    case, one of them scoped, a package with capitals and a file. *)
Definition package_bundle : list ObjectProperty :=
  [MkProperty "1" main_function
     [("fs", "2"); ("lodash", "3"); ("@babel/core", "4");
      ("JSONStream", "5"); ("./lib/util", "6")];
   MkProperty "2" empty_function [];
   MkProperty "3" empty_function [];
   MkProperty "4" empty_function [];
   MkProperty "5" empty_function [];
   MkProperty "6" fib_function []].

Definition package_names : gmap string string :=
  list_to_map
    [("1", "browser");
     ("2", "node_modules/fs/index");
     ("3", "node_modules/lodash/index");
     ("4", "node_modules/@babel/core/index");
     ("5", "node_modules/JSONStream/index");
     ("6", "lib/util")].

Example package_bundle_names :
  moduleNames <$> extractModuleNames 6 package_bundle ["1"]
  = Some package_names.
Proof. reflexivity. Qed.

Lemma recorded_dependencies_witness :
  ∃ a, extractModules some_builtin_modules (MkDefs 9 ∅) ∅
         package_bundle package_names = Ok a ∧
    (∀ x, x ∈ dependencies a ↔
          x ∈ (∅ : gset string) ∨
          ∃ p, p ∈ package_bundle ∧
               fate_of_entry some_builtin_modules package_names p
               = Dependency x) ∧
    dependencies a = {["lodash"; "@babel/core"]}.
Proof.
  eexists. split; [reflexivity|]. split; [|reflexivity].
  apply (recorded_dependencies some_builtin_modules (MkDefs 9 ∅) ∅
           package_bundle package_names).
  reflexivity.
Defined.

Lemma emitted_modules_witness :
  ∃ a, extractModules some_builtin_modules (MkDefs 9 ∅) ∅
         package_bundle package_names = Ok a ∧
    (∀ n, is_Some (modules a !! n) ↔
          n = "browser" ∨
          ∃ p, p ∈ package_bundle ∧ package_names !! key p = Some n ∧
               fate_of some_builtin_modules n = Emitted) ∧
    dom (modules a)
    = {["browser"; "node_modules/JSONStream/index"; "lib/util"]}.
Proof.
  eexists. split; [reflexivity|]. split; [|reflexivity].
  apply (emitted_modules some_builtin_modules (MkDefs 9 ∅) ∅
           package_bundle package_names).
  reflexivity.
Defined.

(** Two entry modules: both are named [browser]. *)
Definition two_entries_bundle : list ObjectProperty :=
  [MkProperty "1" main_function [];
   MkProperty "2" fib_function []].

Definition two_entries_names : gmap string string :=
  list_to_map [("1", "browser"); ("2", "browser")].

Example two_entries_bundle_names :
  moduleNames <$> extractModuleNames 2 two_entries_bundle ["1"; "2"]
  = Some two_entries_names.
Proof. reflexivity. Qed.

Lemma assembled_statements_witness :
  ∃ a t, extractModules some_builtin_modules (MkDefs 9 ∅) ∅
           two_entries_bundle two_entries_names = Ok a ∧
    modules a !! "browser" = Some t ∧
    (t = AST_Toplevel (toplevel_body t) ∧
     map erase_strings (toplevel_body t) =
     concat (map (λ p, map erase_strings (fn_body (moduleFunction p)))
               (List.filter
                  (emitted_as some_builtin_modules two_entries_names
                     "browser")
                  two_entries_bundle))) ∧
    toplevel_body t = fn_body main_function ++ fib_source.
Proof.
  eexists _, _. split; [reflexivity|]. split; [reflexivity|].
  split; [|reflexivity].
  eapply (assembled_statements some_builtin_modules (MkDefs 9 ∅) ∅
            two_entries_bundle two_entries_names); reflexivity.
Defined.

(* ===================================================================== *)
(** * More on the normalizer *)
(* ===================================================================== *)

Section Normalizer.

Implicit Types (n m c : node).

(** ** the normalizer returns *)


(** ** the options switch the rules off *)

Definition all_off : user_options :=
  MkUserOptions (Some false) (Some false) (Some false).

(** X9. With the three options off the normalizer returns the tree as it
    is. *)
Theorem decompress_all_off n : decompress n (Some all_off) = Some n.
Proof.
  unfold decompress. cbn [defaults all_off default from_option id
    user_constants user_sequences user_conditionals].
  assert (∀ fuel m, (weight m ≤ fuel)%nat →
            transform (MkOptions false false false) fuel m = Some m) as H.
  { induction fuel as [|fuel IH]; intros m Hm.
    - pose proof (weight_pos m). lia.
    - cbn [transform]. unfold transformBefore.
      cbn [constants sequences conditionals mbind option_bind].
      apply descend_id. intros c Hc. apply IH.
      apply children_weight in Hc. lia. }
  apply H. lia.
Qed.

(** ** the normal form *)

(** [m] is a node of the tree [n]. *)
Inductive within : node → node → Prop :=
  | within_here n : within n n
  | within_child n c m : c ∈ children n → within c m → within n m.

Lemma all_nodes_within (P : node → bool) n m :
  all_nodes P n = true → within n m → P m = true.
Proof.
  intros Hall Hin. induction Hin as [n | n c m Hc Hin IH].
  - by apply all_nodes_here.
  - apply IH. by eapply all_nodes_child.
Qed.


End Normalizer.


(* ===================================================================== *)
(** * The names the arguments are printed with *)
(* ===================================================================== *)

Section RenamedArguments.

Implicit Types (d : defs) (arg : symbol) (args : list symbol).

(** The definitions of the arguments are definitions of the store, and
    none has a mangled name yet. *)
Definition unmangled d args : Prop :=
  ∀ arg r, arg ∈ args → thedef arg = Some r →
           (r < next_def d)%nat ∧ mangled d !! r = None.

(** A renamed argument keeps its name and its definition. *)
Definition same_symbol arg arg' : Prop :=
  sym_name arg' = sym_name arg ∧
  ∀ r, thedef arg = Some r → thedef arg' = Some r.

Lemma rename_argument_effect i d arg :
  (∀ r, thedef arg = Some r → (r < next_def d)%nat) →
  ∃ d1 arg1,
    rename_argument i d arg = (d1, arg1) ∧
    (next_def d ≤ next_def d1)%nat ∧
    same_symbol arg arg1 ∧
    (∀ r, thedef arg1 = Some r →
          (r < next_def d1)%nat ∧
          (thedef arg = Some r ∨ thedef arg = None ∧ r = next_def d)) ∧
    (∀ r, thedef arg1 ≠ Some r → mangled d1 !! r = mangled d !! r) ∧
    (Some (sym_name arg) = argNames !! i → d1 = d ∧ arg1 = arg) ∧
    (Some (sym_name arg) ≠ argNames !! i →
     ∃ r, thedef arg1 = Some r ∧ mangled d1 !! r = argNames !! i).
Proof.
  intros Hstore. unfold rename_argument, same_symbol.
  destruct (decide (Some (sym_name arg) = argNames !! i)) as [Heq | Hne].
  { exists d, arg. split_and!; try done.
    intros r Hr. split; [by apply Hstore|by left]. }
  destruct (thedef arg) as [r0|] eqn:Hdef.
  - eexists _, _. split; [done|]. cbn [next_def mangled thedef sym_name].
    split_and!; try done.
    + intros r [= <-]. split; [by apply Hstore|by left].
    + intros r Hr. assert (r0 ≠ r) by congruence.
      destruct (argNames !! i);
        by rewrite ?lookup_insert_ne, ?lookup_delete_ne.
    + intros _. exists r0. split; [done|].
      destruct (argNames !! i);
        by rewrite ?lookup_insert_eq, ?lookup_delete_eq.
  - eexists _, _. split; [done|]. cbn [next_def mangled thedef sym_name].
    split_and!; try done.
    + lia.
    + intros r [= <-]. split; [lia|by right].
    + intros r Hr. assert (next_def d ≠ r) by congruence.
      destruct (argNames !! i);
        by rewrite ?lookup_insert_ne, ?lookup_delete_ne.
    + intros _. exists (next_def d). split; [done|].
      destruct (argNames !! i);
        by rewrite ?lookup_insert_eq, ?lookup_delete_eq.
Qed.

Lemma rename_arguments_from_display args :
  ∀ i d d' args',
    rename_arguments_from i d args = (d', args') →
    unmangled d args → NoDup (omap thedef args) →
    (next_def d ≤ next_def d')%nat ∧
    (∀ r, (r < next_def d)%nat → r ∉ omap thedef args →
          mangled d' !! r = mangled d !! r) ∧
    Forall2 same_symbol args args' ∧
    ∀ j arg', args' !! j = Some arg' →
              display d' arg'
              = default (sym_name arg') (argNames !! (i + j)%nat).
Proof.
  induction args as [|arg rest IH]; intros i d d' args' Hrun Hstore Hdup.
  { cbn in Hrun. injection Hrun as <- <-. by split_and!. }
  cbn [rename_arguments_from] in Hrun.
  destruct (rename_argument_effect i d arg)
    as (d1 & arg1 & E1 & Hnext & Hsame & Href & Hframe & Hkeep & Hrename).
  { intros r Hr. by apply (Hstore arg r); [apply list_elem_of_here|]. }
  rewrite E1 in Hrun.
  destruct (rename_arguments_from (S i) d1 rest) as [d2 rest'] eqn:E2.
  injection Hrun as <- <-.
  assert (NoDup (omap thedef rest) ∧
          ∀ r, thedef arg = Some r → r ∉ omap thedef rest) as [Hdup' Hhead].
  { simpl in Hdup. destruct (thedef arg) as [r0|] eqn:Hdef; [|by split].
    apply NoDup_cons in Hdup as [? ?]. split; [done|]. by intros r [= <-]. }
  assert (∀ r, r ∈ omap thedef rest →
               (r < next_def d)%nat ∧ mangled d !! r = None) as Hrest.
  { intros r (arg0 & Hin & Hr)%list_elem_of_omap.
    apply (Hstore arg0 r); [by apply elem_of_cons; right|done]. }
  assert (∀ r, thedef arg1 = Some r → r ∉ omap thedef rest) as Hfresh.
  { intros r Hr. destruct (Href r Hr) as [_ [Hr' | [_ ->]]];
      [by apply Hhead|].
    intros Hin%Hrest. lia. }
  destruct (IH (S i) d1 d2 rest' E2) as (Hnext' & Hframe' & Hall & Hdisplay);
    [|done|].
  { intros arg0 r Hin Hr.
    assert (r ∈ omap thedef rest) as Hr'
      by (apply list_elem_of_omap; eauto).
    destruct (Hrest r Hr') as [Hlt Hnone]. split; [lia|].
    rewrite Hframe; [done|]. intros Hr1. by apply (Hfresh r Hr1). }
  split_and!.
  - lia.
  - intros r Hr Hnot. rewrite Hframe'; [|lia|].
    + apply Hframe. intros Hr1.
      destruct (Href r Hr1) as [_ [Hr' | [_ ->]]]; [|lia].
      apply Hnot. simpl. rewrite Hr'. apply list_elem_of_here.
    + intros Hin. apply Hnot. simpl.
      destruct (thedef arg); [by apply elem_of_cons; right|done].
  - by apply Forall2_cons.
  - intros [|j] arg'; cbn [lookup list_lookup].
    + intros [= <-]. rewrite Nat.add_0_r. unfold display.
      destruct (thedef arg1) as [r|] eqn:Hdef.
      * rewrite Hframe'; [|by apply Href|by apply Hfresh].
        destruct (decide (Some (sym_name arg) = argNames !! i))
          as [Heq | Hne].
        -- destruct (Hkeep Heq) as [-> ->].
           destruct (Hstore arg r) as [_ ->];
             [apply list_elem_of_here|done|].
           by rewrite <- Heq.
        -- destruct (Hrename Hne) as (r' & Hr' & Hm).
           injection Hr' as <-. by rewrite Hm.
      * destruct (decide (Some (sym_name arg) = argNames !! i))
          as [Heq | Hne].
        -- destruct (Hkeep Heq) as [-> ->]. by rewrite <- Heq.
        -- by destruct (Hrename Hne) as (r' & Hr' & _).
    + intros Hj. rewrite (Hdisplay j arg' Hj). f_equal. f_equal. lia.
Qed.


End RenamedArguments.

(** A module function as a minifier leaves it, with one argument more
    than the wrapper passes:
    [function (e, module, n, a, b, c, g) { e("./fib"); }] *)
Definition minified_function : ModuleFunction :=
  MkFunction None
    [Symbol "e" (Some 0%nat); Symbol "module" (Some 1%nat);
     Symbol "n" None; Symbol "a" None; Symbol "b" None; Symbol "c" None;
     Symbol "g" None]
    [AST_SimpleStatement
       (AST_Call (AST_SymbolRef (Symbol "e" (Some 0%nat)))
          [AST_String "./fib"])].


(* ===================================================================== *)
(** * More rules of the normalizer *)
(* ===================================================================== *)

Section MoreRules.

(** ** every statement sequence splitting rewrites *)


(** ** the definitions of a [var] *)


(** ** a [return] of a conditional expression *)


(** ** [return void] *)

Lemma replace_loop_nil fuel (replace : node → option (list node)) :
  replace_loop fuel replace [] = Some [].
Proof. by destruct fuel. Qed.

Lemma replace_loop_app fuel1 fuel2 (replace : node → option (list node))
    l1 l2 o1 o2 :
  replace_loop fuel1 replace l1 = Some o1 →
  replace_loop fuel2 replace l2 = Some o2 →
  replace_loop (fuel1 + fuel2) replace (l1 ++ l2) = Some (o1 ++ o2).
Proof.
  intros H1 H2. revert l1 o1 H1.
  induction fuel1 as [|fuel1 IH]; intros [|c l1] o1 H1;
    cbn [replace_loop app] in *; simplify_eq.
  - done.
  - eapply replace_loop_mono; [done|lia].
  - cbn [Nat.add replace_loop]. destruct (replace c) as [ns|].
    + rewrite app_assoc. by apply IH.
    + destruct (replace_loop fuel1 replace l1) as [o|] eqn:E; [|done].
      cbn in H1. injection H1 as <-. by rewrite (IH _ _ E).
Qed.

Lemma replace_loop_app_inv fuel (replace : node → option (list node))
    l1 l2 out :
  replace_loop fuel replace (l1 ++ l2) = Some out →
  ∃ o1 o2, out = o1 ++ o2 ∧
           replace_loop fuel replace l1 = Some o1 ∧
           replace_loop fuel replace l2 = Some o2.
Proof.
  revert l1 out. induction fuel as [|fuel IH]; intros [|c l1] out H.
  - exists [], out. by rewrite replace_loop_nil.
  - done.
  - exists [], out. by rewrite replace_loop_nil.
  - cbn [app replace_loop] in H. destruct (replace c) as [ns|] eqn:Ec.
    + rewrite app_assoc in H. apply IH in H as (o1 & o2 & -> & H1 & H2).
      exists o1, o2. split_and!; [done| |].
      * cbn [replace_loop]. by rewrite Ec.
      * eapply replace_loop_mono; [done|lia].
    + destruct (replace_loop fuel replace (l1 ++ l2)) as [o|] eqn:E; [|done].
      cbn in H. injection H as <-.
      apply IH in E as (o1 & o2 & -> & H1 & H2).
      exists (c :: o1), o2. split_and!; [done| |].
      * cbn [replace_loop]. by rewrite Ec, H1.
      * eapply replace_loop_mono; [done|lia].
Qed.

(** X14. Normalizing a program with the statement [return void e;] is
    normalizing the program with [e; return;] in its place, provided [e]
    is not a comma expression (or an assignment of one) that sequence
    splitting would rewrite in the new statement. *)
Theorem void_rule e before rest :
  remove_sequence (AST_SimpleStatement e) = None →
  decompress
    (AST_Toplevel
       (before ++ AST_Return (Some (AST_UnaryPrefix "void" e)) :: rest))
    None
  = decompress
      (AST_Toplevel
         (before ++ [AST_SimpleStatement e; AST_Return None] ++ rest))
      None.
Proof.
  intros Hseq.
  set (R := AST_Return (Some (AST_UnaryPrefix "void" e))).
  set (N := [AST_SimpleStatement e; AST_Return None]).
  assert (Forall (λ c, remove_sequence c = None) N) as HNseq
    by (repeat constructor; done).
  assert (Forall (λ c, void_return c = None) N) as HNvoid
    by (repeat constructor; done).
  destruct (decompress_total (AST_Toplevel (before ++ N ++ rest)) None)
    as [r Hr].
  rewrite Hr. unfold decompress in Hr.
  set (w := weight (AST_Toplevel (before ++ N ++ rest))) in Hr.
  cbn [transform] in Hr. unfold transformBefore in Hr.
  cbn [defaults defaultOptions constants sequences conditionals fold_constant]
    in Hr.
  unfold split_sequences, removeSequences, replaceInBlock in Hr.
  cbn [is_Block get_field set_field_array] in Hr.
  destruct (replace_loop w remove_sequence (before ++ N ++ rest))
    as [out1|] eqn:E1; [|done].
  cbn [mbind option_bind to_conditional is_Block orb] in Hr.
  unfold replaceInBlock in Hr. cbn [get_field set_field_array] in Hr.
  destruct (replace_loop w void_return out1) as [out2|] eqn:E2; [|done].
  cbn [mbind option_bind fmap option_fmap option_map] in Hr.
  apply replace_loop_app_inv in E1 as (B & MT & -> & HB & HMT).
  apply replace_loop_app_inv in HMT as (M & T & -> & HM & HT).
  apply replace_loop_None_inv in HM as ->; [|done].
  apply replace_loop_app_inv in E2 as (B' & MT' & -> & HB' & HMT').
  apply replace_loop_app_inv in HMT' as (M' & T' & -> & HM' & HT').
  apply replace_loop_None_inv in HM' as ->; [|done].
  set (F := (w + (3 + w))%nat).
  apply (decompress_fuel _ None (S F)).
  cbn [transform]. unfold transformBefore.
  cbn [defaults defaultOptions constants sequences conditionals fold_constant].
  unfold split_sequences, removeSequences, replaceInBlock.
  cbn [is_Block get_field set_field_array].
  assert (replace_loop F remove_sequence (before ++ R :: rest)
          = Some (B ++ [R] ++ T)) as ->.
  { change (R :: rest) with ([R] ++ rest).
    apply replace_loop_app; [done|].
    apply (replace_loop_app 3 w); [done|done]. }
  cbn [mbind option_bind to_conditional is_Block orb].
  unfold replaceInBlock. cbn [get_field set_field_array].
  assert (replace_loop F void_return (B ++ [R] ++ T)
          = Some (B' ++ N ++ T')) as ->.
  { apply replace_loop_app; [done|].
    apply (replace_loop_app 3 w); [done|done]. }
  cbn [mbind option_bind fmap option_fmap option_map].
  eapply descend_mono; [|exact Hr].
  intros c r' Hc. eapply transform_mono; [done|unfold F; lia].
Qed.

(** ** a body of one statement that is split *)

Lemma transform_unfold o fuel n :
  transform o (S fuel) n =
  x ← transformBefore o (transform o fuel) fuel n;
  match x with
  | Replace x => Some x
  | Descend n' => descend (transform o fuel) n'
  end.
Proof. done. Qed.

(** Where no rule looks at it, [return void e;] stays, with [e]
    normalized. *)
Lemma transform_return_void fuel e r :
  transform defaultOptions fuel
    (AST_Return (Some (AST_UnaryPrefix "void" e))) = Some r →
  ∃ e', r = AST_Return (Some (AST_UnaryPrefix "void" e')) ∧
        decompress e None = Some e'.
Proof.
  destruct fuel as [|[|fuel]]; [done|done|].
  rewrite transform_unfold. unfold transformBefore.
  cbn [defaultOptions constants sequences conditionals fold_constant
       split_sequences is_Block is_StatementWithBody mbind option_bind
       to_conditional orb descend transform_opt].
  rewrite transform_unfold. unfold transformBefore.
  assert (fold_constant (AST_UnaryPrefix "void" e) = None) as ->
    by (by destruct e).
  cbn [defaultOptions constants sequences conditionals
       split_sequences is_Block is_StatementWithBody mbind option_bind
       to_conditional orb descend transform_opt].
  destruct (transform defaultOptions fuel e) as [e'|] eqn:Ee; [|done].
  cbn [fmap option_fmap option_map mbind option_bind].
  intros [= <-]. exists e'. split; [done|]. by eapply decompress_fuel.
Qed.


End MoreRules.



Lemma void_rule_witness :
  decompress
    (AST_Toplevel
       ([] ++ AST_Return (Some (AST_UnaryPrefix "void" (call0 "a"))) :: []))
    None
  = decompress
      (AST_Toplevel
         ([] ++ [AST_SimpleStatement (call0 "a"); AST_Return None] ++ []))
      None.
Proof. apply (void_rule (call0 "a") [] []). reflexivity. Defined.

(* ===================================================================== *)
(** * The names of packages *)
(* ===================================================================== *)

Section PackageNames.

Implicit Types (s t seg : string) (segs : list string).

(** ** Splitting and joining at slashes *)

Lemma append_cons c s t : String c s +:+ t = String c (s +:+ t).
Proof. done. Qed.

Lemma split_slash_app s t :
  js.split_slash (s +:+ "/" +:+ t) = js.split_slash s ++ js.split_slash t.
Proof.
  induction s as [|c s IH]; [done|].
  rewrite append_cons. cbn [js.split_slash]. rewrite IH.
  destruct (Ascii.eqb c "/"); [done|].
  by destruct (split_slash_cons s) as (seg & rest & ->).
Qed.

(** A string without a slash. *)
Definition no_slash s : Prop := js.split_slash s = [s].

Lemma no_slash_cons c s :
  no_slash (String c s) → Ascii.eqb c "/" = false ∧ no_slash s.
Proof.
  unfold no_slash. cbn [js.split_slash].
  destruct (Ascii.eqb c "/").
  - destruct (split_slash_cons s) as (seg & rest & ->). done.
  - destruct (split_slash_cons s) as (seg & rest & E). rewrite E.
    intros H. injection H as H1 H2. subst. by split.
Qed.

Lemma split_slash_no_slash s : Forall no_slash (js.split_slash s).
Proof.
  induction s as [|c s IH]; [by repeat constructor|].
  cbn [js.split_slash]. destruct (Ascii.eqb c "/") eqn:Ec.
  - by apply Forall_cons.
  - destruct (split_slash_cons s) as (seg & rest & E). rewrite E in *.
    apply Forall_cons in IH as [Hseg Hrest]. apply Forall_cons.
    split; [|done]. unfold no_slash in *. cbn [js.split_slash].
    by rewrite Ec, Hseg.
Qed.

Lemma split_slash_concat segs :
  segs ≠ [] → Forall no_slash segs →
  js.split_slash (String.concat "/" segs) = segs.
Proof.
  induction segs as [|x [|y l] IH]; intros Hne Hall; [done| |].
  - by apply Forall_cons in Hall as [? _].
  - apply Forall_cons in Hall as [Hx Hall].
    change (String.concat "/" (x :: y :: l))
      with (x +:+ "/" +:+ String.concat "/" (y :: l)).
    rewrite split_slash_app, Hx, IH by done. done.
Qed.

Lemma concat_split_slash s : String.concat "/" (js.split_slash s) = s.
Proof.
  induction s as [|c s IH]; [done|].
  cbn [js.split_slash]. destruct (Ascii.eqb c "/") eqn:Ec.
  - apply Ascii.eqb_eq in Ec as ->.
    destruct (split_slash_cons s) as (seg & rest & E). rewrite E in *.
    change (String.concat "/" ("" :: seg :: rest))
      with ("/" +:+ String.concat "/" (seg :: rest)).
    by rewrite IH.
  - destruct (split_slash_cons s) as (seg & rest & E). rewrite E in *.
    destruct rest as [|y l].
    + cbn in *. by rewrite IH.
    + change (String.concat "/" (String c seg :: y :: l))
        with (String c (seg +:+ "/" +:+ String.concat "/" (y :: l))).
      by rewrite <- IH.
Qed.

(** ** Normalizing a path of plain segments *)

(** A segment that [normalize] keeps as it is. *)
Definition plain seg : Prop := seg ≠ "" ∧ seg ≠ "." ∧ seg ≠ "..".

Lemma fold_normalize_plain allowAboveRoot segs acc :
  Forall plain segs →
  fold_left (path.normalize_segment allowAboveRoot) segs acc
  = rev segs ++ acc.
Proof.
  intros Hall. revert acc.
  induction Hall as [|seg segs (H0 & H1 & H2) Hall IH]; intros acc; [done|].
  cbn [fold_left rev]. rewrite IH, <- app_assoc. cbn [app]. f_equal.
  unfold path.normalize_segment.
  apply String.eqb_neq in H0, H1, H2. by rewrite H0, H1, H2.
Qed.

Lemma last_char_cons c s : s ≠ "" → path.last_char (String c s) = path.last_char s.
Proof.
  intros Hs. destruct s as [|c' s']; [done|].
  unfold path.last_char. cbn [String.length Nat.sub].
  by rewrite Nat.sub_0_r.
Qed.

Lemma last_char_app s t : t ≠ "" → path.last_char (s +:+ t) = path.last_char t.
Proof.
  intros Ht. induction s as [|c s IH]; [done|].
  rewrite append_cons, last_char_cons; [done|]. by apply append_nonempty.
Qed.

Lemma no_slash_first s : no_slash s → path.is_slash (String.get 0 s) = false.
Proof.
  destruct s as [|c s]; [done|]. by intros [Hc _]%no_slash_cons.
Qed.

Lemma no_slash_last s :
  no_slash s → s ≠ "" → path.is_slash (path.last_char s) = false.
Proof.
  induction s as [|c s IH]; [done|]. intros [Hc Hs]%no_slash_cons _.
  destruct s as [|c' s']; [done|].
  rewrite last_char_cons by done. by apply IH.
Qed.

Lemma concat_plain_nonempty segs :
  segs ≠ [] → Forall plain segs → String.concat "/" segs ≠ "".
Proof.
  destruct segs as [|x [|y l]]; intros Hne Hall; [done| |].
  - apply Forall_cons in Hall as [[? _] _]. done.
  - apply Forall_cons in Hall as [[Hx _] _].
    change (String.concat "/" (x :: y :: l))
      with (x +:+ "/" +:+ String.concat "/" (y :: l)).
    destruct x; [done|]. by rewrite append_cons.
Qed.

Lemma concat_first x l :
  x ≠ "" → String.get 0 (String.concat "/" (x :: l)) = String.get 0 x.
Proof.
  intros Hx. destruct l as [|y l]; [done|].
  change (String.concat "/" (x :: y :: l))
    with (x +:+ "/" +:+ String.concat "/" (y :: l)).
  destruct x; [done|]. by rewrite append_cons.
Qed.

Lemma concat_last segs :
  segs ≠ [] → Forall plain segs → Forall no_slash segs →
  path.is_slash (path.last_char (String.concat "/" segs)) = false.
Proof.
  induction segs as [|x [|y l] IH]; intros Hne Hplain Hslash; [done| |].
  - apply Forall_cons in Hplain as [[? _] _], Hslash as [? _].
    by apply no_slash_last.
  - apply Forall_cons in Hplain as [_ Hplain], Hslash as [_ Hslash].
    change (String.concat "/" (x :: y :: l))
      with (x +:+ String "/" (String.concat "/" (y :: l))).
    rewrite last_char_app by done.
    rewrite last_char_cons by (by apply concat_plain_nonempty).
    by apply IH.
Qed.

Lemma normalize_plain segs :
  segs ≠ [] → Forall plain segs → Forall no_slash segs →
  path.normalize (String.concat "/" segs) = String.concat "/" segs.
Proof.
  intros Hne Hplain Hslash. unfold path.normalize, path.normalizeString.
  pose proof (concat_plain_nonempty segs Hne Hplain) as Hp.
  apply String.eqb_neq in Hp. rewrite Hp.
  rewrite split_slash_concat, fold_normalize_plain, app_nil_r, rev_involutive
    by done.
  rewrite Hp, concat_last by done.
  destruct segs as [|x l]; [done|].
  apply Forall_cons in Hplain as [[Hx _] _], Hslash as [Hs _].
  rewrite concat_first, no_slash_first by done. cbn.
  by rewrite andb_false_r.
Qed.

Lemma string_concat_app (l1 l2 : list string) :
  l1 ≠ [] → l2 ≠ [] →
  String.concat "/" (l1 ++ l2)
  = String.concat "/" l1 +:+ "/" +:+ String.concat "/" l2.
Proof.
  intros H1 H2. induction l1 as [|x [|y l] IH]; [done| |].
  - destruct l2; [done|]. done.
  - change (String.concat "/" ((x :: y :: l) ++ l2))
      with (x +:+ "/" +:+ String.concat "/" ((y :: l) ++ l2)).
    rewrite IH by done.
    change (String.concat "/" (x :: y :: l))
      with (x +:+ "/" +:+ String.concat "/" (y :: l)).
    by rewrite !string_app_assoc.
Qed.

(** Joining [node_modules], a name made of plain segments and [index]
    normalizes nothing away. *)
Lemma join_package name :
  Forall plain (js.split_slash name) →
  path.join ["node_modules"; name; "index"]
  = "node_modules/" +:+ name +:+ "/index" ∧
  js.split_slash (path.join ["node_modules"; name; "index"])
  = "node_modules" :: js.split_slash name ++ ["index"].
Proof.
  intros Hplain. unfold path.join.
  assert (name ≠ "") as Hname.
  { intros ->. by apply Forall_cons in Hplain as [[? _] _]. }
  assert (filter (λ a : string, negb (String.eqb a ""))
            ["node_modules"; name; "index"]
          = ["node_modules"; name; "index"]) as ->.
  { apply String.eqb_neq in Hname.
    rewrite filter_cons_True by done.
    rewrite filter_cons_True by (by rewrite Hname).
    by rewrite filter_cons_True by done. }
  set (segs := "node_modules" :: js.split_slash name ++ ["index"]).
  assert (String.concat "/" ["node_modules"; name; "index"]
          = String.concat "/" segs) as Hsegs.
  { unfold segs.
    change ("node_modules" :: js.split_slash name ++ ["index"])
      with (["node_modules"] ++ (js.split_slash name ++ ["index"])).
    destruct (split_slash_cons name) as (seg & rest & E).
    rewrite !string_concat_app, concat_split_slash; try done.
    - by rewrite E.
    - by destruct (js.split_slash name). }
  assert (Forall plain segs) as Hplain'.
  { apply Forall_cons. split; [done|]. apply Forall_app. split; [done|].
    by repeat constructor. }
  assert (Forall no_slash segs) as Hslash.
  { apply Forall_cons. split; [done|]. apply Forall_app.
    split; [apply split_slash_no_slash|]. by repeat constructor. }
  rewrite Hsegs, normalize_plain by done.
  split; [by rewrite <- Hsegs|]. by apply split_slash_concat.
Qed.

(** ** the name of a required package *)

(** X16. A require of a name that does not start with a dot, made of
    segments that are neither empty nor [.] nor [..], proposes the name
    [node_modules/<name>/index], whatever the module it occurs in. *)
Theorem bare_require moduleName name :
  js.startsWith "." name = false → Forall plain (js.split_slash name) →
  candidate moduleName name = "node_modules/" +:+ name +:+ "/index" ∧
  js.split_slash (candidate moduleName name)
  = "node_modules" :: js.split_slash name ++ ["index"].
Proof.
  intros Hdot Hplain. unfold candidate. rewrite Hdot.
  by apply join_package.
Qed.

End PackageNames.

Section PackageFate.

Variable isBuiltinModule : string → bool.

(** ** what becomes of a required package *)

(** X17. The resolver's name for a required package decides what the
    assembler does with the module: nothing is emitted for a builtin
    module or for a package in lower case, which is recorded as a
    dependency (a scoped package with its scope); a package spelled with
    capitals is emitted like a file of the bundle. *)
Theorem bare_require_fate moduleName name first rest :
  js.startsWith "." name = false → Forall plain (js.split_slash name) →
  js.split_slash name = first :: rest →
  fate_of isBuiltinModule (candidate moduleName name) =
  if isBuiltinModule first then Builtin
  else
    let package :=
      if bool_decide (String.get 0 first = Some "@"%char)
      then first +:+ "/" +:+ hd "index" rest
      else first in
    if String.eqb package (js.toLowerCase package)
    then Dependency package
    else Emitted.
Proof.
  intros Hdot Hplain Hsplit.
  destruct (join_package name Hplain) as [_ Hsegs].
  unfold fate_of, candidate. rewrite Hdot, Hsegs, Hsplit. cbn [lookup list_lookup app].
  rewrite bool_decide_eq_true_2 by done.
  rewrite Hsplit in Hplain. apply Forall_cons in Hplain as [[Hfirst _] Hrest].
  apply String.eqb_neq in Hfirst. rewrite Hfirst. cbn [negb andb].
  destruct (isBuiltinModule first); [done|].
  destruct rest as [|part rest']; cbn [app lookup list_lookup hd].
  - by rewrite andb_true_r.
  - apply Forall_cons in Hrest as [[Hpart _] _].
    apply String.eqb_neq in Hpart. rewrite Hpart. cbn [negb].
    by rewrite andb_true_r.
Qed.

End PackageFate.

Lemma bare_require_witness :
  candidate "browser" "@babel/core"
  = "node_modules/" +:+ "@babel/core" +:+ "/index" ∧
  js.split_slash (candidate "browser" "@babel/core")
  = "node_modules" :: js.split_slash "@babel/core" ++ ["index"].
Proof.
  apply (bare_require "browser" "@babel/core"); [reflexivity|].
  simpl. repeat (apply Forall_cons; split; [by split_and!|]).
  apply Forall_nil. done.
Defined.

Lemma bare_require_fate_witness :
  fate_of some_builtin_modules (candidate "browser" "@babel/core") =
  (if some_builtin_modules "@babel" then Builtin
   else
     let package :=
       if bool_decide (String.get 0 "@babel" = Some "@"%char)
       then "@babel" +:+ "/" +:+ hd "index" ["core"]
       else "@babel" in
     if String.eqb package (js.toLowerCase package)
     then Dependency package
     else Emitted) ∧
  fate_of some_builtin_modules (candidate "browser" "@babel/core")
  = Dependency "@babel/core".
Proof.
  split; [|reflexivity].
  apply (bare_require_fate some_builtin_modules "browser" "@babel/core");
    [reflexivity| |reflexivity].
  simpl. repeat (apply Forall_cons; split; [by split_and!|]).
  apply Forall_nil. done.
Defined.

(* ===================================================================== *)
(** * The names of required files *)
(* ===================================================================== *)

Section RelativeNames.

Implicit Types (s t seg : string) (segs : list string).

(** ** The directory of a name *)

Definition not_slash (c : ascii) : Prop := Ascii.eqb c "/" = false.

Lemma chars_app s t :
  list_ascii_of_string (s +:+ t)
  = list_ascii_of_string s ++ list_ascii_of_string t.
Proof.
  induction s as [|c s IH]; [done|].
  rewrite append_cons. cbn [list_ascii_of_string app]. by rewrite IH.
Qed.

Lemma no_slash_chars s : no_slash s → Forall not_slash (list_ascii_of_string s).
Proof.
  induction s as [|c s IH]; [by constructor|].
  intros [Hc Hs]%no_slash_cons. cbn [list_ascii_of_string].
  apply Forall_cons. split; [done|by apply IH].
Qed.

Lemma dirname_end_none l matchedSlash :
  Forall not_slash l → path.dirname_end l matchedSlash = None.
Proof.
  intros Hl. revert matchedSlash.
  induction Hl as [|c l Hc Hl IH]; intros m; [done|].
  cbn [path.dirname_end]. unfold not_slash in Hc. by rewrite Hc.
Qed.

Lemma dirname_end_slash l r :
  Forall not_slash l →
  path.dirname_end (l ++ "/"%char :: r) false = Some (S (length r)).
Proof.
  induction 1 as [|c l Hc Hl IH]; [done|].
  cbn [app path.dirname_end]. unfold not_slash in Hc. by rewrite Hc.
Qed.

Lemma substring_prefix s t : String.substring 0 (String.length s) (s +:+ t) = s.
Proof.
  induction s as [|c s IH].
  - by destruct t.
  - rewrite append_cons. cbn [String.length String.substring]. by rewrite IH.
Qed.

(** The directory of a file at the top level is [.]. *)
Lemma dirname_file file :
  no_slash file → file ≠ "" → path.dirname file = ".".
Proof.
  intros Hfile Hne. destruct file as [|c0 tl]; [done|].
  apply no_slash_cons in Hfile as [Hc0 Htl]. cbn [path.dirname].
  rewrite dirname_end_none, Hc0; [done|].
  apply Forall_rev. by apply no_slash_chars.
Qed.

(** The directory of [d/file] is [d]. *)
Lemma dirname_slash d file :
  no_slash file → file ≠ "" → d ≠ "" →
  path.is_slash (String.get 0 d) = false →
  path.dirname (d +:+ "/" +:+ file) = d.
Proof.
  intros Hfile Hne Hd Hfirst. destruct d as [|c0 d']; [done|].
  rewrite append_cons. cbn [path.dirname]. cbn in Hfirst. rewrite Hfirst.
  rewrite chars_app, rev_app_distr.
  change (list_ascii_of_string ("/" +:+ file))
    with ("/"%char :: list_ascii_of_string file).
  cbn [rev]. rewrite <- app_assoc. cbn [app].
  destruct file as [|c file']; [done|].
  apply no_slash_chars in Hfile. cbn [list_ascii_of_string rev] in *.
  apply Forall_cons in Hfile as [Hc Hfile].
  assert (Forall not_slash (rev (list_ascii_of_string file') ++ [c]))
    as Hrev.
  { apply Forall_app. split; [by apply Forall_rev|by repeat constructor]. }
  destruct (rev (list_ascii_of_string file') ++ [c]) as [|x l] eqn:E.
  { by destruct (rev (list_ascii_of_string file')). }
  apply Forall_cons in Hrev as [Hx Hl]. cbn [app path.dirname_end].
  unfold not_slash in Hx. rewrite Hx.
  rewrite dirname_end_slash by done.
  rewrite length_rev. cbn [andb]. unfold js.slice.
  rewrite Nat.sub_0_r.
  replace (S (length (list_ascii_of_string d')))
    with (String.length (String c0 d')).
  - rewrite <- append_cons. apply substring_prefix.
  - cbn [String.length]. f_equal. clear.
    induction d' as [|c d IH]; [done|]. cbn. by rewrite IH.
Qed.

(** ** Normalizing a path with [.] segments *)

(** A segment that is kept or dropped, never one that removes another. *)
Definition stays seg : Prop := seg ≠ "" ∧ seg ≠ "..".

Definition without_dots segs : list string :=
  List.filter (λ seg, negb (String.eqb seg ".")) segs.

Lemma fold_normalize_dots allowAboveRoot segs acc :
  Forall stays segs →
  fold_left (path.normalize_segment allowAboveRoot) segs acc
  = rev (without_dots segs) ++ acc.
Proof.
  intros Hall. revert acc.
  induction Hall as [|seg segs (H0 & H2) Hall IH]; intros acc; [done|].
  cbn [fold_left without_dots List.filter]. rewrite IH.
  unfold path.normalize_segment.
  apply String.eqb_neq in H0, H2. rewrite H0, H2.
  destruct (String.eqb seg "."); cbn [orb negb rev]; [done|].
  by rewrite <- app_assoc.
Qed.

Lemma concat_stays_nonempty segs :
  segs ≠ [] → Forall stays segs → String.concat "/" segs ≠ "".
Proof.
  destruct segs as [|x [|y l]]; intros Hne Hall; [done| |].
  - apply Forall_cons in Hall as [[? _] _]. done.
  - apply Forall_cons in Hall as [[Hx _] _].
    change (String.concat "/" (x :: y :: l))
      with (x +:+ "/" +:+ String.concat "/" (y :: l)).
    destruct x; [done|]. by rewrite append_cons.
Qed.

Lemma concat_last_stays front z :
  Forall stays front → stays z → no_slash z →
  path.is_slash (path.last_char (String.concat "/" (front ++ [z]))) = false.
Proof.
  intros Hfront Hstays Hslash. pose proof Hstays as [Hz _].
  induction Hfront as [|x l Hx Hl IH]; [by apply no_slash_last|].
  cbn [app]. destruct (l ++ [z]) as [|y l'] eqn:E; [by destruct l|].
  change (String.concat "/" (x :: y :: l'))
    with (x +:+ String "/" (String.concat "/" (y :: l'))).
  rewrite last_char_app by done.
  rewrite last_char_cons; [done|].
  rewrite <- E. apply concat_stays_nonempty; [by destruct l|].
  apply Forall_app. split; [done|].
  apply Forall_cons. split; [done|]. by apply Forall_nil.
Qed.

Lemma normalize_dots front z :
  Forall stays front → Forall no_slash front → plain z → no_slash z →
  path.normalize (String.concat "/" (front ++ [z]))
  = String.concat "/" (without_dots front ++ [z]).
Proof.
  intros Hfront Hslash (Hz0 & Hz1 & Hz2) Hz.
  assert (Forall stays (front ++ [z])) as Hall.
  { apply Forall_app. split; [done|]. by repeat constructor. }
  assert (Forall no_slash (front ++ [z])) as Hall'.
  { apply Forall_app. split; [done|]. by repeat constructor. }
  assert (front ++ [z] ≠ []) as Hne by (by destruct front).
  assert (without_dots (front ++ [z]) = without_dots front ++ [z]) as Hkeep.
  { unfold without_dots. rewrite List.filter_app. cbn [List.filter].
    apply String.eqb_neq in Hz1. by rewrite Hz1. }
  unfold path.normalize, path.normalizeString.
  pose proof (concat_stays_nonempty _ Hne Hall) as Hp.
  apply String.eqb_neq in Hp. rewrite Hp.
  rewrite split_slash_concat, fold_normalize_dots, app_nil_r, rev_involutive
    by done.
  rewrite Hkeep, concat_last_stays by done.
  assert (String.concat "/" (without_dots front ++ [z]) ≠ "") as Hq.
  { apply concat_stays_nonempty; [by destruct (without_dots front)|].
    apply Forall_app. split; [|by repeat constructor].
    unfold without_dots. apply Forall_forall.
    intros x [Hx _]%list_elem_of_In%filter_In.
    rewrite Forall_forall in Hfront. by apply Hfront, list_elem_of_In. }
  apply String.eqb_neq in Hq. rewrite Hq.
  destruct (front ++ [z]) as [|x l] eqn:E; [done|].
  apply Forall_cons in Hall as [[Hx _] _], Hall' as [Hs _].
  rewrite concat_first, no_slash_first by done. cbn.
  by rewrite andb_false_r.
Qed.

Lemma without_dots_plain segs : Forall plain segs → without_dots segs = segs.
Proof.
  induction 1 as [|x l (_ & Hx & _) Hl IH]; [done|].
  cbn [without_dots List.filter]. apply String.eqb_neq in Hx. rewrite Hx.
  cbn [negb]. f_equal. exact IH.
Qed.

Lemma plain_stays seg : plain seg → stays seg.
Proof. by intros (? & _ & ?). Qed.

(** ** the name of a required file *)

(** X18. A require of [./segs] in the module named [dir/file] proposes the
    name [dir/segs]: the name is resolved against the directory of the
    requiring module, and against nothing for a module at the top level,
    as the entry module [browser]. *)
Theorem relative_require dir file front z :
  Forall plain (dir ++ [file]) → Forall no_slash (dir ++ [file]) →
  Forall plain (front ++ [z]) → Forall no_slash (front ++ [z]) →
  candidate (String.concat "/" (dir ++ [file]))
            ("./" +:+ String.concat "/" (front ++ [z]))
  = String.concat "/" (dir ++ front ++ [z]).
Proof.
  intros Hdir Hdir' Hsegs Hsegs'.
  apply Forall_app in Hdir as [Hdir Hfile], Hdir' as [Hdir' Hfile'].
  apply Forall_cons in Hfile as [Hfile _], Hfile' as [Hfile' _].
  apply Forall_app in Hsegs as [Hfront Hz], Hsegs' as [Hfront' Hz'].
  apply Forall_cons in Hz as [Hz _], Hz' as [Hz' _].
  set (name := "./" +:+ String.concat "/" (front ++ [z])).
  unfold candidate.
  assert (js.startsWith "." name = true) as -> by done.
  set (Dsegs := match dir with [] => ["."] | _ => dir end).
  assert (path.dirname (String.concat "/" (dir ++ [file]))
          = String.concat "/" Dsegs) as ->.
  { destruct dir as [|d0 dir'] eqn:Edir.
    - cbn [app String.concat]. apply dirname_file; [done|apply Hfile].
    - rewrite <- Edir in *. rewrite string_concat_app by (by subst).
      assert (Dsegs = dir) as -> by (by subst).
      apply dirname_slash; [done|apply Hfile| |].
      + apply concat_plain_nonempty; [by subst|done].
      + subst dir. apply Forall_cons in Hdir as [[Hd _] _], Hdir' as [Hd' _].
        rewrite concat_first by done. by apply no_slash_first. }
  assert (Forall stays Dsegs ∧ Forall no_slash Dsegs ∧ Dsegs ≠ [] ∧
          without_dots Dsegs = dir) as (HD & HD' & HDne & HDdots).
  { unfold Dsegs. destruct dir as [|d0 dir'].
    - split_and!; try done; by repeat constructor.
    - split_and!; [|done|done|by apply without_dots_plain].
      eapply Forall_impl; [exact Hdir|]. apply plain_stays. }
  unfold path.join.
  assert (String.concat "/" Dsegs ≠ "") as HDs
    by (by apply concat_stays_nonempty).
  rewrite filter_cons_True
    by (apply String.eqb_neq in HDs; by rewrite HDs).
  rewrite filter_cons_True by done. rewrite filter_nil.
  assert (String.concat "/" [String.concat "/" Dsegs; name]
          = String.concat "/" ((Dsegs ++ ["."] ++ front) ++ [z])) as ->.
  { rewrite <- !app_assoc.
    rewrite (string_concat_app Dsegs) by (done || by destruct front).
    by rewrite (string_concat_app ["."]) by (done || by destruct front). }
  rewrite normalize_dots; try done.
  - unfold without_dots. rewrite !List.filter_app.
    fold (without_dots Dsegs). fold (without_dots front).
    rewrite HDdots, (without_dots_plain front) by done.
    cbn [List.filter app]. by rewrite <- app_assoc.
  - apply Forall_app. split; [done|]. apply Forall_app. split.
    + by repeat constructor.
    + eapply Forall_impl; [exact Hfront|]. apply plain_stays.
  - apply Forall_app. split; [done|]. apply Forall_app. split; [|done].
    by repeat constructor.
Qed.

End RelativeNames.

Lemma relative_require_witness :
  candidate (String.concat "/" (["lib"; "util"] ++ ["main"]))
            ("./" +:+ String.concat "/" (["helpers"] ++ ["x"]))
  = String.concat "/" (["lib"; "util"] ++ ["helpers"] ++ ["x"]) ∧
  candidate "lib/util/main" "./helpers/x" = "lib/util/helpers/x" ∧
  candidate "browser" "./fib" = "fib".
Proof.
  split; [|split; reflexivity].
  apply relative_require; simpl;
    repeat (apply Forall_cons; split; [first [by split_and!|reflexivity]|]);
    by apply Forall_nil.
Defined.

(* ===================================================================== *)
(** * The earlier resolver and assembler *)
(* ===================================================================== *)

(** The version of [extractModuleNames] and [extractModules] that the
    tests were written for: one pass over the module map, names taken
    from the base names of the require keys, no filters. *)
Module legacy.

(** The callback of [requireMapping.properties.forEach]. *)
Definition visit_require (st : resolver_state) (prop : string * string)
  : resolver_state :=
  let name := path.basename (fst prop) ".js" in
  let id := snd prop in
  if negb (js.truthy (moduleNames st !! id)) then
    MkResolver (<[id := name]> (moduleNames st)) (warnings st)
  else
    let existing := default "" (moduleNames st !! id) in
    if negb (String.eqb (js.toLowerCase existing) (js.toLowerCase name)) then
      MkResolver (moduleNames st)
        (warnings st ++ conflict_warning id existing name)
    else st.

Definition seed (main : list string) : gmap string string :=
  fold_left (fun names element => <[element := "main"]> names) main ∅.

Definition extractModuleNames (moduleObject : list ObjectProperty)
    (main : list string) : resolver_state :=
  fold_left
    (fun st objectProperty =>
       fold_left visit_require (requireMapping objectProperty) st)
    moduleObject (MkResolver (seed main) []).

(** [extractModules]: the object [modules] starts with an empty program
    under [main], and every entry of the module map is assembled. *)
Definition extractModules (d : defs) (moduleObject : list ObjectProperty)
    (moduleNames : gmap string string) : assembly :=
  fold_left assemble_module (map (module_property moduleNames) moduleObject)
    (MkAssembly {["main" := AST_Toplevel []]} d ∅).

(** The require maps of the module map, one after the other. *)
Definition requires (moduleObject : list ObjectProperty)
  : list (string * string) :=
  concat (map requireMapping moduleObject).

Lemma extractModuleNames_requires moduleObject main :
  extractModuleNames moduleObject main
  = fold_left visit_require (requires moduleObject)
      (MkResolver (seed main) []).
Proof.
  unfold extractModuleNames, requires.
  generalize (MkResolver (seed main) []).
  induction moduleObject as [|p l IH]; intros st; [done|].
  cbn [fold_left map concat]. by rewrite fold_left_app, IH.
Qed.

Lemma seed_main main id :
  seed main !! id = if decide (id ∈ main) then Some "main" else None.
Proof.
  unfold seed.
  assert (∀ names : gmap string string,
    fold_left (λ names element, <[element := "main"]> names) main names !! id
    = if decide (id ∈ main) then Some "main" else names !! id) as H.
  { induction main as [|m main IH]; intros names; simpl.
    - destruct (decide (id ∈ [])) as [Hin|]; [|done].
      by apply not_elem_of_nil in Hin.
    - rewrite IH.
      destruct (decide (id ∈ main)) as [Hin|Hnin];
        destruct (decide (id ∈ m :: main)) as [Hin'|Hnin']; try done.
      + exfalso. apply Hnin'. by apply elem_of_cons; right.
      + apply elem_of_cons in Hin' as [->|?]; [|done].
        by rewrite lookup_insert_eq.
      + rewrite lookup_insert_ne; [done|].
        intros ->. apply Hnin', list_elem_of_here. }
  rewrite H. by destruct (decide (id ∈ main)).
Qed.

(** What one require does to the name of an id. *)
Lemma visit_require_lookup st prop id :
  moduleNames (visit_require st prop) !! id =
  if decide (id = snd prop ∧ js.truthy (moduleNames st !! id) = false)
  then Some (path.basename (fst prop) ".js")
  else moduleNames st !! id.
Proof.
  unfold visit_require.
  destruct (js.truthy (moduleNames st !! snd prop)) eqn:Ht; cbn [negb].
  - rewrite decide_False by (intros [-> ?]; congruence).
    by destruct (negb (String.eqb _ _)).
  - cbn [moduleNames]. destruct (decide (id = snd prop)) as [-> | Hne].
    + by rewrite lookup_insert_eq, decide_True.
    + rewrite lookup_insert_ne by done. by rewrite decide_False by tauto.
Qed.

Lemma fold_visit_other (l : list (string * string)) st id :
  (∀ prop, prop ∈ l → snd prop ≠ id) →
  moduleNames (fold_left visit_require l st) !! id = moduleNames st !! id.
Proof.
  revert st. induction l as [|prop l IH]; intros st Hl; [done|].
  cbn [fold_left]. rewrite IH by (intros; apply Hl; by apply elem_of_cons; right).
  rewrite visit_require_lookup, decide_False; [done|].
  intros [-> _]. by apply (Hl prop); [apply list_elem_of_here|].
Qed.

Lemma fold_visit_keep (l : list (string * string)) st id v :
  moduleNames st !! id = Some v → v ≠ "" →
  moduleNames (fold_left visit_require l st) !! id = Some v.
Proof.
  revert st. induction l as [|prop l IH]; intros st Hv Hne; [done|].
  cbn [fold_left]. apply IH; [|done].
  rewrite visit_require_lookup, decide_False; [done|].
  intros [_ Ht]. rewrite Hv in Ht. cbn in Ht.
  apply negb_false_iff, String.eqb_eq in Ht. done.
Qed.

Lemma fold_visit_ids (l : list (string * string)) st id :
  is_Some (moduleNames (fold_left visit_require l st) !! id) ↔
  is_Some (moduleNames st !! id) ∨ ∃ prop, prop ∈ l ∧ snd prop = id.
Proof.
  revert st. induction l as [|prop l IH]; intros st.
  - split; [by left|]. intros [? | (prop & Hin & _)]; [done|].
    by apply not_elem_of_nil in Hin.
  - cbn [fold_left]. rewrite IH, visit_require_lookup. split.
    + intros [H | (prop' & Hin & <-)].
      * destruct (decide _) as [[-> _] | _]; [|by left].
        right. exists prop. split; [apply list_elem_of_here|done].
      * right. exists prop'. split; [by apply elem_of_cons; right|done].
    + intros [H | (prop' & [-> | Hin]%elem_of_cons & <-)].
      * left. destruct (decide _); [by eexists|done].
      * left. destruct (decide _) as [_ | Hn]; [by eexists|].
        destruct (moduleNames st !! snd prop) as [v|] eqn:E; [by eexists|].
        destruct Hn. by split.
      * right. eauto.
Qed.

(** ** the first name wins *)

(** X19. In the earlier resolver an entry id is named [main] and keeps that
    name; any other id gets the base name of the first require, in the
    order of the module map, that targets it, and keeps it whatever the
    later requires call it; the ids with a name are the entry ids and the
    required ids. *)
Theorem first_name moduleObject main :
  (∀ id, id ∈ main →
         moduleNames (extractModuleNames moduleObject main) !! id
         = Some "main") ∧
  (∀ pre k id post,
     requires moduleObject = pre ++ (k, id) :: post →
     id ∉ main → (∀ prop, prop ∈ pre → snd prop ≠ id) →
     path.basename k ".js" ≠ "" →
     moduleNames (extractModuleNames moduleObject main) !! id
     = Some (path.basename k ".js")) ∧
  (∀ id, is_Some (moduleNames (extractModuleNames moduleObject main) !! id)
         ↔ id ∈ main ∨ ∃ prop, prop ∈ requires moduleObject ∧ snd prop = id).
Proof.
  rewrite extractModuleNames_requires. split_and!.
  - intros id Hid. apply fold_visit_keep; [|done].
    cbn [moduleNames]. by rewrite seed_main, decide_True.
  - intros pre k id post -> Hid Hpre Hname.
    rewrite fold_left_app. cbn [fold_left].
    apply fold_visit_keep; [|done].
    rewrite visit_require_lookup. cbn [fst snd].
    rewrite fold_visit_other by done. cbn [moduleNames].
    assert (seed main !! id = None) as ->
      by (by rewrite seed_main, decide_False).
    by rewrite decide_True by (by split).
  - intros id. rewrite fold_visit_ids. cbn [moduleNames].
    rewrite seed_main. destruct (decide (id ∈ main)) as [Hid | Hid].
    + split; [intros _; by left|]. intros _. left. by eexists.
    + split; [|intros [? | ?]; [done|by right]].
      intros [[? [=]] | ?]. by right.
Qed.

(** ** no module is dropped *)


(** ** a module nobody refers to *)


End legacy.

(** A bundle whose third module is required by nobody. *)
Definition orphan_bundle : list ObjectProperty :=
  [MkProperty "1" main_function [("./fib", "2")];
   MkProperty "2" fib_function [];
   MkProperty "3" fib_function []].

